(** * discrete_shocklets: kernels, weighting functions and array utilities

    A shallow embedding of [discrete_shocklets/utils.py],
    [discrete_shocklets/kernel_functions.py] and
    [discrete_shocklets/weighting_functions.py].

    A one-dimensional numpy array is a [list]; a two-dimensional array is a
    list of rows.  The element type is abstract: every function is written
    once over the interface [FloatOps], which has two instances below,

    - [binary64]: IEEE-754 double precision (Rocq's primitive floats), the
      arithmetic numpy's [float64] arrays really use; the functions compute
      on it, so the behaviour of the code on a concrete array is obtained by
      evaluation;
    - [xreal]: the real numbers extended with [+inf], [-inf] and [NaN], with
      exact arithmetic on the finite values and the IEEE-754 rules for the
      special values (division by zero included).  Rounding and overflow do
      not exist there; it is the model in which the algebraic laws of the
      functions are stated for all arrays.

    A Python exception is a [Raise] result. *)

From Stdlib Require Import List ZArith Bool Lia Reals Lra QArith Qabs.
From Stdlib Require Import Permutation Sorted.
From Stdlib Require Import Floats.
Import ListNotations.

Close Scope Q_scope.

(** ** Results of Python calls *)

Inductive exn : Type :=
| ValueError
| IndexError.

Inductive result (A : Type) : Type :=
| Ok (a : A)
| Raise (e : exn).

Arguments Ok {A} a.
Arguments Raise {A} e.

Definition bind {A B : Type} (r : result A) (k : A -> result B) : result B :=
  match r with
  | Ok a => k a
  | Raise e => Raise e
  end.

Notation "x <- r ;; k" := (bind r (fun x => k))
  (at level 61, r at next level, right associativity).

(** ** The arithmetic of array elements *)

Class FloatOps (F : Type) : Type := {
  of_Z : Z -> F;            (* a Python int used as a float *)
  fopp : F -> F;
  fadd : F -> F -> F;
  fsub : F -> F -> F;
  fmul : F -> F -> F;
  fdiv : F -> F -> F;
  fsqrt : F -> F;
  feqb : F -> F -> bool;    (* [==] *)
  fltb : F -> F -> bool;    (* [<] *)
  ffinite : F -> bool       (* neither an infinity nor NaN *)
}.

(** The elementary functions numpy takes from the C library: [**],
    [np.exp] and [np.log10]. *)
Class Libm (F : Type) : Type := {
  fpow : F -> F -> F;
  fexp : F -> F;
  flog10 : F -> F
}.

Section Arrays.

Context {F : Type} {ops : FloatOps F}.

Definition fzero : F := of_Z 0.
Definition fone : F := of_Z 1.
Definition ftwo : F := of_Z 2.

(** [x != x] holds of NaN only. *)
Definition fisnan (x : F) : bool := negb (feqb x x).

(** [len(arr)] as the float a numpy expression converts it to. *)
Definition flen (arr : list F) : F := of_Z (Z.of_nat (length arr)).

(** *** Python's builtins [min] and [max] over an iterable

    The first item is the candidate; a later item replaces it when
    [item < candidate] (for [max]: [item > candidate]).  An empty iterable
    raises [ValueError]. *)
Definition py_min (arr : list F) : result F :=
  match arr with
  | [] => Raise ValueError
  | x :: rest =>
      Ok (fold_left (fun cur item => if fltb item cur then item else cur) rest x)
  end.

Definition py_max (arr : list F) : result F :=
  match arr with
  | [] => Raise ValueError
  | x :: rest =>
      Ok (fold_left (fun cur item => if fltb cur item then item else cur) rest x)
  end.

(** *** numpy reductions

    [np.sum] adds from left to right ([0.0] for an empty array).  numpy sums
    blocks of eight or more elements pairwise; the two orders agree on
    shorter arrays and, in exact arithmetic, on all. *)
Definition np_sum (arr : list F) : F := fold_left fadd arr fzero.

(** [np.min] and [np.max]: a NaN met first wins, and they raise
    [ValueError] on an empty array. *)
Definition np_minimum (a b : F) : F :=
  if fisnan a then a else if fisnan b then b else if fltb b a then b else a.

Definition np_maximum (a b : F) : F :=
  if fisnan a then a else if fisnan b then b else if fltb a b then b else a.

Definition np_min (arr : list F) : result F :=
  match arr with
  | [] => Raise ValueError
  | x :: rest => Ok (fold_left np_minimum rest x)
  end.

Definition np_max (arr : list F) : result F :=
  match arr with
  | [] => Raise ValueError
  | x :: rest => Ok (fold_left np_maximum rest x)
  end.

(** [arr.mean()]: the sum divided by the number of elements. *)
Definition np_mean (arr : list F) : F := fdiv (np_sum arr) (flen arr).

(** [arr.std()]: the deviations from the mean are squared, averaged, and the
    square root is taken. *)
Definition np_std (arr : list F) : F :=
  let arrmean := np_mean arr in
  let x := map (fun v => fsub v arrmean) arr in
  let x := map (fun v => fmul v v) x in
  fsqrt (fdiv (np_sum x) (flen arr)).

(** [a + b] on two arrays of one shape. *)
Fixpoint np_add (a b : list F) : list F :=
  match a, b with
  | x :: a', y :: b' => fadd x y :: np_add a' b'
  | _, _ => []
  end.

(** [np.diff(a)]: [a[i+1] - a[i]]. *)
Fixpoint np_diff (a : list F) : list F :=
  match a with
  | x :: (y :: _) as rest => fsub y x :: np_diff rest
  | _ => []
  end.

(** [res[:k] = v] and [res[k:] = v]. *)
Definition assign_upto (k : nat) (v : F) (res : list F) : list F :=
  map (fun _ => v) (firstn k res) ++ skipn k res.

Definition assign_from (k : nat) (v : F) (res : list F) : list F :=
  firstn k res ++ map (fun _ => v) (skipn k res).

(** [np.linspace(start, stop, num)], after numpy's [function_base.py]: the
    indices [0 .. num-1] are scaled by the step, shifted by [start], and the
    last sample is overwritten with [stop]. *)
Definition np_linspace (start stop : F) (num : nat) : list F :=
  let div := of_Z (Z.of_nat (num - 1)) in
  let y := map (fun n => of_Z (Z.of_nat n)) (seq 0 num) in
  let delta := fsub stop start in
  let y :=
    if (0 <? num - 1)%nat then
      let step := fdiv delta div in
      if feqb step fzero
      then map (fun v => fmul (fdiv v div) delta) y
      else map (fun v => fmul v step) y
    else map (fun v => fmul v delta) y in
  let y := map (fun v => fadd v start) y in
  if (1 <? num)%nat then removelast y ++ [stop] else y.

(** ** utils.py *)

(** The comprehension [[x[n] - x[n - 1] for n in range(1, len(x))]]. *)
Definition backward_differences (x : list F) : list F :=
  map (fun n => fsub (nth n x fzero) (nth (n - 1) x fzero))
      (seq 1 (length x - 1)).

(** [diff(sequence, ghost)].  With [ghost] the array [x] has one more cell
    than [sequence]: [x[1:]] is the sequence and [x[0]] is [sequence[0]],
    whose evaluation raises [IndexError] on an empty sequence. *)
Definition diff (sequence : list F) (ghost : bool) : result (list F) :=
  if negb ghost then
    Ok (backward_differences sequence)
  else
    match sequence with
    | [] => Raise IndexError
    | s0 :: _ => Ok (backward_differences (s0 :: sequence))
    end.

(** [zero_norm(arr)]:
    [arr = 2 * (arr - min(arr)) / (max(arr) - min(arr)) - 1], then
    [arr - np.sum(arr) / len(arr)].  Nothing is tested before the division:
    only the builtins [min] and [max] can raise. *)
Definition zero_norm (arr : list F) : result (list F) :=
  mn <- py_min arr ;;
  mx <- py_max arr ;;
  let arr1 :=
    map (fun v => fsub (fdiv (fmul ftwo (fsub v mn)) (fsub mx mn)) fone) arr in
  let m := fdiv (np_sum arr1) (flen arr1) in
  Ok (map (fun v => fsub v m) arr1).

(** What [normalize] returns: the array alone, or the triple when [stats]
    is true. *)
Inductive normalized : Type :=
| Normed (normed : list F)
| NormedStats (normed : list F) (mean std : F).

Definition normalize (arr : list F) (stats : bool) : normalized :=
  let mean := np_mean arr in
  let std := np_std arr in
  let normed := map (fun v => fdiv (fsub v mean) std) arr in
  if negb stats then Normed normed
  else NormedStats normed mean std.

Definition renormalize (arr : list F) (mean std : F) : list F :=
  map (fun v => fdiv (fsub v mean) std) arr.

End Arrays.

(** *** In-place row normalisation

    [row_normalize] and [row_unnormalize] write into the array object [X]
    they are given and return that same object.  The content of [X] is
    threaded through: each function maps the content before the call to its
    result and the content after the call. *)

Section Rows.

Context {F : Type} {ops : FloatOps F}.

Definition matrix : Type := list (list F).

(** [for row in range(X.shape[0])]: the rows are visited in order and each
    iteration reads and writes row [row] only.  The mean and the standard
    deviation are both taken before the row is changed. *)
Fixpoint row_normalize_rows (X : matrix) : matrix * list F * list F :=
  match X with
  | [] => ([], [], [])
  | row :: rest =>
      let mean := np_mean row in
      let std := np_std row in
      let row1 := map (fun v => fsub v mean) row in      (* X[row] -= means[row] *)
      let row2 := map (fun v => fdiv v std) row1 in      (* X[row] /= stds[row] *)
      let '(rest', means, stds) := row_normalize_rows rest in
      (row2 :: rest', mean :: means, std :: stds)
  end.

(** Returns [(means, stds)] together with the new content of [X]; the first
    component of the Python triple is [X] itself. *)
Definition row_normalize (X : matrix) : (list F * list F) * matrix :=
  let '(X', means, stds) := row_normalize_rows X in ((means, stds), X').

(** [stds[row]] and [means[row]] raise [IndexError] past the end of the
    vector; the rows written before that stay written. *)
Fixpoint row_unnormalize (X : matrix) (means stds : list F)
  : result unit * matrix :=
  match X with
  | [] => (Ok tt, [])
  | row :: rest =>
      match stds with
      | [] => (Raise IndexError, X)
      | s :: stds' =>
          let row1 := map (fun v => fmul v s) row in     (* X[row] *= stds[row] *)
          match means with
          | [] => (Raise IndexError, row1 :: rest)
          | m :: means' =>
              let row2 := map (fun v => fadd v m) row1 in (* X[row] += means[row] *)
              let '(r, rest') := row_unnormalize rest means' stds' in
              (r, row2 :: rest')
          end
      end
  end.

(** What the two loops do to one row: [row -= mean; row /= std], and
    [row *= s; row += m]. *)
Definition normalized_row (row : list F) : list F :=
  map (fun v => fdiv v (np_std row)) (map (fun v => fsub v (np_mean row)) row).

Definition unnormalized_row (row : list F) (m s : F) : list F :=
  map (fun v => fadd v m) (map (fun v => fmul v s) row).


End Rows.

(** *** top_k *)

Section TopK.

Context {F : Type} {ops : FloatOps F}.

(** Stable insertion sort: [x] is put in front of the first element it may
    precede. *)
Fixpoint insert_sorted {A : Type} (precedes : A -> A -> bool) (x : A) (l : list A)
  : list A :=
  match l with
  | [] => [x]
  | y :: l' =>
      if precedes x y then x :: l else y :: insert_sorted precedes x l'
  end.

Definition stable_sort {A : Type} (precedes : A -> A -> bool) (l : list A)
  : list A :=
  fold_right (insert_sorted precedes) [] l.

(** [np.argpartition(a, kth)].  numpy checks [kth] only when the array has
    elements: on a non-empty array it raises [ValueError] unless
    [-len(a) <= kth < len(a)], and on an empty array every [kth] is
    accepted and the result is the empty index array.  Otherwise the
    result is a permutation of the indices that puts the [kth] smallest
    element in its sorted place, smaller ones before it and the others
    after.  numpy leaves the order inside the two sides open; the indices
    are here in increasing order of their values, which is one such
    permutation for every [kth]. *)
Definition np_argpartition (a : list F) (kth : Z) : result (list nat) :=
  let n := Z.of_nat (length a) in
  if (negb (n =? 0) && ((kth <? - n) || (n <=? kth)))%Z then Raise ValueError
  else
    Ok (stable_sort
          (fun i j => negb (fltb (nth j a fzero) (nth i a fzero)))
          (seq 0 (length a))).

(** The slice [l[start:]]: a negative [start] counts from the end, and both
    ends are clipped. *)
Definition slice_from {A : Type} (start : Z) (l : list A) : list A :=
  let n := Z.of_nat (length l) in
  if (start <? 0)%Z then skipn (Z.to_nat (Z.max (n + start) 0)) l
  else skipn (Z.to_nat start) l.

(** [arr[inds]] for an array of indices: [IndexError] on an index out of
    bounds. *)
Fixpoint np_take {A : Type} (arr : list A) (inds : list nat) : result (list A) :=
  match inds with
  | [] => Ok []
  | i :: inds' =>
      match nth_error arr i with
      | None => Raise IndexError
      | Some v => vs <- np_take arr inds' ;; Ok (v :: vs)
      end
  end.

(** [sorted(top, key=lambda t: t[1], reverse=True)]: descending and stable. *)
Definition sorted_by_value_desc {W : Type} (top : list (W * F)) : list (W * F) :=
  stable_sort (fun s t => negb (fltb (snd s) (snd t))) top.

Definition top_k {W : Type} (indices : list F) (words : list W) (k : Z)
  : result (list (W * F)) :=
  p <- np_argpartition indices (- k) ;;
  let inds := slice_from (- k) p in
  topkwords <- np_take words inds ;;
  topkvals <- np_take indices inds ;;
  let top := combine topkwords topkvals in
  Ok (sorted_by_value_desc top).

End TopK.

(** *** window_argmaxes *)

Section Windows.

Context {F : Type} {ops : FloatOps F}.

(** [np.argmax] on a one-dimensional float array, after numpy's loop: the
    first element is the candidate; a later element replaces it unless it
    is [<=] the candidate (so a larger element and a NaN both do); once the
    candidate is NaN the scan stops.  The candidate is not NaN while the scan
    goes on, so "not [ip <= mp]" is "[mp < ip] or [ip] is NaN". *)
Fixpoint argmax_scan (rest : list F) (i : nat) (mp : F) (max_ind : nat) : nat :=
  match rest with
  | [] => max_ind
  | ip :: rest' =>
      if fisnan mp then max_ind
      else if fltb mp ip || fisnan ip then argmax_scan rest' (S i) ip i
      else argmax_scan rest' (S i) mp max_ind
  end.

(** An empty array raises [ValueError]. *)
Definition np_argmax (a : list F) : result nat :=
  match a with
  | [] => Raise ValueError
  | x :: rest => Ok (argmax_scan rest 1 x 0)
  end.

(** [arr[i]] for a Python int: a negative index counts from the end, and an
    index outside [-len(arr) <= i < len(arr)] raises [IndexError]. *)
Definition np_index {A : Type} (arr : list A) (i : Z) : result A :=
  let n := Z.of_nat (length arr) in
  if ((i <? - n) || (n <=? i))%Z then Raise IndexError
  else
    match nth_error arr (Z.to_nat (if (i <? 0)%Z then i + n else i)) with
    | Some v => Ok v
    | None => Raise IndexError
    end.

(** [data[window]] for a list of indices. *)
Fixpoint np_take_signed {A : Type} (arr : list A) (inds : list Z)
  : result (list A) :=
  match inds with
  | [] => Ok []
  | i :: inds' =>
      v <- np_index arr i ;;
      vs <- np_take_signed arr inds' ;;
      Ok (v :: vs)
  end.

(** An index is usable on an array of length [n]. *)
Definition in_bounds (n : nat) (i : Z) : Prop :=
  (- Z.of_nat n <= i < Z.of_nat n)%Z.

(** A window the loop gets through: not empty, every index usable. *)
Definition usable_window (n : nat) (window : list Z) : Prop :=
  window <> [] /\ Forall (in_bounds n) window.

(** One turn of the loop appends [window[np.argmax(data[window])]]; the list
    [argmaxes] is local, so an exception leaves nothing behind. *)
Fixpoint window_argmaxes (windows : list (list Z)) (data : list F)
  : result (list Z) :=
  match windows with
  | [] => Ok []
  | window :: windows' =>
      data_segment <- np_take_signed data window ;;
      j <- np_argmax data_segment ;;
      w <- match nth_error window j with
           | Some w => Ok w
           | None => Raise IndexError
           end ;;
      argmaxes <- window_argmaxes windows' data ;;
      Ok (w :: argmaxes)
  end.

End Windows.

(** *** make_moving_tensor and make_seq_prediction_data

    For a rank one tensor; the entries are only moved, so their type is
    free.  [lag], [X_lag] and [y_lag] are natural numbers ([int(lag)] of a
    non-negative value). *)

Section Tensors.

Context {A : Type}.

(** The slice [tensor[n : n + lag]], clipped at the end of the tensor. *)
Definition tensor_slice (tensor : list A) (n lag : nat) : list A :=
  firstn lag (skipn n tensor).

(** [[tensor[n : n + lag] for n in range(tensor.shape[0] - lag)]]; the range
    is empty when [lag >= tensor.shape[0]]. *)
Definition make_moving_tensor (tensor : list A) (lag : nat) : list (list A) :=
  map (fun n => tensor_slice tensor n lag) (seq 0 (length tensor - lag)).

(** [sequence[:-y_lag]]: all but the last [y_lag] entries, and for
    [y_lag = 0] the slice [sequence[:0]], which is empty. *)
Definition all_but_last (sequence : list A) (y_lag : nat) : list A :=
  match y_lag with
  | O => []
  | S _ => firstn (length sequence - y_lag) sequence
  end.

Definition make_seq_prediction_data (sequence : list A) (X_lag y_lag : nat)
  : list (list A) * list (list A) :=
  let X := make_moving_tensor (all_but_last sequence y_lag) X_lag in
  let y := make_moving_tensor (skipn X_lag sequence) y_lag in
  (X, y).

End Tensors.

(** ** kernel_functions.py

    [L] is the window size, a natural number ([np.ones] and [np.linspace]
    reject a negative size).  [startpt] and [endpt] default to [1] and [4]
    in the source; they are explicit here. *)

Section Kernels.

Context {F : Type} {ops : FloatOps F} {libm : Libm F}.

Definition np_ones (L : nat) : list F := repeat fone L.

(** The closing lines of every kernel: [if zn: return zero_norm(res)],
    [return res]. *)
Definition finish (zn : bool) (res : list F) : result (list F) :=
  if zn then zero_norm res else Ok res.

(** [res] of [haar] after [res[len(res) // 2:] = 1]. *)
Definition haar_res (L : nat) : list F :=
  let res := map (fun v => fmul (of_Z (-1)) v) (np_ones L) in
  assign_from (length res / 2) fone res.

Definition haar (L : nat) (zn : bool) : result (list F) :=
  finish zn (haar_res L).

Definition power_law_zero_cusp (L : nat) (b : F) (zn : bool) (startpt endpt : F)
  : result (list F) :=
  let x := np_linspace startpt endpt L in
  let res := map (fun v => fpow v (fopp b)) x in
  let res := assign_upto (length res / 2) fzero res in
  finish zn res.

Definition power_zero_cusp (L : nat) (b : F) (zn : bool) (startpt endpt : F)
  : result (list F) :=
  let x := np_linspace startpt endpt L in
  let res := map (fun v => fpow v b) x in
  let res := assign_from (length res / 2) fzero res in
  finish zn res.

Definition exp_zero_cusp (L : nat) (a : F) (zn : bool) (startpt endpt : F)
  : result (list F) :=
  let x := np_linspace startpt endpt L in
  let res := map (fun v => fexp (fmul a v)) x in
  let res := assign_from (length res / 2) fzero res in
  finish zn res.

(** [res] of [power_law_cusp] before [if zn]: the half cusp is computed
    twice, with the caller's [zn], and the second copy is reversed
    ([[::-1]]). *)
Definition power_law_cusp_res (L : nat) (b : F) (zn : bool) (startpt endpt : F)
  : result (list F) :=
  h1 <- power_law_zero_cusp L b zn startpt endpt ;;
  h2 <- power_law_zero_cusp L b zn startpt endpt ;;
  Ok (np_add h1 (rev h2)).

Definition power_law_cusp (L : nat) (b : F) (zn : bool) (startpt endpt : F)
  : result (list F) :=
  res <- power_law_cusp_res L b zn startpt endpt ;;
  finish zn res.

Definition power_cusp (L : nat) (b : F) (zn : bool) (startpt endpt : F)
  : result (list F) :=
  h1 <- power_zero_cusp L b zn startpt endpt ;;
  h2 <- power_zero_cusp L b zn startpt endpt ;;
  finish zn (np_add h1 (rev h2)).

Definition pitchfork (L : nat) (b : F) (zn : bool) (startpt endpt : F)
  : result (list F) :=
  t1 <- power_zero_cusp L (fmul ftwo b) zn startpt endpt ;;
  c <- power_cusp L b zn startpt endpt ;;
  t2 <- power_zero_cusp L (fmul ftwo b) zn startpt endpt ;;
  finish zn (np_add (np_add (rev t1) c) t2).

Definition exp_cusp (L : nat) (a : F) (zn : bool) (startpt endpt : F)
  : result (list F) :=
  h1 <- exp_zero_cusp L a zn startpt endpt ;;
  h2 <- exp_zero_cusp L a zn startpt endpt ;;
  finish zn (np_add h1 (rev h2)).

(** The kernel functions of the module, to quantify over them.  [haar]
    takes no shape parameter and no sampling interval. *)
Inductive family : Type :=
| Haar
| PowerLawZeroCusp
| PowerLawCusp
| PowerCusp
| Pitchfork
| PowerZeroCusp
| ExpCusp
| ExpZeroCusp.

Definition kernel (f : family) (L : nat) (p : F) (zn : bool) (startpt endpt : F)
  : result (list F) :=
  match f with
  | Haar => haar L zn
  | PowerLawZeroCusp => power_law_zero_cusp L p zn startpt endpt
  | PowerLawCusp => power_law_cusp L p zn startpt endpt
  | PowerCusp => power_cusp L p zn startpt endpt
  | Pitchfork => pitchfork L p zn startpt endpt
  | PowerZeroCusp => power_zero_cusp L p zn startpt endpt
  | ExpCusp => exp_cusp L p zn startpt endpt
  | ExpZeroCusp => exp_zero_cusp L p zn startpt endpt
  end.

End Kernels.

(** ** weighting_functions.py *)

(** The module-level list [registered_weighting_functions] is the state of
    the module; a function of the module maps the list before the call to
    its result and the list after it. *)
Definition State (S A : Type) : Type := S -> A * S.

Definition register_weighting_function {Fn : Type} (weighting_function : Fn)
  : State (list Fn) Fn :=
  fun registered_weighting_functions =>
    (weighting_function, registered_weighting_functions ++ [weighting_function]).

Section Weighting.

Context {F : Type} {ops : FloatOps F} {libm : Libm F}.

Definition max_change (arr : list F) : result F :=
  mx <- np_max arr ;;
  mn <- np_min arr ;;
  Ok (fsub mx mn).

(** [arr - np.min(arr) + 1] *)
Definition shifted (arr : list F) : result (list F) :=
  mn <- np_min arr ;;
  Ok (map (fun v => fadd (fsub v mn) fone) arr).

Definition max_rel_change (arr : list F) (neg : bool) : result F :=
  arr <- (if neg then shifted arr else Ok arr) ;;
  let logret := np_diff (map flog10 arr) in
  mx <- np_max logret ;;
  mn <- np_min logret ;;
  Ok (fsub mx mn).

(** A weighting function as the registry holds it, called on an array
    alone. *)
Definition weighting_function : Type := list F -> result F.

(** The registry once the module is loaded: the two decorated definitions
    have run, in this order, on the empty list. *)
Definition registered_weighting_functions : list weighting_function :=
  let '(_, reg) := register_weighting_function max_change [] in
  let '(_, reg) :=
    register_weighting_function (fun arr => max_rel_change arr true) reg in
  reg.

End Weighting.

(** ** Laws an arithmetic may satisfy *)

(** The one law of subtraction [diff] relies on: a finite value minus
    itself is zero.  (An infinity minus itself is NaN.) *)
Class SubDiag (F : Type) {ops : FloatOps F} : Prop :=
  sub_diag : forall x : F, ffinite x = true -> fsub x x = fzero.

(** Addition of two elements does not depend on their order. *)
Class AddComm (F : Type) {ops : FloatOps F} : Prop :=
  add_comm : forall x y : F, fadd x y = fadd y x.

(** ** The instance [binary64]: IEEE-754 double precision *)

Module Binary64.

(** A Python int as a [float64]; exact up to [2^53] in absolute value and
    rounded to nearest up to [2^63], which covers every constant and length
    in the source. *)
Definition float_of_Z (z : Z) : float :=
  match z with
  | Z0 => PrimFloat.zero
  | Zpos _ => PrimFloat.of_uint63 (Uint63.of_Z z)
  | Zneg p => PrimFloat.opp (PrimFloat.of_uint63 (Uint63.of_Z (Zpos p)))
  end.

#[export] Instance binary64 : FloatOps float := {|
  of_Z := float_of_Z;
  fopp := PrimFloat.opp;
  fadd := PrimFloat.add;
  fsub := PrimFloat.sub;
  fmul := PrimFloat.mul;
  fdiv := PrimFloat.div;
  fsqrt := PrimFloat.sqrt;
  feqb := PrimFloat.eqb;
  fltb := PrimFloat.ltb;
  ffinite := PrimFloat.is_finite
|}.



(** The integer [z] brought into the range where the doubles still count
    by ones: [2^53] in magnitude is where a running sum of ones stays. *)
Definition clamp (z : Z) : Z := Z.max (- 2 ^ 53) (Z.min z (2 ^ 53))%Z.

(** A double of magnitude at most one: a zero, a finite value below one,
    or one itself. *)
Definition at_most_one (x : spec_float) : Prop :=
  match x with
  | S754_zero _ => True
  | S754_finite _ m e => (e <= -53 \/ (e = -52 /\ Zpos m = 2 ^ 52))%Z
  | _ => False
  end.

(** Doubles below and above zero, the infinities included. *)
Definition sf_negative (x : spec_float) : Prop :=
  match x with
  | S754_finite true _ _ | S754_infinity true => True
  | _ => False
  end.

Definition sf_positive (x : spec_float) : Prop :=
  match x with
  | S754_finite false _ _ | S754_infinity false => True
  | _ => False
  end.

End Binary64.

(** ** The instance [xreal]: exact reals with the IEEE special values *)

Module XReal.

Local Open Scope R_scope.

Inductive xreal : Type :=
| Fin (r : R)
| PInf
| NInf
| NaN.

Definition xopp (a : xreal) : xreal :=
  match a with
  | Fin x => Fin (- x)
  | PInf => NInf
  | NInf => PInf
  | NaN => NaN
  end.

Definition xadd (a b : xreal) : xreal :=
  match a, b with
  | NaN, _ | _, NaN => NaN
  | Fin x, Fin y => Fin (x + y)
  | PInf, NInf | NInf, PInf => NaN
  | PInf, _ | _, PInf => PInf
  | NInf, _ | _, NInf => NInf
  end.

Definition xsub (a b : xreal) : xreal := xadd a (xopp b).

(** The sign of a finite factor decides the product with an infinity;
    [0 * inf] is NaN. *)
Definition xscale_inf (pos : bool) (y : R) : xreal :=
  if Req_EM_T y 0 then NaN
  else if Rlt_dec 0 y then (if pos then PInf else NInf)
  else (if pos then NInf else PInf).

Definition xmul (a b : xreal) : xreal :=
  match a, b with
  | NaN, _ | _, NaN => NaN
  | Fin x, Fin y => Fin (x * y)
  | PInf, Fin y | Fin y, PInf => xscale_inf true y
  | NInf, Fin y | Fin y, NInf => xscale_inf false y
  | PInf, PInf | NInf, NInf => PInf
  | PInf, NInf | NInf, PInf => NInf
  end.

(** Division: [0/0] and [inf/inf] are NaN, a non-zero value over zero is an
    infinity of its sign (every zero divisor of the source is a [+0.0]: a
    difference [x - x], a square root or a length), a finite value over an
    infinity is zero. *)
Definition xdiv (a b : xreal) : xreal :=
  match a, b with
  | NaN, _ | _, NaN => NaN
  | Fin x, Fin y =>
      if Req_EM_T y 0 then
        (if Req_EM_T x 0 then NaN else if Rlt_dec 0 x then PInf else NInf)
      else Fin (x / y)
  | Fin _, (PInf | NInf) => Fin 0
  | PInf, Fin y => if Rlt_dec y 0 then NInf else PInf
  | NInf, Fin y => if Rlt_dec y 0 then PInf else NInf
  | (PInf | NInf), (PInf | NInf) => NaN
  end.

Definition xsqrt (a : xreal) : xreal :=
  match a with
  | Fin x => if Rlt_dec x 0 then NaN else Fin (R_sqrt.sqrt x)
  | PInf => PInf
  | NInf | NaN => NaN
  end.

Definition xeqb (a b : xreal) : bool :=
  match a, b with
  | Fin x, Fin y => if Req_EM_T x y then true else false
  | PInf, PInf | NInf, NInf => true
  | _, _ => false
  end.

Definition xltb (a b : xreal) : bool :=
  match a, b with
  | NaN, _ | _, NaN => false
  | Fin x, Fin y => if Rlt_dec x y then true else false
  | NInf, (Fin _ | PInf) => true
  | Fin _, PInf => true
  | _, _ => false
  end.

Definition xfinite (a : xreal) : bool :=
  match a with
  | Fin _ => true
  | _ => false
  end.

#[export] Instance xreal_ops : FloatOps xreal := {|
  of_Z := fun z => Fin (IZR z);
  fopp := xopp;
  fadd := xadd;
  fsub := xsub;
  fmul := xmul;
  fdiv := xdiv;
  fsqrt := xsqrt;
  feqb := xeqb;
  fltb := xltb;
  ffinite := xfinite
|}.

(** [x ** y].  For a positive base it is the real power; a zero or negative
    base and the special values follow the C library's [pow]. *)
Definition is_integer (y : R) : bool :=
  if Req_EM_T (IZR (up y - 1)) y then true else false.

Definition is_odd_integer (y : R) : bool :=
  is_integer y && Z.odd (up y - 1).

Definition xpow (a b : xreal) : xreal :=
  match a, b with
  | _, Fin y =>
      if Req_EM_T y 0 then Fin 1
      else
        match a with
        | NaN => NaN
        | Fin x =>
            if Rlt_dec 0 x then Fin (Rpower x y)
            else if Req_EM_T x 0 then
              (if Rlt_dec 0 y then Fin 0 else PInf)
            else if is_integer y then
              (if is_odd_integer y then Fin (- Rpower (- x) y)
               else Fin (Rpower (- x) y))
            else NaN
        | PInf => if Rlt_dec 0 y then PInf else Fin 0
        | NInf =>
            if Rlt_dec 0 y then (if is_odd_integer y then NInf else PInf)
            else Fin 0
        end
  | Fin x, PInf =>
      if Req_EM_T (Rabs x) 1 then Fin 1
      else if Rlt_dec (Rabs x) 1 then Fin 0 else PInf
  | Fin x, NInf =>
      if Req_EM_T (Rabs x) 1 then Fin 1
      else if Rlt_dec (Rabs x) 1 then PInf else Fin 0
  | (PInf | NInf), PInf => PInf
  | (PInf | NInf), NInf => Fin 0
  | NaN, _ => NaN
  | Fin x, NaN => if Req_EM_T x 1 then Fin 1 else NaN
  | _, NaN => NaN
  end.

Definition xexp (a : xreal) : xreal :=
  match a with
  | Fin x => Fin (Rtrigo_def.exp x)
  | PInf => PInf
  | NInf => Fin 0
  | NaN => NaN
  end.

(** [np.log10]: [-inf] at zero and NaN below it. *)
Definition xlog10 (a : xreal) : xreal :=
  match a with
  | Fin x =>
      if Rlt_dec 0 x then Fin (ln x / ln 10)
      else if Req_EM_T x 0 then NInf else NaN
  | PInf => PInf
  | NInf | NaN => NaN
  end.

#[export] Instance xreal_libm : Libm xreal := {|
  fpow := xpow;
  fexp := xexp;
  flog10 := xlog10
|}.

(** *** Real-valued counterparts

    The functions on plain reals in which the laws of the [xreal] runs are
    stated. *)

Definition finite (v : xreal) : Prop := xfinite v = true.

Definition Rsum (l : list R) : R := fold_right Rplus 0 l.

Definition list_min (l : list R) : R :=
  match l with
  | [] => 0
  | x :: rest => fold_left Rmin rest x
  end.

Definition list_max (l : list R) : R :=
  match l with
  | [] => 0
  | x :: rest => fold_left Rmax rest x
  end.

Definition rescale (mn mx r : R) : R := 2 * (r - mn) / (mx - mn) - 1.

(** What [zero_norm] computes on a finite array that is not constant. *)
Definition zero_norm_R (ra : list R) : list R :=
  let ss := map (rescale (list_min ra) (list_max ra)) ra in
  let m := Rsum ss / INR (length ss) in
  map (fun s => s - m) ss.

(** A row is constant when all its entries are equal; the empty row is. *)
Definition constant (row : list R) : Prop :=
  forall x y, In x row -> In y row -> x = y.

Definition Rmean (row : list R) : R := Rsum row / INR (length row).

Definition Rvar (row : list R) : R :=
  Rsum (map (fun v => (v - Rmean row) * (v - Rmean row)) row)
  / INR (length row).

(** The successive differences [l[i+1] - l[i]]. *)
Fixpoint Rdiff (l : list R) : list R :=
  match l with
  | x :: (y :: _) as rest => (y - x) :: Rdiff rest
  | _ => []
  end.

(** The z-scores of a row that is not constant. *)
Definition zscores (row : list R) : list R :=
  map (fun v => (v - Rmean row) / R_sqrt.sqrt (Rvar row)) row.

(** The value of a pair whose second component is finite. *)
Definition value_of {W : Type} (p : W * xreal) : R :=
  match snd p with
  | Fin r => r
  | _ => 0
  end.

End XReal.

(** * Properties that hold in every arithmetic

    They are about the shape of the computations and use no law of the
    element type, so they hold of the [binary64] runs as well. *)

Section Shapes.

Context {F : Type} {ops : FloatOps F}.

Lemma np_add_length (a b : list F) :
  length (np_add a b) = Nat.min (length a) (length b).
Proof.
  revert b; induction a as [|x a IH]; intros [|y b]; simpl; auto.
Qed.

Lemma np_add_nth (a b : list F) (i : nat) (d : F) :
  length a = length b -> i < length a ->
  nth i (np_add a b) d = fadd (nth i a d) (nth i b d).
Proof.
  revert b i; induction a as [|x a IH]; intros [|y b] i Hlen Hi;
    simpl in *; try lia.
  destruct i as [|i]; [reflexivity|].
  apply IH; lia.
Qed.

Lemma assign_upto_length (k : nat) (v : F) (res : list F) :
  length (assign_upto k v res) = length res.
Proof.
  unfold assign_upto.
  rewrite length_app, length_map, length_firstn, length_skipn. lia.
Qed.

Lemma assign_from_length (k : nat) (v : F) (res : list F) :
  length (assign_from k v res) = length res.
Proof.
  unfold assign_from.
  rewrite length_app, length_map, length_firstn, length_skipn. lia.
Qed.

Lemma removelast_length {A : Type} (l : list A) :
  length (removelast l) = length l - 1.
Proof.
  rewrite removelast_firstn_len, length_firstn. lia.
Qed.

Lemma np_linspace_length (start stop : F) (num : nat) :
  length (np_linspace start stop num) = num.
Proof.
  unfold np_linspace.
  set (y0 := map (fun n => of_Z (Z.of_nat n)) (seq 0 num)).
  assert (H0 : length y0 = num) by (unfold y0; now rewrite length_map, length_seq).
  match goal with
  | |- context [map (fun v => fadd v start) ?y] =>
      assert (H1 : length y = num)
  end.
  { destruct (0 <? num - 1)%nat;
      [destruct (feqb _ _)|]; now rewrite length_map. }
  destruct (Nat.ltb_spec 1 num) as [Hn|Hn].
  - rewrite length_app, removelast_length, length_map, H1. simpl. lia.
  - now rewrite length_map.
Qed.

Lemma py_min_ok (x : F) (rest : list F) :
  exists m, py_min (x :: rest) = Ok m.
Proof. simpl. eauto. Qed.

Lemma py_max_ok (x : F) (rest : list F) :
  exists m, py_max (x :: rest) = Ok m.
Proof. simpl. eauto. Qed.

(** [zero_norm] returns on every non-empty array, whatever its content,
    and keeps the length. *)
Lemma zero_norm_length (arr : list F) :
  0 < length arr ->
  exists k, zero_norm arr = Ok k /\ length k = length arr.
Proof.
  destruct arr as [|x rest]; simpl; [lia|]. intros _.
  unfold zero_norm. simpl.
  eexists. split; [reflexivity|].
  simpl. now rewrite !length_map.
Qed.

(** The result is the image of the array under one function of the
    entries: equal entries stay equal. *)
Lemma zero_norm_is_map (arr k : list F) :
  zero_norm arr = Ok k -> exists g : F -> F, k = map g arr.
Proof.
  destruct arr as [|x rest]; [discriminate|].
  unfold zero_norm.
  destruct (py_min_ok x rest) as (mn & ->).
  destruct (py_max_ok x rest) as (mx & ->).
  generalize (x :: rest). intros arr.
  cbn [bind]. cbv zeta.
  intros H. injection H as <-.
  eexists. rewrite map_map. reflexivity.
Qed.

Lemma zero_norm_empty : zero_norm (@nil F) = Raise ValueError.
Proof. reflexivity. Qed.

End Shapes.

Section KernelShapes.

Context {F : Type} {ops : FloatOps F} {libm : Libm F}.

Lemma finish_length (zn : bool) (res : list F) :
  0 < length res ->
  exists k, finish zn res = Ok k /\ length k = length res.
Proof.
  intros H. destruct zn; simpl.
  - now apply zero_norm_length.
  - eauto.
Qed.

Lemma haar_res_length (L : nat) : length (@haar_res F ops L) = L.
Proof.
  unfold haar_res, np_ones.
  now rewrite assign_from_length, length_map, repeat_length.
Qed.

Lemma haar_length (L : nat) (zn : bool) :
  0 < L -> exists k, haar L zn = Ok k /\ length k = L.
Proof.
  intros H. unfold haar.
  destruct (finish_length zn (haar_res L)) as (k & Hk & Hl).
  - now rewrite haar_res_length.
  - exists k. rewrite Hl, haar_res_length in *. auto.
Qed.

(** The three half cusps differ in the sampled function and in the half
    that is zeroed only. *)
Ltac half_cusp_length :=
  intros H; cbv zeta;
  match goal with
  | |- exists k, finish ?zn ?res = Ok k /\ _ =>
      let Hl := fresh "Hl" in
      assert (Hl : length res = _)
        by (first [rewrite assign_upto_length | rewrite assign_from_length];
            rewrite length_map; apply np_linspace_length);
      let k := fresh "k" in let Hk := fresh "Hk" in let Hkl := fresh "Hkl" in
      destruct (finish_length zn res) as (k & Hk & Hkl);
      [ rewrite Hl; exact H | exists k; split; [exact Hk | congruence] ]
  end.

Lemma power_law_zero_cusp_length (L : nat) (b : F) (zn : bool) (s e : F) :
  0 < L -> exists k, power_law_zero_cusp L b zn s e = Ok k /\ length k = L.
Proof. unfold power_law_zero_cusp. half_cusp_length. Qed.

Lemma power_zero_cusp_length (L : nat) (b : F) (zn : bool) (s e : F) :
  0 < L -> exists k, power_zero_cusp L b zn s e = Ok k /\ length k = L.
Proof. unfold power_zero_cusp. half_cusp_length. Qed.

Lemma exp_zero_cusp_length (L : nat) (a : F) (zn : bool) (s e : F) :
  0 < L -> exists k, exp_zero_cusp L a zn s e = Ok k /\ length k = L.
Proof. unfold exp_zero_cusp. half_cusp_length. Qed.

Lemma add_rev_length (h1 h2 : list F) (L : nat) :
  length h1 = L -> length h2 = L -> length (np_add h1 (rev h2)) = L.
Proof.
  intros H1 H2. rewrite np_add_length, length_rev. lia.
Qed.

Lemma power_law_cusp_res_length (L : nat) (b : F) (zn : bool) (s e : F) :
  0 < L ->
  exists h res,
    power_law_zero_cusp L b zn s e = Ok h /\ length h = L /\
    power_law_cusp_res L b zn s e = Ok res /\ res = np_add h (rev h) /\
    length res = L.
Proof.
  intros H.
  destruct (power_law_zero_cusp_length L b zn s e H) as (h & Hh & Hl).
  exists h, (np_add h (rev h)).
  unfold power_law_cusp_res. rewrite Hh. simpl.
  repeat split; auto using add_rev_length.
Qed.

Lemma power_law_cusp_length (L : nat) (b : F) (zn : bool) (s e : F) :
  0 < L -> exists k, power_law_cusp L b zn s e = Ok k /\ length k = L.
Proof.
  intros H.
  destruct (power_law_cusp_res_length L b zn s e H)
    as (h & res & _ & _ & Hres & _ & Hl).
  unfold power_law_cusp. rewrite Hres. simpl.
  destruct (finish_length zn res) as (k & Hk & Hkl); [lia|].
  exists k. split; [exact Hk | congruence].
Qed.

Lemma power_cusp_length (L : nat) (b : F) (zn : bool) (s e : F) :
  0 < L -> exists k, power_cusp L b zn s e = Ok k /\ length k = L.
Proof.
  intros H.
  destruct (power_zero_cusp_length L b zn s e H) as (h & Hh & Hl).
  unfold power_cusp. rewrite Hh. simpl.
  pose proof (add_rev_length h h L Hl Hl) as Hr.
  destruct (finish_length zn (np_add h (rev h))) as (k & Hk & Hkl); [lia|].
  exists k. split; [exact Hk | congruence].
Qed.

Lemma exp_cusp_length (L : nat) (a : F) (zn : bool) (s e : F) :
  0 < L -> exists k, exp_cusp L a zn s e = Ok k /\ length k = L.
Proof.
  intros H.
  destruct (exp_zero_cusp_length L a zn s e H) as (h & Hh & Hl).
  unfold exp_cusp. rewrite Hh. simpl.
  pose proof (add_rev_length h h L Hl Hl) as Hr.
  destruct (finish_length zn (np_add h (rev h))) as (k & Hk & Hkl); [lia|].
  exists k. split; [exact Hk | congruence].
Qed.

Lemma pitchfork_length (L : nat) (b : F) (zn : bool) (s e : F) :
  0 < L -> exists k, pitchfork L b zn s e = Ok k /\ length k = L.
Proof.
  intros H.
  destruct (power_zero_cusp_length L (fmul ftwo b) zn s e H) as (t & Ht & Hl).
  destruct (power_cusp_length L b zn s e H) as (c & Hc & Hcl).
  unfold pitchfork. rewrite Ht, Hc. simpl.
  assert (Hr : length (np_add (np_add (rev t) c) t) = L)
    by (rewrite !np_add_length, length_rev; lia).
  destruct (finish_length zn (np_add (np_add (rev t) c) t)) as (k & Hk & Hkl);
    [lia|].
  exists k. split; [exact Hk | congruence].
Qed.

(** Every kernel function returns an array of [L] values for [L >= 1]. *)
Lemma kernel_length (f : family) (L : nat) (p : F) (zn : bool) (s e : F) :
  0 < L -> exists k, kernel f L p zn s e = Ok k /\ length k = L.
Proof.
  intros H. destruct f; simpl;
    auto using haar_length, power_law_zero_cusp_length, power_law_cusp_length,
      power_cusp_length, pitchfork_length, power_zero_cusp_length,
      exp_cusp_length, exp_zero_cusp_length.
Qed.

(** With [zn] the value returned is the result of a last [zero_norm]. *)
Lemma kernel_zn_is_zero_norm (f : family) (L : nat) (p s e : F) (k : list F) :
  kernel f L p true s e = Ok k -> exists res, zero_norm res = Ok k.
Proof.
  unfold kernel; destruct f;
    unfold haar, power_law_cusp, power_law_cusp_res, power_cusp, pitchfork,
      exp_cusp;
    unfold power_law_zero_cusp, power_zero_cusp, exp_zero_cusp;
    cbv zeta; intros H;
    repeat match type of H with
    | bind ?r _ = Ok _ => destruct r; cbn [bind] in H; [|discriminate]
    end;
    unfold finish in H; eauto.
Qed.

End KernelShapes.

(** * The registry of weighting functions *)

(** C9.  [register_weighting_function(fn)] returns [fn] itself and leaves
    the registry with [fn] appended: the list grows by one, every entry
    registered before keeps its position, and the new last entry is [fn]. *)
Theorem register_weighting_function_appends :
  forall (Fn : Type) (fn : Fn) (registry : list Fn),
    let '(returned, registry') := register_weighting_function fn registry in
    returned = fn /\
    registry' = registry ++ [fn] /\
    length registry' = S (length registry) /\
    (forall i, i < length registry ->
       nth_error registry' i = nth_error registry i) /\
    nth_error registry' (length registry) = Some fn.
Proof.
  intros Fn fn registry. unfold register_weighting_function.
  repeat split.
  - rewrite length_app. simpl. lia.
  - intros i Hi. now apply nth_error_app1.
  - rewrite nth_error_app2 by lia. now rewrite Nat.sub_diag.
Qed.

(** After the import the registry holds the two built-in functions in the
    order of their definitions. *)
Lemma registered_weighting_functions_at_load
  (F : Type) (ops : FloatOps F) (libm : Libm F) :
  registered_weighting_functions
  = [max_change; fun arr => max_rel_change arr true].
Proof. reflexivity. Qed.

(** * normalize and renormalize *)

Section Normalize.

Context {F : Type} {ops : FloatOps F}.

(** C3 (amended).  [normalize(arr, stats=True)] returns the triple of the
    z-scored array, [arr.mean()] and [arr.std()], and [normalize(arr)] with
    the default [stats=False] returns the z-scored array alone.
    [renormalize(arr, mean, std)] keeps the length of [arr] and its entry
    [i] is [(arr[i] - mean) / std] for the [mean] and [std] it is given; with
    the statistics [normalize] returned it gives back the same z-scores. *)
Theorem normalize_renormalize_consistent :
  forall arr : list F,
    let mean := np_mean arr in
    let std := np_std arr in
    let z := map (fun v => fdiv (fsub v mean) std) arr in
    normalize arr true = NormedStats z mean std /\
    normalize arr false = Normed z /\
    renormalize arr mean std = z /\
    forall (other : list F) (m s : F),
      length (renormalize other m s) = length other /\
      forall i,
        nth_error (renormalize other m s) i
        = option_map (fun v => fdiv (fsub v m) s) (nth_error other i).
Proof.
  intros arr mean std z. repeat split.
  - unfold renormalize. now rewrite length_map.
  - intros i. unfold renormalize. apply nth_error_map.
Qed.

End Normalize.

(** * The composition of power_law_cusp *)

Section Composition.

Context {F : Type} {ops : FloatOps F} {libm : Libm F}.

(** C5.  For [L >= 2] the half cusp [power_law_zero_cusp(L, b)] is an array
    [h] of length [L], and the array [res] that [power_law_cusp(L, b)]
    builds before its own zero-norm step is [h + h[::-1]]: it has length [L]
    and [res[i] = h[i] + h[L-1-i]].  [power_law_cusp] returns [res] when
    [zn] is false and [zero_norm(res)] otherwise; both calls of the half
    cusp receive the caller's [zn]. *)
Theorem power_law_cusp_composition :
  forall (L : nat) (b : F) (zn : bool) (startpt endpt : F),
    2 <= L ->
    exists h res : list F,
      power_law_zero_cusp L b zn startpt endpt = Ok h /\
      length h = L /\
      power_law_cusp_res L b zn startpt endpt = Ok res /\
      res = np_add h (rev h) /\
      length res = L /\
      (forall i d, i < L ->
         nth i res d = fadd (nth i h d) (nth (L - 1 - i) h d)) /\
      power_law_cusp L b zn startpt endpt
      = (if zn then zero_norm res else Ok res).
Proof.
  intros L b zn s e HL.
  destruct (power_law_cusp_res_length L b zn s e) as (h & res & Hh & Hl & Hres & Heq & Hrl);
    [lia|].
  exists h, res. repeat split; auto.
  - intros i d Hi. subst res.
    rewrite np_add_nth by (rewrite ?length_rev; lia).
    rewrite rev_nth by lia.
    do 2 f_equal. lia.
  - unfold power_law_cusp. rewrite Hres. reflexivity.
Qed.

End Composition.

(** * diff *)

Section Diff.

Context {F : Type} {ops : FloatOps F}.

Lemma nth_map_seq (f : nat -> F) (start len n : nat) (d : F) :
  n < len -> nth n (map f (seq start len)) d = f (start + n).
Proof.
  intros Hn.
  rewrite (nth_indep _ d (f 0)) by (now rewrite length_map, length_seq).
  rewrite map_nth. now rewrite seq_nth.
Qed.

Lemma backward_differences_length (x : list F) :
  length (backward_differences x) = length x - 1.
Proof.
  unfold backward_differences. now rewrite length_map, length_seq.
Qed.

Lemma backward_differences_nth (x : list F) (n : nat) (d : F) :
  n < length x - 1 ->
  nth n (backward_differences x) d = fsub (nth (S n) x fzero) (nth n x fzero).
Proof.
  intros Hn. unfold backward_differences.
  rewrite nth_map_seq by exact Hn.
  simpl. now rewrite Nat.sub_0_r.
Qed.

(** C7 (amended).  For a non-empty sequence, [diff(seq, ghost=True)] has
    length [len(seq)]; its first element is [seq[0] - seq[0]], which is [0]
    when [seq[0]] is finite, and element [n+1] is [seq[n+1] - seq[n]].
    [diff(seq, ghost=False)] has length [len(seq) - 1] and element [n] is
    [seq[n+1] - seq[n]]. *)
Theorem diff_ghost_and_plain :
  forall (law : SubDiag F) (seq : list F),
    seq <> [] ->
    let s0 := hd fzero seq in
    (exists d,
       diff seq true = Ok d /\
       length d = length seq /\
       nth 0 d fzero = fsub s0 s0 /\
       (ffinite s0 = true -> nth 0 d fzero = fzero) /\
       (forall n, n < length seq - 1 ->
          nth (S n) d fzero = fsub (nth (S n) seq fzero) (nth n seq fzero))) /\
    (exists d,
       diff seq false = Ok d /\
       length d = length seq - 1 /\
       (forall n, n < length seq - 1 ->
          nth n d fzero = fsub (nth (S n) seq fzero) (nth n seq fzero))).
Proof.
  intros law [|x rest] Hne; [contradiction|].
  set (seq := x :: rest). simpl hd. split.
  - exists (backward_differences (x :: seq)).
    assert (H0 : nth 0 (backward_differences (x :: seq)) fzero = fsub x x).
    { rewrite backward_differences_nth by (simpl; lia). reflexivity. }
    split; [reflexivity|].
    split; [rewrite backward_differences_length; simpl; lia|].
    split; [exact H0|].
    split.
    + intros Hfin. rewrite H0. now apply sub_diag.
    + intros n Hn.
      rewrite backward_differences_nth by (simpl in *; lia).
      reflexivity.
  - exists (backward_differences seq).
    split; [reflexivity|].
    split; [apply backward_differences_length|].
    intros n Hn. now apply backward_differences_nth.
Qed.

Lemma diff_ghost_empty : diff (@nil F) true = Raise IndexError.
Proof. reflexivity. Qed.

End Diff.

(** * top_k *)

Section TopKProofs.

Context {F : Type} {ops : FloatOps F}.

Lemma insert_sorted_length {A : Type} (p : A -> A -> bool) (x : A) (l : list A) :
  length (insert_sorted p x l) = S (length l).
Proof.
  induction l as [|y l IH]; simpl; [reflexivity|].
  destruct (p x y); simpl; auto.
Qed.

Lemma insert_sorted_Forall {A : Type} (P : A -> Prop) (p : A -> A -> bool)
  (x : A) (l : list A) :
  P x -> Forall P l -> Forall P (insert_sorted p x l).
Proof.
  intros Hx Hl. induction Hl as [|y l Hy Hl IH]; simpl.
  - auto.
  - destruct (p x y); auto.
Qed.

Lemma stable_sort_length {A : Type} (p : A -> A -> bool) (l : list A) :
  length (stable_sort p l) = length l.
Proof.
  induction l as [|x l IH]; simpl; [reflexivity|].
  now rewrite insert_sorted_length, IH.
Qed.

Lemma stable_sort_Forall {A : Type} (P : A -> Prop) (p : A -> A -> bool)
  (l : list A) :
  Forall P l -> Forall P (stable_sort p l).
Proof.
  induction 1 as [|x l Hx Hl IH]; simpl; auto using insert_sorted_Forall.
Qed.

(** On a non-empty array [np.argpartition] raises exactly when [kth] is
    outside [-len(a) <= kth < len(a)]; otherwise, and on an empty array
    whatever [kth] is, it returns [len(a)] valid indices. *)
Lemma np_argpartition_raises (a : list F) (kth : Z) :
  a <> [] ->
  (kth < - Z.of_nat (length a) \/ Z.of_nat (length a) <= kth)%Z ->
  np_argpartition a kth = Raise ValueError.
Proof.
  intros Ha H. unfold np_argpartition.
  destruct (Z.eqb_spec (Z.of_nat (length a)) 0) as [E|_];
    [destruct a; [now elim Ha|discriminate]|].
  destruct (Z.ltb_spec kth (- Z.of_nat (length a)));
    destruct (Z.leb_spec (Z.of_nat (length a)) kth); simpl; auto; lia.
Qed.

Lemma np_argpartition_Ok (a : list F) (kth : Z) (p : list nat) :
  np_argpartition a kth = Ok p ->
  p = stable_sort
        (fun i j => negb (fltb (nth j a fzero) (nth i a fzero)))
        (seq 0 (length a)).
Proof.
  unfold np_argpartition.
  destruct (negb _ && _); [discriminate|]. now intros [= <-].
Qed.

Lemma np_argpartition_empty (kth : Z) : np_argpartition [] kth = Ok [].
Proof. reflexivity. Qed.

Lemma np_argpartition_returns (a : list F) (kth : Z) :
  (- Z.of_nat (length a) <= kth < Z.of_nat (length a))%Z ->
  exists p,
    np_argpartition a kth = Ok p /\ length p = length a /\
    Forall (fun i => i < length a) p.
Proof.
  intros H. unfold np_argpartition.
  destruct (Z.ltb_spec kth (- Z.of_nat (length a)));
    destruct (Z.leb_spec (Z.of_nat (length a)) kth); try lia.
  rewrite andb_false_r.
  eexists. split; [reflexivity|]. split.
  - now rewrite stable_sort_length, length_seq.
  - apply stable_sort_Forall. apply Forall_forall.
    intros i Hi. apply in_seq in Hi. lia.
Qed.

Lemma slice_from_length {A : Type} (start : Z) (l : list A) :
  length (slice_from start l)
  = if (start <? 0)%Z
    then length l - Z.to_nat (Z.max (Z.of_nat (length l) + start) 0)
    else length l - Z.to_nat start.
Proof.
  unfold slice_from. destruct (start <? 0)%Z; now rewrite length_skipn.
Qed.

Lemma skipn_Forall {A : Type} (P : A -> Prop) (n : nat) (l : list A) :
  Forall P l -> Forall P (skipn n l).
Proof.
  intros H. rewrite <- (firstn_skipn n l) in H.
  now apply Forall_app in H.
Qed.

Lemma slice_from_Forall {A : Type} (P : A -> Prop) (start : Z) (l : list A) :
  Forall P l -> Forall P (slice_from start l).
Proof.
  intros H. unfold slice_from.
  destruct (start <? 0)%Z; now apply skipn_Forall.
Qed.

Lemma np_take_returns {A : Type} (arr : list A) (inds : list nat) :
  Forall (fun i => i < length arr) inds ->
  exists vs, np_take arr inds = Ok vs /\ length vs = length inds.
Proof.
  induction 1 as [|i inds Hi Hinds (vs & Hvs & Hl)]; simpl.
  - now exists [].
  - destruct (nth_error arr i) as [v|] eqn:E.
    + rewrite Hvs. simpl. exists (v :: vs). simpl. auto.
    + apply nth_error_None in E. lia.
Qed.

(** C4 (amended).  Let [n = len(indicator_values)], with one label per
    value.  On a non-empty array ([n >= 1]) [top_k] raises, and the
    exception is the [ValueError] of [np.argpartition], exactly when
    [k > n] or [k <= -n].  For [-n < k <= n] it returns a list: of [k]
    pairs when [k > 0], and of [n + k] pairs when [k <= 0] (all [n] of
    them for [k = 0]).  On an empty array it never raises:
    [np.argpartition] does not check [kth] there, and [top_k] returns
    the empty list for every [k]. *)
Theorem top_k_failure_domain :
  forall (W : Type) (indices : list F) (words : list W) (k : Z),
    length words = length indices ->
    let n := Z.of_nat (length indices) in
    ((0 < n)%Z -> (k > n \/ k <= - n)%Z ->
       top_k indices words k = Raise ValueError) /\
    (n = 0%Z -> top_k indices words k = Ok []) /\
    ((- n < k <= n)%Z ->
       exists top,
         top_k indices words k = Ok top /\
         Z.of_nat (length top) = (if (0 <? k)%Z then k else n + k)%Z).
Proof.
  intros W indices words k Hw n. split; [|split].
  - intros Hn Hk. unfold top_k.
    rewrite np_argpartition_raises;
      [reflexivity|destruct indices; [simpl in n; lia|discriminate]
      |fold n; lia].
  - intros Hn. destruct indices; [|simpl in n; lia].
    unfold top_k. rewrite np_argpartition_empty. cbn [bind].
    unfold slice_from. rewrite !skipn_nil, Tauto.if_same.
    reflexivity.
  - intros Hk. unfold top_k.
    destruct (np_argpartition_returns indices (- k)) as (p & Hp & Hpl & Hpi);
      [fold n; lia|].
    rewrite Hp. cbn [bind].
    pose proof (slice_from_Forall _ (- k) p Hpi) as Hs.
    destruct (np_take_returns indices _ Hs) as (vals & Hvals & Hvl).
    rewrite <- Hw in Hs.
    destruct (np_take_returns words _ Hs) as (ws & Hws & Hwl).
    rewrite Hws, Hvals. cbn [bind].
    eexists. split; [reflexivity|].
    unfold sorted_by_value_desc.
    rewrite stable_sort_length, length_combine, Hwl, Hvl, Nat.min_id.
    rewrite slice_from_length, Hpl. fold n.
    destruct (Z.ltb_spec (- k) 0); destruct (Z.ltb_spec 0 k); lia.
Qed.

End TopKProofs.

(** * Runs of the code in double precision *)

Module Runs.

Import Binary64.
Local Open Scope float_scope.

(** A finite double minus itself is [+0.0]. *)
#[export] Instance binary64_sub_diag : SubDiag float.
Proof.
  intros x Hfin. simpl in *.
  apply Prim2SF_inj. rewrite sub_spec.
  unfold is_finite, is_nan, is_infinity in Hfin.
  rewrite !eqb_spec, abs_spec in Hfin.
  change (Prim2SF infinity) with (S754_infinity false) in Hfin.
  change (Prim2SF (@fzero float binary64)) with (S754_zero false).
  destruct (Prim2SF x) as [s | s | | s m e].
  - now destruct s.
  - destruct s; cbv in Hfin; discriminate.
  - cbv in Hfin; discriminate.
  - unfold SF64sub, SFsub. rewrite Z.sub_diag. reflexivity.
Qed.

Example haar_4 : haar 4 true = Ok [-1; -1; 1; 1].
Proof. vm_compute. reflexivity. Qed.

Example haar_5_unnormalised : haar 5 false = Ok [-1; -1; 1; 1; 1].
Proof. vm_compute. reflexivity. Qed.

Example diff_ghost_run : diff [1; 4; 9] true = Ok [0; 3; 5].
Proof. vm_compute. reflexivity. Qed.

Example diff_plain_run : diff [1; 4; 9] false = Ok [3; 5].
Proof. vm_compute. reflexivity. Qed.

Example max_change_run : max_change [2; 9; -1; 4] = Ok 10.
Proof. vm_compute. reflexivity. Qed.

Example top_k_run :
  top_k [5; 1; 9; 3; 7] [1; 2; 3; 4; 5]%nat 2 = Ok [(3%nat, 9); (5%nat, 7)].
Proof. vm_compute. reflexivity. Qed.

(** C1, counterexample.  [haar(3)] is [[-4/3, 2/3, 2/3]] up to rounding: its
    first value is below [-1.25], outside [[-1 - eps, 1 + eps]] for every
    [eps <= 0.25]. *)
Lemma haar_3_leaves_unit_interval :
  exists k,
    haar 3 true = Ok k /\
    ~ Forall (fun v => (-1.25 <=? v) && (v <=? 1.25) = true) k.
Proof.
  eexists. split; [vm_compute; reflexivity|].
  intros H. inversion H as [|v l Hv _]. vm_compute in Hv. discriminate.
Qed.

(** The composed kernels of length two are not even numbers: the two
    normalised halves cancel, and the outer [zero_norm] divides [0] by
    [0].  (Whatever [**] returns on the sample [4], which is zeroed.) *)
Lemma power_cusp_2_is_nan (lm : Libm float) (b : float) :
  fpow 1 b = 1 ->
  power_cusp 2 b true 1 4 = Ok [nan; nan].
Proof.
  intros H1.
  assert (Hx : np_linspace 1 4 2 = [1; 4]) by (vm_compute; reflexivity).
  unfold power_cusp, power_zero_cusp. rewrite Hx.
  change (map (fun v => fpow v b) [1; 4]) with [fpow 1 b; fpow 4 b].
  rewrite H1. vm_compute. reflexivity.
Qed.

(** C2, counterexample.  [zero_norm] of the constant array [[1, 1, 1]]
    raises nothing: it returns three NaN. *)
Lemma zero_norm_constant_returns_nan :
  zero_norm [1; 1; 1] = Ok [nan; nan; nan].
Proof. vm_compute. reflexivity. Qed.

(** C3, counterexample.  [normalize(arr)] with the default [stats=False]
    does not return a triple. *)
Lemma normalize_default_returns_no_triple :
  ~ exists z mean std, normalize [1; 2; 3] false = NormedStats z mean std.
Proof.
  intros (z & mean & std & H). vm_compute in H. discriminate.
Qed.

(** C4, counterexample.  [top_k] with [k = 0] does not fail: it returns all
    the pairs, sorted. *)
Lemma top_k_zero_returns_everything :
  top_k [5; 1; 9; 3; 7] [1; 2; 3; 4; 5]%nat 0
  = Ok [(3%nat, 9); (5%nat, 7); (1%nat, 5); (4%nat, 3); (2%nat, 1)].
Proof. vm_compute. reflexivity. Qed.

Example top_k_negative_run :
  top_k [5; 1; 9; 3; 7] [1; 2; 3; 4; 5]%nat (-2)
  = Ok [(3%nat, 9); (5%nat, 7); (1%nat, 5)].
Proof. vm_compute. reflexivity. Qed.

Example top_k_too_large_run :
  top_k [5; 1; 9; 3; 7] [1; 2; 3; 4; 5]%nat 6 = Raise ValueError.
Proof. vm_compute. reflexivity. Qed.


(** C7, counterexample.  With an infinite first element the ghost
    difference is [inf - inf], which is NaN and not [0]. *)
Lemma diff_ghost_of_infinity :
  diff [infinity] true = Ok [nan] /\ (nan =? 0) = false.
Proof. split; vm_compute; reflexivity. Qed.



(** C4, witness: five values with their labels, [k = 6] and [k = 0]; and
    no value at all, [k = 7]. *)
Lemma top_k_failure_domain_witness :
  top_k [5; 1; 9; 3; 7] [1; 2; 3; 4; 5]%nat 6 = Raise ValueError /\
  (exists top,
     top_k [5; 1; 9; 3; 7] [1; 2; 3; 4; 5]%nat 0 = Ok top /\
     Z.of_nat (length top) = 5%Z) /\
  top_k (@nil float) (@nil nat) 7 = Ok [].
Proof.
  pose proof (@top_k_failure_domain float binary64 nat
                [5; 1; 9; 3; 7] [1; 2; 3; 4; 5]%nat 6 eq_refl) as [H6 _].
  pose proof (@top_k_failure_domain float binary64 nat
                [5; 1; 9; 3; 7] [1; 2; 3; 4; 5]%nat 0 eq_refl) as (_ & _ & H0).
  pose proof (@top_k_failure_domain float binary64 nat
                [] [] 7 eq_refl) as (_ & He & _).
  split; [|split].
  - apply H6; simpl; lia.
  - apply H0. simpl. lia.
  - apply He. reflexivity.
Defined.

(** C7, witness: the sequence [[1, 4, 9]] in double precision. *)
Lemma diff_ghost_and_plain_witness :
  (exists d,
     diff [1; 4; 9] true = Ok d /\ length d = 3%nat /\ nth 0 d 0 = 0) /\
  (exists d,
     diff [1; 4; 9] false = Ok d /\ length d = 2%nat /\ nth 0 d 0 = 4 - 1).
Proof.
  assert (Hne : [1; 4; 9] <> []) by discriminate.
  destruct (@diff_ghost_and_plain float binary64 binary64_sub_diag
              [1; 4; 9] Hne)
    as [(d & Hd & Hl & _ & H0 & _) (d' & Hd' & Hl' & Hn)].
  split.
  - exists d. split; [exact Hd|]. split; [exact Hl|].
    apply H0. reflexivity.
  - exists d'. split; [exact Hd'|]. split; [exact Hl'|].
    apply (Hn 0%nat). simpl. lia.
Defined.

End Runs.

(** * Rounding in double precision

    Facts about the IEEE-754 operations on doubles, from their
    specification: the shape of a rounded result, the exactness of sums of
    small integers, and the sign of [1 - m] and [-1 - m] for [|m| <= 1]. *)

Module Rounding.

Import Binary64.
Local Open Scope Z_scope.

Lemma fexp_eq (e : Z) : SpecFloat.fexp prec emax e = Z.max (e - 53) (-1074).
Proof. reflexivity. Qed.

Lemma digits2_pos_bounds (p : positive) :
  2 ^ (Zpos (digits2_pos p) - 1) <= Zpos p < 2 ^ Zpos (digits2_pos p).
Proof.
  induction p as [p IH|p IH|]; cbn [digits2_pos].
  - rewrite Pos2Z.inj_succ.
    replace (Z.succ (Z.pos (digits2_pos p)) - 1)
      with (Z.succ (Z.pos (digits2_pos p) - 1)) by lia.
    rewrite !Z.pow_succ_r by lia. lia.
  - rewrite Pos2Z.inj_succ.
    replace (Z.succ (Z.pos (digits2_pos p)) - 1)
      with (Z.succ (Z.pos (digits2_pos p) - 1)) by lia.
    rewrite !Z.pow_succ_r by lia. lia.
  - simpl. lia.
Qed.

Lemma digits2_pos_unique (p : positive) (k : Z) :
  2 ^ (k - 1) <= Zpos p < 2 ^ k -> Zpos (digits2_pos p) = k.
Proof.
  intros [Hlo Hhi]. pose proof (digits2_pos_bounds p) as [Hl Hh].
  set (d := Zpos (digits2_pos p)) in *.
  assert (0 < k).
  { destruct (Z.ltb_spec 0 k); [assumption|].
    destruct (Z.eq_dec k 0) as [->|]; [simpl in Hhi; lia|].
    rewrite Z.pow_neg_r in Hhi by lia. lia. }
  destruct (Z.lt_trichotomy d k) as [Hlt|[Heq|Hgt]]; [|assumption|].
  - assert (2 ^ d <= 2 ^ (k - 1)) by (apply Z.pow_le_mono_r; lia). lia.
  - assert (2 ^ k <= 2 ^ (d - 1)) by (apply Z.pow_le_mono_r; lia). lia.
Qed.

Lemma digits2_pos_le (p : positive) (k : Z) :
  Zpos p < 2 ^ k -> Zpos (digits2_pos p) <= k.
Proof.
  intros Hhi. pose proof (digits2_pos_bounds p) as [Hl Hh].
  set (d := Zpos (digits2_pos p)) in *.
  destruct (Z.leb_spec d k); [assumption|].
  assert (0 <= k).
  { destruct (Z.leb_spec 0 k); [assumption|].
    rewrite Z.pow_neg_r in Hhi by lia. lia. }
  assert (2 ^ k <= 2 ^ (d - 1)) by (apply Z.pow_le_mono_r; lia). lia.
Qed.

Lemma digits2_pos_ge (p : positive) (k : Z) :
  2 ^ (k - 1) <= Zpos p -> k <= Zpos (digits2_pos p).
Proof.
  intros Hlo. pose proof (digits2_pos_bounds p) as [Hl Hh].
  set (d := Zpos (digits2_pos p)) in *.
  destruct (Z.leb_spec k d); [assumption|].
  assert (2 ^ d <= 2 ^ (k - 1)) by (apply Z.pow_le_mono_r; lia). lia.
Qed.

(** shifting right *)
Lemma iter_pos_nat {A : Type} (f : A -> A) (p : positive) (x : A) :
  iter_pos f p x = Nat.iter (Pos.to_nat p) f x.
Proof.
  revert x. induction p as [p IH|p IH|]; intros x; cbn [iter_pos].
  - rewrite !IH, Pos2Nat.inj_xI.
    replace (S (2 * Pos.to_nat p))%nat
      with (Pos.to_nat p + (Pos.to_nat p + 1))%nat by lia.
    rewrite !Nat.iter_add. reflexivity.
  - rewrite !IH, Pos2Nat.inj_xO.
    replace (2 * Pos.to_nat p)%nat
      with (Pos.to_nat p + Pos.to_nat p)%nat by lia.
    rewrite Nat.iter_add. reflexivity.
  - reflexivity.
Qed.

Lemma shr_1_nonneg (m : Z) (r s : bool) :
  0 <= m ->
  shr_1 {| shr_m := m; shr_r := r; shr_s := s |}
  = {| shr_m := m / 2; shr_r := Z.odd m; shr_s := r || s |}.
Proof.
  intros Hm. destruct m as [|p|p]; [reflexivity| |lia].
  destruct p as [p|p|]; cbn [shr_1].
  - assert (Z.pos p~1 / 2 = Z.pos p) as ->
      by (symmetry; apply Z.div_unique with (r := 1); lia).
    reflexivity.
  - assert (Z.pos p~0 / 2 = Z.pos p) as ->
      by (symmetry; apply Z.div_unique with (r := 0); lia).
    reflexivity.
  - reflexivity.
Qed.

Lemma shr_iter_exact (n : nat) (k : Z) :
  0 <= k ->
  Nat.iter n shr_1
    {| shr_m := k * 2 ^ Z.of_nat n; shr_r := false; shr_s := false |}
  = {| shr_m := k; shr_r := false; shr_s := false |}.
Proof.
  revert k. induction n as [|n IH]; intros k Hk.
  - simpl. now rewrite Z.mul_1_r.
  - rewrite Nat.iter_succ_r, shr_1_nonneg by nia.
    rewrite Nat2Z.inj_succ, Z.pow_succ_r by lia.
    replace (k * (2 * 2 ^ Z.of_nat n)) with ((k * 2 ^ Z.of_nat n) * 2) by ring.
    rewrite Z.div_mul by lia.
    rewrite Z.odd_mul. simpl Z.odd. rewrite andb_false_r. simpl orb.
    now apply IH.
Qed.

Lemma shr_iter_m (n : nat) (mrs : shr_record) :
  0 <= shr_m mrs ->
  shr_m (Nat.iter n shr_1 mrs) = shr_m mrs / 2 ^ Z.of_nat n.
Proof.
  revert mrs. induction n as [|n IH]; intros [m r s] Hm; cbn [shr_m] in *.
  - simpl. now rewrite Z.div_1_r.
  - rewrite Nat.iter_succ_r, shr_1_nonneg by assumption.
    rewrite IH by (cbn [shr_m]; apply Z.div_pos; lia).
    cbn [shr_m]. rewrite Nat2Z.inj_succ, Z.pow_succ_r by lia.
    rewrite Z.div_div by lia. reflexivity.
Qed.

(** [shr] by [n]: the exponent and the mantissa. *)
Lemma shr_m_spec (mrs : shr_record) (e n : Z) :
  0 <= shr_m mrs ->
  shr_m (fst (shr mrs e n)) = shr_m mrs / 2 ^ Z.max 0 n /\
  snd (shr mrs e n) = e + Z.max 0 n.
Proof.
  intros Hm. destruct n as [|p|p]; cbn [shr fst snd].
  - rewrite Z.div_1_r. split; [reflexivity|lia].
  - rewrite iter_pos_nat, shr_iter_m by assumption.
    rewrite positive_nat_Z. rewrite Z.max_r by lia. split; reflexivity.
  - rewrite Z.max_l by lia. rewrite Z.div_1_r. split; [reflexivity|lia].
Qed.

Lemma shr_exact (k e n : Z) :
  0 <= k -> 0 <= n ->
  shr {| shr_m := k * 2 ^ n; shr_r := false; shr_s := false |} e n
  = ({| shr_m := k; shr_r := false; shr_s := false |}, e + n).
Proof.
  intros Hk Hn. destruct n as [|p|p]; [| |lia]; cbn [shr].
  - now rewrite Z.mul_1_r, Z.add_0_r.
  - rewrite iter_pos_nat. rewrite <- (positive_nat_Z p) at 1.
    now rewrite shr_iter_exact.
Qed.

Lemma Zdigits2_pos (p : positive) : Zdigits2 (Zpos p) = Zpos (digits2_pos p).
Proof. reflexivity. Qed.

Lemma Zdigits2_unique (z k : Z) :
  2 ^ (k - 1) <= z < 2 ^ k -> 0 < z -> Zdigits2 z = k.
Proof.
  intros H Hz. destruct z as [|p|p]; try lia.
  now apply digits2_pos_unique.
Qed.

Lemma Zdigits2_bounds (z : Z) :
  0 < z -> 2 ^ (Zdigits2 z - 1) <= z < 2 ^ Zdigits2 z.
Proof.
  intros Hz. destruct z as [|p|p]; try lia. apply digits2_pos_bounds.
Qed.

Lemma Zdigits2_shift (z n : Z) :
  0 < z -> 0 <= n -> Zdigits2 (z * 2 ^ n) = Zdigits2 z + n.
Proof.
  intros Hz Hn. pose proof (Zdigits2_bounds z Hz) as [Hl Hh].
  assert (0 < Zdigits2 z) by (destruct z; try lia; reflexivity).
  assert (0 < 2 ^ n) by (apply Z.pow_pos_nonneg; lia).
  apply Zdigits2_unique; [|nia].
  replace (Zdigits2 z + n - 1) with ((Zdigits2 z - 1) + n) by lia.
  rewrite !Z.pow_add_r by lia. nia.
Qed.

Lemma Pos_iter_xO (p d : positive) :
  Zpos (Pos.iter xO p d) = Zpos p * 2 ^ Zpos d.
Proof.
  change (Pos.iter xO p d) with (shift_pos d p).
  rewrite shift_pos_correct, Zpower_pos_nat, Zpower_nat_Z, positive_nat_Z.
  ring.
Qed.

Lemma shr_record_of_loc_m (m : Z) (l : location) :
  shr_m (shr_record_of_loc m l) = m.
Proof. destruct l as [|[]]; reflexivity. Qed.

Lemma round_nearest_even_bounds (m : Z) (l : location) :
  m <= round_nearest_even m l <= m + 1.
Proof.
  destruct l as [|[]]; cbn [round_nearest_even]; try lia.
  destruct (Z.even m); lia.
Qed.

Lemma shr_nonpos (mrs : shr_record) (e n : Z) :
  n <= 0 -> shr mrs e n = (mrs, e).
Proof. intros Hn. destruct n; [reflexivity|lia|reflexivity]. Qed.

(** The first shift of a rounding: down to 53 digits. *)
Lemma shr_fexp_spec (mx ex : Z) (lx : location) :
  0 < mx -> -1074 <= ex ->
  exists mrs',
    shr_fexp prec emax mx ex lx = (mrs', ex + Z.max 0 (Zdigits2 mx - 53)) /\
    shr_m mrs' = mx / 2 ^ Z.max 0 (Zdigits2 mx - 53).
Proof.
  intros Hmx Hex. unfold shr_fexp.
  assert (Hd : 0 < Zdigits2 mx) by (destruct mx; try lia; reflexivity).
  destruct (shr_m_spec (shr_record_of_loc mx lx) ex
              (SpecFloat.fexp prec emax (Zdigits2 mx + ex) - ex)) as [Hm1 He1];
    [rewrite shr_record_of_loc_m; lia|].
  destruct (shr _ ex _) as [mrs' e']. cbn [fst snd] in Hm1, He1.
  rewrite shr_record_of_loc_m in Hm1.
  rewrite fexp_eq in Hm1, He1.
  replace (Z.max 0 (Z.max (Zdigits2 mx + ex - 53) (-1074) - ex))
    with (Z.max 0 (Zdigits2 mx - 53)) in Hm1, He1 by lia.
  exists mrs'. subst e'. split; [reflexivity|assumption].
Qed.

(** The shape of a rounded positive mantissa: the sign is kept, the result
    is not zero, and the exponent is the one of the input after the shift
    to 53 digits, or one more when the rounding carries to [2^53]. *)
Lemma binary_round_aux_shape (sx : bool) (mx ex : Z) (lx : location) :
  0 < mx -> -1074 <= ex ->
  exists (m : positive) (e : Z),
    (e = ex + Z.max 0 (Zdigits2 mx - 53) \/
     (e = ex + Z.max 0 (Zdigits2 mx - 53) + 1 /\ Zpos m = 2 ^ 52)) /\
    binary_round_aux prec emax sx mx ex lx
    = if e <=? 971 then S754_finite sx m e else S754_infinity sx.
Proof.
  intros Hmx Hex. unfold binary_round_aux.
  pose proof (Zdigits2_bounds mx Hmx) as [Hdl Hdh].
  assert (Hd : 0 < Zdigits2 mx) by (destruct mx; try lia; reflexivity).
  destruct (shr_fexp_spec mx ex lx Hmx Hex) as (mrs' & -> & Hm1).
  set (d := Zdigits2 mx) in *.
  set (k := Z.max 0 (d - 53)) in *.
  assert (Hk : 0 <= k) by lia.
  assert (Hm1b : 0 < shr_m mrs' < 2 ^ 53).
  { rewrite Hm1. assert (0 < 2 ^ k) by (apply Z.pow_pos_nonneg; lia).
    destruct (Z.leb_spec d 53).
    - replace k with 0 by lia. rewrite Z.div_1_r.
      assert (2 ^ d <= 2 ^ 53) by (apply Z.pow_le_mono_r; lia). lia.
    - replace k with (d - 53) in * by lia.
      assert (2 ^ (d - 1) = 2 ^ 52 * 2 ^ (d - 53))
        by (rewrite <- Z.pow_add_r by lia; f_equal; lia).
      assert (2 ^ d = 2 ^ 53 * 2 ^ (d - 53))
        by (rewrite <- Z.pow_add_r by lia; f_equal; lia).
      split.
      + apply Z.lt_le_trans with (2 ^ 52); [reflexivity|].
        apply Z.div_le_lower_bound; lia.
      + apply Z.div_lt_upper_bound; lia. }
  pose proof (round_nearest_even_bounds (shr_m mrs') (loc_of_shr_record mrs'))
    as Hr.
  set (m2 := round_nearest_even _ _) in *.
  unfold shr_fexp. cbn [shr_record_of_loc]. rewrite fexp_eq.
  change (emax - prec) with 971.
  destruct (Z.eq_dec m2 (2 ^ 53)) as [E2|E2].
  - rewrite E2. change (Zdigits2 (2 ^ 53)) with 54.
    replace (Z.max (54 + (ex + k) - 53) (-1074) - (ex + k)) with 1 by lia.
    change (2 ^ 53) with (2 ^ 52 * 2 ^ 1).
    rewrite shr_exact by lia. cbn [shr_m].
    exists (Z.to_pos (2 ^ 52)), (ex + k + 1).
    split; [right; split; [lia|reflexivity]|]. reflexivity.
  - assert (Hd2 : Zdigits2 m2 <= 53).
    { destruct m2 as [|p|p] eqn:Ep; try lia.
      apply digits2_pos_le. lia. }
    rewrite shr_nonpos by lia. cbn [shr_m].
    destruct m2 as [|p|p] eqn:Ep; try lia.
    exists p, (ex + k). split; [left; lia|reflexivity].
Qed.

(** A mantissa that is already in canonical form after an exact shift is
    left as it is. *)
Lemma binary_round_aux_exact (sx : bool) (M : positive) (E n : Z) :
  SpecFloat.fexp prec emax (Zpos (digits2_pos M) + E) = E ->
  E <= 971 -> 0 <= n ->
  binary_round_aux prec emax sx (Zpos M * 2 ^ n) (E - n) loc_Exact
  = S754_finite sx M E.
Proof.
  intros Hc HE Hn. unfold binary_round_aux, shr_fexp.
  rewrite Zdigits2_shift by lia. rewrite Zdigits2_pos.
  replace (Z.pos (digits2_pos M) + n + (E - n))
    with (Z.pos (digits2_pos M) + E) by lia.
  rewrite Hc. replace (E - (E - n)) with n by lia.
  cbn [shr_record_of_loc]. rewrite shr_exact by lia.
  cbn [shr_m loc_of_shr_record round_nearest_even shr_record_of_loc].
  replace (E - n + n) with E by lia.
  rewrite Zdigits2_pos, Hc, Z.sub_diag. cbn [shr shr_m].
  change (emax - prec) with 971.
  destruct (Z.leb_spec E 971); [reflexivity|lia].
Qed.

(** [binary_round] of a value that has a canonical representation
    [M * 2^E] returns that representation. *)
Lemma binary_round_exact (sx : bool) (p : positive) (e : Z) (M : positive)
  (E : Z) :
  SpecFloat.fexp prec emax (Zpos (digits2_pos M) + E) = E ->
  E <= 971 ->
  (E <= e /\ Zpos M = Zpos p * 2 ^ (e - E)) \/
  (e <= E /\ Zpos p = Zpos M * 2 ^ (E - e)) ->
  binary_round prec emax sx p e = S754_finite sx M E.
Proof.
  intros Hc HE Hrel. unfold binary_round.
  assert (Hd : Zpos (digits2_pos p) + e = Zpos (digits2_pos M) + E).
  { destruct Hrel as [[Hle H]|[Hle H]].
    - rewrite <- (Zdigits2_pos M), H, Zdigits2_shift, Zdigits2_pos by lia. lia.
    - rewrite <- (Zdigits2_pos p), H, Zdigits2_shift, Zdigits2_pos by lia. lia. }
  rewrite Hd, Hc. unfold shl_align.
  pose proof (binary_round_aux_exact sx M E 0 Hc HE (Z.le_refl 0)) as H0.
  rewrite Z.mul_1_r, Z.sub_0_r in H0.
  destruct (Z.lt_trichotomy E e) as [Hlt|[Heq|Hgt]].
  - destruct Hrel as [[Hle H]|[Hle H]]; [|lia].
    destruct (E - e) as [|q|q] eqn:Eq; try lia.
    assert (Pos.iter xO p q = M) as ->.
    { apply Pos2Z.inj. rewrite Pos_iter_xO, H.
      replace (e - E) with (Z.pos q)
        by (pose proof (Pos2Z.opp_pos q); lia).
      reflexivity. }
    exact H0.
  - subst e. rewrite Z.sub_diag.
    assert (p = M) as ->.
    { destruct Hrel as [[_ H]|[_ H]]; rewrite Z.sub_diag in H;
        simpl in H; lia. }
    exact H0.
  - destruct Hrel as [[Hle H]|[Hle H]]; [lia|].
    destruct (E - e) as [|q|q] eqn:Eq; try lia.
    pose proof (binary_round_aux_exact sx M E (E - e) Hc HE) as H'.
    rewrite Eq, <- H in H'. replace (E - Z.pos q) with e in H' by lia.
    apply H'. lia.
Qed.

Lemma shl_align_spec (p : positive) (e e' : Z) :
  Zpos (fst (shl_align p e e')) = Zpos p * 2 ^ (e - Z.min e e') /\
  snd (shl_align p e e') = Z.min e e'.
Proof.
  unfold shl_align. destruct (e' - e) as [|q|q] eqn:Eq; cbn [fst snd].
  - rewrite Z.min_l by lia. rewrite Z.sub_diag. split; lia.
  - rewrite Z.min_l by lia. rewrite Z.sub_diag. split; lia.
  - pose proof (Pos2Z.opp_pos q).
    rewrite Z.min_r by lia. rewrite Pos_iter_xO.
    replace (e - e') with (Z.pos q) by lia. split; reflexivity.
Qed.

(** The canonical form of an integer between [1] and [2^53]. *)
Lemma canon_exists (n : Z) :
  1 <= n <= 2 ^ 53 ->
  exists (M : positive) (E : Z),
    SpecFloat.fexp prec emax (Zpos (digits2_pos M) + E) = E /\
    -52 <= E <= 1 /\
    Zpos M * 2 ^ (E + 52) = n * 2 ^ 52 /\
    Zpos (digits2_pos M) = 53 /\
    2 ^ (E + 52) <= n.
Proof.
  intros Hn.
  destruct (Z.eq_dec n (2 ^ 53)) as [->|Hne].
  - exists (Z.to_pos (2 ^ 52)), 1. repeat split; try reflexivity; lia.
  - assert (Hpos : 0 < n) by lia.
    pose proof (Zdigits2_bounds n Hpos) as [Hl Hh].
    assert (Hd : 1 <= Zdigits2 n <= 53).
    { split.
      - destruct n; try lia. simpl. lia.
      - destruct n as [|p|p]; try lia. apply digits2_pos_le. lia. }
    set (d := Zdigits2 n) in *.
    assert (H2 : 0 < 2 ^ (53 - d)) by (apply Z.pow_pos_nonneg; lia).
    assert (Hdm : Zdigits2 (n * 2 ^ (53 - d)) = 53).
    { rewrite Zdigits2_shift by lia. fold d. lia. }
    destruct (n * 2 ^ (53 - d)) as [|M|M] eqn:EM; try lia.
    exists M, (d - 53).
    rewrite Zdigits2_pos in Hdm. rewrite Hdm, fexp_eq.
    split; [lia|]. split; [lia|]. split; [|split; [reflexivity|]].
    + rewrite <- EM, <- Z.mul_assoc, <- Z.pow_add_r by lia.
      do 2 f_equal. lia.
    + replace (d - 53 + 52) with (d - 1) by lia. exact Hl.
Qed.

Lemma to_Z_of_Z_small (z : Z) :
  0 <= z < 2 ^ 63 -> Uint63.to_Z (Uint63.of_Z z) = z.
Proof.
  intros Hz. rewrite Uint63.of_Z_spec. apply Z.mod_small.
  change Uint63.wB with (2 ^ 63). lia.
Qed.

Lemma Prim2SF_float_of_Z_pos (p : positive) :
  Zpos p < 2 ^ 63 ->
  Prim2SF (float_of_Z (Zpos p)) = binary_round prec emax false p 0.
Proof.
  intros Hp. unfold float_of_Z.
  rewrite of_uint63_spec, to_Z_of_Z_small by lia. reflexivity.
Qed.

Lemma Prim2SF_float_of_Z_neg (p : positive) :
  Zpos p < 2 ^ 63 ->
  Prim2SF (float_of_Z (Zneg p)) = SFopp (binary_round prec emax false p 0).
Proof.
  intros Hp. unfold float_of_Z.
  rewrite opp_spec, of_uint63_spec, to_Z_of_Z_small by lia. reflexivity.
Qed.

(** An integer of magnitude at most [2^53] is a double: its sign and its
    canonical form. *)
Lemma Prim2SF_float_of_Z_canon (n : Z) (M : positive) (E : Z) :
  1 <= n <= 2 ^ 53 ->
  SpecFloat.fexp prec emax (Zpos (digits2_pos M) + E) = E ->
  -52 <= E <= 1 ->
  Zpos M * 2 ^ (E + 52) = n * 2 ^ 52 ->
  Prim2SF (float_of_Z n) = S754_finite false M E /\
  Prim2SF (float_of_Z (- n)) = S754_finite true M E.
Proof.
  intros Hn Hc HE HM.
  destruct n as [|p|p]; try lia.
  assert (Hr : binary_round prec emax false p 0 = S754_finite false M E).
  { apply binary_round_exact; [assumption|lia|].
    destruct (Z.leb_spec E 0).
    - left. split; [assumption|].
      assert (H2 : 2 ^ 52 = 2 ^ (0 - E) * 2 ^ (E + 52))
        by (rewrite <- Z.pow_add_r by lia; f_equal; lia).
      assert (0 < 2 ^ (E + 52)) by (apply Z.pow_pos_nonneg; lia).
      rewrite H2 in HM. nia.
    - right. split; [lia|].
      replace E with 1 in * by lia. change (2 ^ (1 + 52)) with (2 * 2 ^ 52) in HM.
      change (2 ^ (1 - 0)) with 2. lia. }
  assert (Hp : Zpos p < 2 ^ 63) by lia.
  split.
  - now rewrite Prim2SF_float_of_Z_pos.
  - change (- Z.pos p) with (Z.neg p).
    rewrite Prim2SF_float_of_Z_neg, Hr by assumption. reflexivity.
Qed.

Lemma Prim2SF_float_of_Z_int (a : Z) :
  - 2 ^ 53 <= a <= 2 ^ 53 -> a <> 0 ->
  exists (M : positive) (E : Z),
    Prim2SF (float_of_Z a) = S754_finite (a <? 0) M E /\
    SpecFloat.fexp prec emax (Zpos (digits2_pos M) + E) = E /\
    -52 <= E <= 1 /\
    Zpos M * 2 ^ (E + 52) = Z.abs a * 2 ^ 52 /\
    2 ^ (E + 52) <= Z.abs a.
Proof.
  intros Ha Hnz.
  destruct (canon_exists (Z.abs a)) as (M & E & Hc & HE & HM & _ & Hlo);
    [lia|].
  exists M, E.
  destruct (Prim2SF_float_of_Z_canon (Z.abs a) M E) as [Hp Hn];
    try assumption; [lia|].
  split; [|auto].
  destruct (Z.ltb_spec a 0).
  - replace a with (- Z.abs a) at 1 by lia. exact Hn.
  - replace a with (Z.abs a) at 1 by lia. exact Hp.
Qed.

Lemma Prim2SF_unit (b : Z) :
  b = 1 \/ b = -1 ->
  Prim2SF (float_of_Z b) = S754_finite (b <? 0) 4503599627370496 (-52).
Proof. intros [->| ->]; vm_compute; reflexivity. Qed.

Lemma binary_normalize_int (c : Z) :
  - 2 ^ 53 <= c <= 2 ^ 53 ->
  binary_normalize prec emax (c * 2 ^ 52) (-52) false
  = Prim2SF (float_of_Z c).
Proof.
  intros Hc. destruct (Z.eq_dec c 0) as [->|Hnz]; [reflexivity|].
  destruct (Prim2SF_float_of_Z_int c Hc Hnz) as (M & E & -> & Hcan & HE & HM & _).
  assert (Hrel : forall p, Zpos p = Z.abs c * 2 ^ 52 ->
            forall s, binary_round prec emax s p (-52) = S754_finite s M E).
  { intros p Hp s. apply binary_round_exact; [assumption|lia|].
    right. split; [lia|]. rewrite Hp, <- HM.
    replace (E - -52) with (E + 52) by lia. reflexivity. }
  destruct (c * 2 ^ 52) as [|p|p] eqn:Ep; try lia; cbn [binary_normalize].
  - destruct (Z.ltb_spec c 0); [lia|]. apply Hrel. lia.
  - destruct (Z.ltb_spec c 0); [|lia]. apply Hrel. lia.
Qed.

(** Adding [1] or [-1] to an integer is exact as long as the sum is at most
    [2^53] in magnitude. *)
Lemma float_of_Z_add_unit (a b : Z) :
  - 2 ^ 53 <= a <= 2 ^ 53 -> b = 1 \/ b = -1 ->
  - 2 ^ 53 <= a + b <= 2 ^ 53 ->
  (float_of_Z a + float_of_Z b)%float = float_of_Z (a + b).
Proof.
  intros Ha Hb Hab. apply Prim2SF_inj. rewrite add_spec.
  rewrite <- (binary_normalize_int (a + b)) by assumption.
  rewrite (Prim2SF_unit b Hb).
  destruct (Z.eq_dec a 0) as [->|Hnz].
  - destruct Hb as [->| ->]; vm_compute; reflexivity.
  - destruct (Prim2SF_float_of_Z_int a Ha Hnz)
      as (M & E & -> & Hcan & HE & HM & _).
    unfold SF64add. cbn [SFadd].
    rewrite Z.min_r by lia.
    destruct (shl_align_spec M E (-52)) as [-> _].
    destruct (shl_align_spec 4503599627370496 (-52) (-52)) as [-> _].
    rewrite Z.min_r, Z.min_id, Z.sub_diag by lia.
    replace (E - -52) with (E + 52) by lia. rewrite HM.
    f_equal.
    change (Z.pos 4503599627370496 * 2 ^ 0) with (2 ^ 52).
    unfold cond_Zopp.
    destruct (Z.ltb_spec a 0); destruct Hb as [->| ->];
      cbn [Z.ltb Z.compare]; lia.
Qed.

Lemma float_of_Z_add_unit_clamp (a b : Z) :
  - 2 ^ 53 <= a <= 2 ^ 53 -> b = 1 \/ b = -1 ->
  (float_of_Z a + float_of_Z b)%float = float_of_Z (clamp (a + b)).
Proof.
  intros Ha Hb. unfold clamp.
  destruct (Z.eq_dec (a + b) (2 ^ 53 + 1)) as [E1|E1].
  - assert (a = 2 ^ 53 /\ b = 1) as [-> ->] by lia. vm_compute. reflexivity.
  - destruct (Z.eq_dec (a + b) (- 2 ^ 53 - 1)) as [E2|E2].
    + assert (a = - 2 ^ 53 /\ b = -1) as [-> ->] by lia.
      vm_compute. reflexivity.
    + rewrite float_of_Z_add_unit by lia. f_equal. lia.
Qed.

(** The left-to-right sum of [n] copies of [1] (or of [-1]) from an integer
    start: exact until [2^53] is reached, where it stays. *)
Lemma fold_add_units (b : Z) (n : nat) (a : Z) :
  b = 1 \/ b = -1 -> - 2 ^ 53 <= a <= 2 ^ 53 ->
  fold_left PrimFloat.add (repeat (float_of_Z b) n) (float_of_Z a)
  = float_of_Z (clamp (a + Z.of_nat n * b)).
Proof.
  intros Hb. revert a. induction n as [|n IH]; intros a Ha.
  - simpl. f_equal. unfold clamp. lia.
  - cbn [repeat fold_left]. rewrite float_of_Z_add_unit_clamp by assumption.
    rewrite IH by (unfold clamp; lia). f_equal.
    unfold clamp. destruct Hb as [->| ->]; lia.
Qed.

(** A valid finite double has at most 53 digits, and exactly 53 above the
    least exponent. *)
Lemma valid_finite (x : float) (s : bool) (m : positive) (e : Z) :
  Prim2SF x = S754_finite s m e ->
  -1074 <= e <= 971 /\ Zpos (digits2_pos m) <= 53 /\
  (-1074 < e -> Zpos (digits2_pos m) = 53).
Proof.
  intros H. pose proof (Prim2SF_valid x) as Hv. rewrite H in Hv.
  unfold valid_binary, bounded, canonical_mantissa in Hv.
  apply andb_true_iff in Hv as [Hc Hb].
  apply Z.eqb_eq in Hc. apply Z.leb_le in Hb.
  rewrite fexp_eq in Hc. change (emax - prec) with 971 in Hb. lia.
Qed.

(** The length of an array as a double: positive, and at least
    [2^(d-1)] for a length of [d] binary digits. *)
Lemma float_of_Z_length (L : Z) :
  2 <= L < 2 ^ 63 ->
  exists (m : positive) (e : Z),
    Prim2SF (float_of_Z L) = S754_finite false m e /\
    Zdigits2 L - 53 <= e <= 11.
Proof.
  intros HL. destruct L as [|p|p]; try lia.
  rewrite Prim2SF_float_of_Z_pos by lia.
  unfold binary_round.
  pose proof (digits2_pos_bounds p) as [Hl Hh].
  assert (Hd : 2 <= Zpos (digits2_pos p) <= 63).
  { split; [apply digits2_pos_ge; simpl; lia|apply digits2_pos_le; lia]. }
  destruct (shl_align_spec p 0 (SpecFloat.fexp prec emax (Zpos (digits2_pos p) + 0)))
    as [Hm He].
  destruct (shl_align _ _ _) as [mz ez]. cbn [fst snd] in Hm, He.
  rewrite fexp_eq in Hm, He.
  destruct (binary_round_aux_shape false (Zpos mz) ez loc_Exact)
    as (m & e & Hshape & ->); [lia|lia|].
  assert (Hdz : Zdigits2 (Zpos mz) + ez = Zpos (digits2_pos p)).
  { rewrite Hm, Zdigits2_shift, Zdigits2_pos by lia. lia. }
  assert (He' : Zpos (digits2_pos p) - 53 <= e <= 11) by lia.
  exists m, e. rewrite Zdigits2_pos. split; [|exact He'].
  destruct (Z.leb_spec e 971); [reflexivity|lia].
Qed.

(** A quotient of two normal doubles, the first with the smaller exponent,
    is below one, or rounds to one. *)
Lemma SFdiv_smaller_exponent (sx sy : bool) (mx my : positive) (ex ey : Z) :
  Zpos (digits2_pos mx) = 53 -> Zpos (digits2_pos my) = 53 ->
  ex < ey -> -1021 <= ex - ey ->
  at_most_one (SFdiv prec emax (S754_finite sx mx ex) (S754_finite sy my ey)).
Proof.
  intros Hdx Hdy Hlt Hlo. cbn [SFdiv]. unfold SFdiv_core_binary.
  rewrite !Zdigits2_pos, Hdx, Hdy, fexp_eq.
  replace (Z.min (Z.max (53 + ex - (53 + ey) - 53) (-1074)) (ex - ey))
    with (ex - ey - 53) by lia.
  replace (ex - ey - (ex - ey - 53)) with 53 by lia.
  rewrite Z.shiftl_mul_pow2 by lia.
  pose proof (digits2_pos_bounds mx) as [Hxl Hxh].
  pose proof (digits2_pos_bounds my) as [Hyl Hyh].
  rewrite Hdx in Hxl, Hxh. rewrite Hdy in Hyl, Hyh.
  change (2 ^ (53 - 1)) with (2 ^ 52) in *.
  pose proof (Z_div_mod_eq_full (Zpos mx * 2 ^ 53) (Zpos my)) as Hdiv.
  pose proof (Z.mod_pos_bound (Zpos mx * 2 ^ 53) (Zpos my) eq_refl) as Hmod.
  unfold Z.div, Z.modulo in Hdiv, Hmod.
  destruct (Z.div_eucl (Zpos mx * 2 ^ 53) (Zpos my)) as [q r].
  assert (Hq : 2 ^ 52 <= q < 2 ^ 54) by nia.
  destruct (binary_round_aux_shape (xorb sx sy) q (ex - ey - 53)
              (new_location (Zpos my) r)) as (m & e & Hshape & ->);
    [lia|lia|].
  assert (Hdq : Zdigits2 q <= 54).
  { destruct q as [|pq|pq]; try lia. apply digits2_pos_le. lia. }
  assert (Hdq' : 53 <= Zdigits2 q).
  { destruct q as [|pq|pq]; try lia. apply digits2_pos_ge. simpl. lia. }
  destruct (Z.leb_spec e 971); [|lia]. cbn [at_most_one]. lia.
Qed.

Lemma SFltb_negative_positive (x y : spec_float) :
  sf_negative x -> sf_positive y -> SFltb x y = true.
Proof.
  destruct x as [[]|[]| |[] ? ?]; cbn [sf_negative]; try contradiction;
    destruct y as [[]|[]| |[] ? ?]; cbn [sf_positive]; try contradiction;
    reflexivity.
Qed.

Lemma binary_normalize_sign (z e : Z) :
  -1074 <= e -> z <> 0 ->
  if z <? 0 then sf_negative (binary_normalize prec emax z e false)
  else sf_positive (binary_normalize prec emax z e false).
Proof.
  intros He Hz.
  assert (H : forall s p,
            exists m e', binary_round prec emax s p e
                         = if e' <=? 971 then S754_finite s m e'
                           else S754_infinity s).
  { intros s p. unfold binary_round.
    destruct (shl_align_spec p e (SpecFloat.fexp prec emax (Zpos (digits2_pos p) + e)))
      as [_ He'].
    destruct (shl_align _ _ _) as [mz ez]. cbn [snd] in He'.
    rewrite fexp_eq in He'.
    destruct (binary_round_aux_shape s (Zpos mz) ez loc_Exact)
      as (m & e' & _ & ->); [lia|lia|]. eauto. }
  destruct z as [|p|p]; [lia| |]; cbn [binary_normalize Z.ltb Z.compare].
  - destruct (H false p) as (m & e' & ->). now destruct (e' <=? 971).
  - destruct (H true p) as (m & e' & ->). now destruct (e' <=? 971).
Qed.

(** For [|m| <= 1], [-1 - m] is below [1 - m]. *)
Lemma sub_unit_lt (m : float) :
  at_most_one (Prim2SF m) -> ((-1 - m) <? (1 - m))%float = true.
Proof.
  intros Hm. destruct (Prim2SF m) as [s|s| |s mm em] eqn:Em;
    cbn [at_most_one] in Hm; try contradiction.
  - assert (m = SF2Prim (S754_zero s)) as ->
      by (rewrite <- Em; symmetry; apply SF2Prim_Prim2SF).
    destruct s; vm_compute; reflexivity.
  - destruct Hm as [Hem|[-> Hmm]].
    + destruct (valid_finite m s mm em Em) as (Hrange & Hd & _).
      pose proof (digits2_pos_bounds mm) as [_ Hmh].
      assert (Hmm : Zpos mm < 2 ^ 53).
      { eapply Z.lt_le_trans; [exact Hmh|]. apply Z.pow_le_mono_r; lia. }
      assert (H2 : 2 ^ 1 <= 2 ^ (- 52 - em))
        by (apply Z.pow_le_mono_r; lia).
      rewrite ltb_spec, !sub_spec, Em.
      change (Prim2SF 1) with (S754_finite false 4503599627370496 (-52)).
      change (Prim2SF (-1)) with (S754_finite true 4503599627370496 (-52)).
      unfold SF64sub. cbn [SFsub]. rewrite Z.min_r by lia.
      destruct (shl_align_spec 4503599627370496 (-52) em) as [-> _].
      destruct (shl_align_spec mm em em) as [-> _].
      rewrite Z.min_r, Z.min_id, Z.sub_diag, Z.mul_1_r by lia.
      change (Z.pos 4503599627370496) with (2 ^ 52).
      assert (H3 : 2 ^ 53 <= 2 ^ 52 * 2 ^ (-52 - em)).
      { change (2 ^ 53) with (2 ^ 52 * 2 ^ 1).
        apply Z.mul_le_mono_nonneg_l; [discriminate|exact H2]. }
      set (A := 2 ^ 52 * 2 ^ (-52 - em)) in *.
      apply SFltb_negative_positive.
      * pose proof (binary_normalize_sign
                      (cond_Zopp true A - cond_Zopp s (Zpos mm)) em) as Hs.
        assert (Hneg : cond_Zopp true A - cond_Zopp s (Zpos mm) < 0)
          by (unfold cond_Zopp; destruct s; lia).
        destruct (Z.ltb_spec (cond_Zopp true A - cond_Zopp s (Z.pos mm)) 0);
          [|lia].
        apply Hs; lia.
      * pose proof (binary_normalize_sign
                      (cond_Zopp false A - cond_Zopp s (Zpos mm)) em) as Hs.
        assert (Hpos : 0 < cond_Zopp false A - cond_Zopp s (Zpos mm))
          by (unfold cond_Zopp; destruct s; lia).
        destruct (Z.ltb_spec (cond_Zopp false A - cond_Zopp s (Z.pos mm)) 0);
          [lia|].
        apply Hs; lia.
    + assert (mm = 4503599627370496%positive) as -> by (apply Pos2Z.inj; exact Hmm).
      assert (m = SF2Prim (S754_finite s 4503599627370496 (-52))) as ->
        by (rewrite <- Em; symmetry; apply SF2Prim_Prim2SF).
      destruct s; vm_compute; reflexivity.
Qed.

(** ** The normalised step in double precision *)

Lemma fold_left_repeat_fixed {A B : Type} (g : A -> B -> A) (v : B) (c : A)
  (n : nat) :
  g c v = c -> fold_left g (repeat v n) c = c.
Proof. intros H. induction n as [|n IH]; simpl; [reflexivity|]. now rewrite H. Qed.

(** [np.sum] of [h] entries [-1] followed by [t] entries [1]. *)
Lemma np_sum_step (h t : nat) :
  np_sum (repeat (-1)%float h ++ repeat 1%float t)
  = float_of_Z (clamp (clamp (- Z.of_nat h) + Z.of_nat t)).
Proof.
  unfold np_sum. rewrite fold_left_app.
  change (@fadd float binary64) with PrimFloat.add.
  change (@fzero float binary64) with (float_of_Z 0).
  change (-1)%float with (float_of_Z (-1)).
  change 1%float with (float_of_Z 1).
  rewrite fold_add_units by (auto; lia).
  rewrite fold_add_units by (auto; unfold clamp; lia).
  f_equal. unfold clamp. lia.
Qed.

(** [zero_norm] of the step of [haar]: two plateaus, the first strictly
    below the second, for every length an array can have. *)
Lemma zero_norm_binary64_step (h t : nat) :
  (1 <= h)%nat -> (h <= t <= h + 1)%nat -> Z.of_nat (h + t) < 2 ^ 63 ->
  exists lo hi : float,
    zero_norm (repeat (-1)%float h ++ repeat 1%float t)
    = Ok (repeat lo h ++ repeat hi t) /\
    (lo <? hi)%float = true.
Proof.
  intros Hh Ht HL.
  destruct h as [|h']; [lia|]. destruct t as [|t']; [lia|].
  set (h := S h') in *. set (t := S t') in *.
  set (arr := repeat (-1)%float h ++ repeat 1%float t).
  assert (Hmin : py_min arr = Ok (-1)%float).
  { unfold arr, h. cbn [repeat app py_min]. rewrite fold_left_app.
    rewrite (fold_left_repeat_fixed _ (-1)%float (-1)%float h') by reflexivity.
    rewrite (fold_left_repeat_fixed _ 1%float (-1)%float t) by reflexivity.
    reflexivity. }
  assert (Hmax : py_max arr = Ok 1%float).
  { unfold arr, h, t. cbn [repeat app py_max]. rewrite fold_left_app.
    rewrite (fold_left_repeat_fixed _ (-1)%float (-1)%float h') by reflexivity.
    cbn [repeat fold_left].
    rewrite (fold_left_repeat_fixed _ 1%float _ t') by reflexivity.
    reflexivity. }
  unfold zero_norm. rewrite Hmin, Hmax. cbn [bind].
  assert (Harr1 :
    map (fun v : float =>
           fsub (fdiv (fmul ftwo (fsub v (-1)%float))
                      (fsub 1%float (-1)%float)) fone) arr = arr).
  { unfold arr. rewrite map_app, !map_repeat. reflexivity. }
  rewrite Harr1. cbv zeta.
  set (m := fdiv (np_sum arr) (flen arr)).
  exists (fsub (-1)%float m), (fsub 1%float m). split.
  - unfold arr. now rewrite map_app, !map_repeat.
  - change (((-1 - m) <? (1 - m))%float = true). apply sub_unit_lt.
    unfold m, arr. rewrite np_sum_step.
    unfold flen. rewrite length_app, !repeat_length.
    change (@of_Z float binary64) with float_of_Z.
    change (@fdiv float binary64) with PrimFloat.div.
    rewrite div_spec.
    set (sigma := clamp (clamp (- Z.of_nat h) + Z.of_nat t)).
    assert (Hs : 0 <= sigma <= 2 ^ 53 /\ 2 * sigma <= Z.of_nat (h + t))
      by (unfold sigma, clamp; lia).
    destruct (float_of_Z_length (Z.of_nat (h + t))) as (my & ey & Ey & Hey);
      [lia|].
    destruct (valid_finite _ _ _ _ Ey) as (_ & _ & Hdy).
    pose proof (Zdigits2_bounds (Z.of_nat (h + t))) as [_ HLd]; [lia|].
    assert (Hd2 : 2 <= Zdigits2 (Z.of_nat (h + t))).
    { destruct (Z.of_nat (h + t)) as [|p|p] eqn:Ep; try lia.
      apply digits2_pos_ge. simpl. lia. }
    rewrite Ey.
    destruct (Z.eq_dec sigma 0) as [->|Hnz]; [exact I|].
    destruct (Prim2SF_float_of_Z_int sigma) as (M & E & -> & Hc & HE & _ & Hlo);
      [lia|assumption|].
    apply SFdiv_smaller_exponent.
    + rewrite fexp_eq in Hc. lia.
    + apply Hdy. lia.
    + assert (2 ^ (E + 53) < 2 ^ Zdigits2 (Z.of_nat (h + t))).
      { replace (E + 53) with (Z.succ (E + 52)) by lia.
        rewrite Z.pow_succ_r by lia. lia. }
      assert (E + 53 < Zdigits2 (Z.of_nat (h + t)))
        by (apply (Z.pow_lt_mono_r_iff 2); lia).
      lia.
    + lia.
Qed.

End Rounding.

(** * Laws in exact arithmetic *)

Module Exact.

Import Binary64 XReal.
Local Open Scope R_scope.

(** ** Arithmetic on finite values *)

Lemma fzero_Fin : @fzero xreal _ = Fin 0.
Proof. reflexivity. Qed.

Lemma fone_Fin : @fone xreal _ = Fin 1.
Proof. reflexivity. Qed.

Lemma ftwo_Fin : @ftwo xreal _ = Fin 2.
Proof. reflexivity. Qed.

Lemma fadd_Fin (a b : R) : fadd (Fin a) (Fin b) = Fin (a + b).
Proof. reflexivity. Qed.

Lemma fsub_Fin (a b : R) : fsub (Fin a) (Fin b) = Fin (a - b).
Proof. reflexivity. Qed.

Lemma fmul_Fin (a b : R) : fmul (Fin a) (Fin b) = Fin (a * b).
Proof. reflexivity. Qed.

Lemma fdiv_Fin (a b : R) : b <> 0 -> fdiv (Fin a) (Fin b) = Fin (a / b).
Proof.
  intros Hb. simpl. destruct (Req_EM_T b 0); [contradiction|reflexivity].
Qed.

Lemma fdiv_Fin_zero (a : R) : xfinite (fdiv (Fin a) (Fin 0)) = false.
Proof.
  simpl. destruct (Req_EM_T 0 0) as [_|H]; [|now elim H].
  destruct (Req_EM_T a 0); [reflexivity|].
  destruct (Rlt_dec 0 a); reflexivity.
Qed.

Lemma fsqrt_Fin (a : R) : 0 <= a -> fsqrt (Fin a) = Fin (R_sqrt.sqrt a).
Proof.
  intros Ha. simpl. destruct (Rlt_dec a 0); [lra|reflexivity].
Qed.

Lemma fltb_Fin (a b : R) :
  fltb (Fin a) (Fin b) = if Rlt_dec a b then true else false.
Proof. reflexivity. Qed.

Lemma fisnan_Fin (a : R) : fisnan (Fin a) = false.
Proof.
  unfold fisnan. simpl. destruct (Req_EM_T a a) as [_|H]; [reflexivity|].
  now elim H.
Qed.

Lemma sub_diag_Fin : SubDiag xreal.
Proof.
  intros [r| | |] H; try discriminate.
  rewrite fsub_Fin, fzero_Fin. f_equal. lra.
Qed.

(** What a finite result says of the operands. *)

Lemma finite_Fin (v : xreal) : finite v -> exists r, v = Fin r.
Proof. destruct v; unfold finite; simpl; try discriminate; eauto. Qed.

Lemma fsub_finite (a b : xreal) : finite (fsub a b) -> finite a /\ finite b.
Proof. destruct a, b; unfold finite; simpl; auto; discriminate. Qed.

Lemma fdiv_finite (a b : xreal) : finite (fdiv a b) -> finite a.
Proof.
  destruct a, b; unfold finite; simpl; auto; try discriminate;
    destruct (Rlt_dec _ _); discriminate.
Qed.

Lemma fmul_two_finite (t : xreal) : finite (fmul ftwo t) -> finite t.
Proof.
  destruct t; unfold finite; simpl; auto; unfold xscale_inf;
    destruct (Req_EM_T 2 0); try lra; destruct (Rlt_dec 0 2); try lra;
    discriminate.
Qed.

Lemma Forall_finite_map_Fin (a : list xreal) :
  Forall finite a -> exists ra, a = map Fin ra.
Proof.
  induction 1 as [|v a Hv Ha (ra & ->)].
  - now exists [].
  - destruct (finite_Fin v Hv) as (r & ->). now exists (r :: ra).
Qed.

Lemma Forall_finite_Fin (ra : list R) : Forall finite (map Fin ra).
Proof. induction ra; constructor; auto. reflexivity. Qed.

(** ** Sums, minima and maxima of finite arrays *)

Lemma fold_fadd_Fin (l : list R) (a : R) :
  fold_left fadd (map Fin l) (Fin a) = Fin (a + Rsum l).
Proof.
  revert a; induction l as [|x l IH]; intros a; simpl.
  - f_equal. lra.
  - change (xadd (Fin a) (Fin x)) with (Fin (a + x)).
    rewrite IH. f_equal. lra.
Qed.

Lemma np_sum_Fin (l : list R) : np_sum (map Fin l) = Fin (Rsum l).
Proof.
  unfold np_sum. rewrite fzero_Fin, fold_fadd_Fin. f_equal. lra.
Qed.

Lemma flen_Fin (l : list R) : flen (map Fin l) = Fin (INR (length l)).
Proof.
  unfold flen. rewrite length_map, INR_IZR_INZ. reflexivity.
Qed.

Lemma flen_map {A : Type} (f : A -> xreal) (l : list A) :
  flen (map f l) = Fin (INR (length l)).
Proof.
  unfold flen. rewrite length_map, INR_IZR_INZ. reflexivity.
Qed.

Lemma Rsum_app (l1 l2 : list R) : Rsum (l1 ++ l2) = Rsum l1 + Rsum l2.
Proof. induction l1; simpl; lra. Qed.

Lemma Rsum_repeat (a : R) (n : nat) : Rsum (repeat a n) = INR n * a.
Proof.
  induction n as [|n IH]; [simpl; lra|].
  rewrite S_INR. simpl repeat. simpl Rsum. rewrite IH. lra.
Qed.

Lemma Rsum_map_sub (l : list R) (m : R) :
  Rsum (map (fun s => s - m) l) = Rsum l - INR (length l) * m.
Proof.
  induction l as [|x l IH]; [simpl; lra|].
  change (length (x :: l)) with (S (length l)). rewrite S_INR.
  simpl. rewrite IH. lra.
Qed.

Lemma Rsum_bounds (l : list R) (lo hi : R) :
  Forall (fun r => lo <= r <= hi) l ->
  INR (length l) * lo <= Rsum l <= INR (length l) * hi.
Proof.
  induction 1 as [|x l Hx Hl IH]; [simpl; lra|].
  change (length (x :: l)) with (S (length l)). rewrite S_INR.
  simpl. lra.
Qed.

Lemma Rsum_nonneg (l : list R) : Forall (fun r => 0 <= r) l -> 0 <= Rsum l.
Proof. induction 1; simpl; lra. Qed.

Lemma Rsum_zero_all_zero (l : list R) :
  Forall (fun r => 0 <= r) l -> Rsum l = 0 -> Forall (fun r => r = 0) l.
Proof.
  induction 1 as [|x l Hx Hl IH]; intros Hs; [constructor|].
  simpl in Hs. pose proof (Rsum_nonneg l Hl).
  constructor; [lra|]. apply IH. lra.
Qed.

Lemma fold_Rmin_le (l : list R) (x : R) :
  fold_left Rmin l x <= x /\ Forall (fun r => fold_left Rmin l x <= r) l.
Proof.
  revert x; induction l as [|y l IH]; intros x; simpl.
  - split; [lra|constructor].
  - destruct (IH (Rmin x y)) as [H1 H2].
    pose proof (Rmin_l x y). pose proof (Rmin_r x y).
    split; [lra|]. constructor; [lra|exact H2].
Qed.

Lemma fold_Rmax_ge (l : list R) (x : R) :
  x <= fold_left Rmax l x /\ Forall (fun r => r <= fold_left Rmax l x) l.
Proof.
  revert x; induction l as [|y l IH]; intros x; simpl.
  - split; [lra|constructor].
  - destruct (IH (Rmax x y)) as [H1 H2].
    pose proof (Rmax_l x y). pose proof (Rmax_r x y).
    split; [lra|]. constructor; [lra|exact H2].
Qed.

Lemma list_min_le (l : list R) : Forall (fun r => list_min l <= r) l.
Proof.
  destruct l as [|x l]; [constructor|]. simpl.
  destruct (fold_Rmin_le l x). now constructor.
Qed.

Lemma list_max_ge (l : list R) : Forall (fun r => r <= list_max l) l.
Proof.
  destruct l as [|x l]; [constructor|]. simpl.
  destruct (fold_Rmax_ge l x). now constructor.
Qed.

Lemma py_min_fold_Fin (l : list R) (x : R) :
  fold_left (fun cur item : xreal => if fltb item cur then item else cur)
    (map Fin l) (Fin x)
  = Fin (fold_left Rmin l x).
Proof.
  revert x; induction l as [|y l IH]; intros x; simpl; [reflexivity|].
  replace (if if Rlt_dec y x then true else false then Fin y else Fin x)
    with (Fin (Rmin x y)); [apply IH|].
  unfold Rmin. destruct (Rlt_dec y x), (Rle_dec x y); f_equal; lra.
Qed.

Lemma py_max_fold_Fin (l : list R) (x : R) :
  fold_left (fun cur item : xreal => if fltb cur item then item else cur)
    (map Fin l) (Fin x)
  = Fin (fold_left Rmax l x).
Proof.
  revert x; induction l as [|y l IH]; intros x; simpl; [reflexivity|].
  replace (if if Rlt_dec x y then true else false then Fin y else Fin x)
    with (Fin (Rmax x y)); [apply IH|].
  unfold Rmax. destruct (Rlt_dec x y), (Rle_dec x y); f_equal; lra.
Qed.

Lemma py_min_Fin (x : R) (l : list R) :
  py_min (map Fin (x :: l)) = Ok (Fin (list_min (x :: l))).
Proof. simpl. now rewrite py_min_fold_Fin. Qed.

Lemma py_max_Fin (x : R) (l : list R) :
  py_max (map Fin (x :: l)) = Ok (Fin (list_max (x :: l))).
Proof. simpl. now rewrite py_max_fold_Fin. Qed.

Lemma np_minimum_Fin (a b : R) : np_minimum (Fin a) (Fin b) = Fin (Rmin a b).
Proof.
  unfold np_minimum. rewrite !fisnan_Fin, fltb_Fin.
  unfold Rmin. destruct (Rlt_dec b a), (Rle_dec a b); f_equal; lra.
Qed.

Lemma np_maximum_Fin (a b : R) : np_maximum (Fin a) (Fin b) = Fin (Rmax a b).
Proof.
  unfold np_maximum. rewrite !fisnan_Fin, fltb_Fin.
  unfold Rmax. destruct (Rlt_dec a b), (Rle_dec a b); f_equal; lra.
Qed.

Lemma np_min_Fin (x : R) (l : list R) :
  np_min (map Fin (x :: l)) = Ok (Fin (list_min (x :: l))).
Proof.
  simpl. f_equal. revert x; induction l as [|y l IH]; intros x; simpl;
    [reflexivity|].
  now rewrite np_minimum_Fin, IH.
Qed.

Lemma np_max_Fin (x : R) (l : list R) :
  np_max (map Fin (x :: l)) = Ok (Fin (list_max (x :: l))).
Proof.
  simpl. f_equal. revert x; induction l as [|y l IH]; intros x; simpl;
    [reflexivity|].
  now rewrite np_maximum_Fin, IH.
Qed.

(** ** zero_norm *)

Lemma zero_norm_Fin (ra : list R) :
  ra <> [] -> list_max ra - list_min ra <> 0 ->
  zero_norm (map Fin ra) = Ok (map Fin (zero_norm_R ra)).
Proof.
  destruct ra as [|x l]; [congruence|]. intros _ Hd.
  unfold zero_norm. rewrite py_min_Fin, py_max_Fin. cbn [bind]. cbv zeta.
  set (mn := list_min (x :: l)) in *. set (mx := list_max (x :: l)) in *.
  assert (H1 :
    map (fun v => fsub (fdiv (fmul ftwo (fsub v (Fin mn)))
                          (fsub (Fin mx) (Fin mn))) fone) (map Fin (x :: l))
    = map Fin (map (rescale mn mx) (x :: l))).
  { rewrite !map_map. apply map_ext. intros r.
    rewrite ftwo_Fin, fone_Fin, !fsub_Fin, fmul_Fin, fdiv_Fin by exact Hd.
    rewrite fsub_Fin. reflexivity. }
  rewrite H1, np_sum_Fin, flen_Fin, fdiv_Fin.
  - f_equal. unfold zero_norm_R. fold mn mx.
    rewrite !map_map. apply map_ext. intros r. now rewrite fsub_Fin.
  - apply not_0_INR. rewrite length_map. simpl. lia.
Qed.

Lemma zero_norm_unfold (a k : list xreal) :
  zero_norm a = Ok k ->
  exists mn mx m,
    py_min a = Ok mn /\ py_max a = Ok mx /\
    k = map (fun u => fsub (fsub (fdiv (fmul ftwo (fsub u mn)) (fsub mx mn))
                              fone) m) a.
Proof.
  destruct a as [|v a']; [discriminate|].
  unfold zero_norm.
  destruct (py_min_ok v a') as (mn & ->). destruct (py_max_ok v a') as (mx & ->).
  cbn [bind]. cbv zeta.
  intros H. injection H as <-.
  exists mn, mx. eexists. repeat split. rewrite map_map. reflexivity.
Qed.

Lemma rescaled_finite_divisor (x mn mx : R) (m : xreal) :
  finite (fsub (fsub (fdiv (fmul ftwo (fsub (Fin x) (Fin mn)))
                         (fsub (Fin mx) (Fin mn))) fone) m) ->
  mx - mn <> 0.
Proof.
  intros Hu Hd.
  apply fsub_finite in Hu. destruct Hu as [Hu _].
  apply fsub_finite in Hu. destruct Hu as [Hu _].
  rewrite ftwo_Fin, !fsub_Fin, fmul_Fin, Hd in Hu.
  unfold finite in Hu. rewrite fdiv_Fin_zero in Hu. discriminate.
Qed.

(** A finite result can only come from a finite array that is not
    constant. *)
Lemma zero_norm_finite_inv (a k : list xreal) :
  zero_norm a = Ok k -> Forall finite k ->
  exists ra, a = map Fin ra /\ ra <> [] /\ list_max ra - list_min ra <> 0.
Proof.
  intros Hz Hk.
  destruct (zero_norm_unfold a k Hz) as (mn & mx & m & Hmn & Hmx & ->).
  rewrite Forall_map in Hk.
  assert (Ha : Forall finite a).
  { revert Hk. apply Forall_impl. intros u Hu.
    apply fsub_finite in Hu. destruct Hu as [Hu _].
    apply fsub_finite in Hu. destruct Hu as [Hu _].
    apply fdiv_finite, fmul_two_finite, fsub_finite in Hu. tauto. }
  destruct (Forall_finite_map_Fin a Ha) as (ra & ->).
  exists ra. split; [reflexivity|].
  destruct ra as [|x l]; [discriminate|]. split; [discriminate|].
  rewrite py_min_Fin in Hmn. rewrite py_max_Fin in Hmx.
  injection Hmn as <-. injection Hmx as <-.
  change (map Fin (x :: l)) with (Fin x :: map Fin l) in Hk.
  apply Forall_inv in Hk.
  now apply rescaled_finite_divisor in Hk.
Qed.

Lemma rescale_bounds (mn mx r : R) :
  mn <= r <= mx -> mn < mx -> -1 <= rescale mn mx r <= 1.
Proof.
  intros Hr Hlt. unfold rescale, Rdiv.
  assert (Ht : 0 < / (mx - mn)) by (apply Rinv_0_lt_compat; lra).
  assert (Hi : (mx - mn) * / (mx - mn) = 1) by (apply Rinv_r; lra).
  set (t := / (mx - mn)) in *.
  assert (0 <= (r - mn) * t) by (apply Rmult_le_pos; lra).
  assert (0 <= (mx - r) * t) by (apply Rmult_le_pos; lra).
  split; nra.
Qed.

Lemma rescale_lt (mn mx a b : R) :
  mn < mx -> a < b -> rescale mn mx a < rescale mn mx b.
Proof.
  intros Hlt Hab. unfold rescale, Rdiv.
  assert (Ht : 0 < / (mx - mn)) by (apply Rinv_0_lt_compat; lra).
  apply Rplus_lt_compat_r, Rmult_lt_compat_r; [exact Ht | lra].
Qed.

Lemma list_min_lt_max (ra : list R) :
  ra <> [] -> list_max ra - list_min ra <> 0 -> list_min ra < list_max ra.
Proof.
  intros Hne Hd. destruct ra as [|x l]; [congruence|].
  pose proof (list_min_le (x :: l)) as Hmin.
  pose proof (list_max_ge (x :: l)) as Hmax.
  inversion Hmin; inversion Hmax; subst. lra.
Qed.

(** The values of the result lie within [[-2, 2]] and sum to zero. *)
Lemma zero_norm_R_spec (ra : list R) :
  ra <> [] -> list_max ra - list_min ra <> 0 ->
  Forall (fun r => -2 <= r <= 2) (zero_norm_R ra) /\ Rsum (zero_norm_R ra) = 0.
Proof.
  intros Hne Hd. pose proof (list_min_lt_max ra Hne Hd) as Hlt.
  unfold zero_norm_R.
  set (ss := map (rescale (list_min ra) (list_max ra)) ra).
  assert (Hss : Forall (fun s => -1 <= s <= 1) ss).
  { unfold ss. apply Forall_map, Forall_forall. intros r Hr.
    apply rescale_bounds; [|exact Hlt].
    pose proof (list_min_le ra) as Hmin. pose proof (list_max_ge ra) as Hmax.
    rewrite Forall_forall in Hmin, Hmax. split; auto. }
  assert (Hn : 0 < INR (length ss)).
  { apply lt_0_INR. unfold ss. rewrite length_map.
    destruct ra; [congruence|simpl; lia]. }
  set (n := INR (length ss)) in *.
  pose proof (Rsum_bounds ss (-1) 1 Hss) as Hb. fold n in Hb.
  assert (Hm : -1 <= Rsum ss / n <= 1).
  { unfold Rdiv.
    assert (Ht : 0 < / n) by (apply Rinv_0_lt_compat; lra).
    assert (Hi : n * / n = 1) by (apply Rinv_r; lra).
    assert (0 <= (Rsum ss - n * -1) * / n) by (apply Rmult_le_pos; lra).
    assert (0 <= (n * 1 - Rsum ss) * / n) by (apply Rmult_le_pos; lra).
    split; nra. }
  split.
  - apply Forall_map. revert Hss. apply Forall_impl. intros s Hs. lra.
  - rewrite Rsum_map_sub. fold n. field. lra.
Qed.

(** [zero_norm(arr)] whenever it returns finite values: they lie within
    [[-2, 2]] and their sum is zero. *)
Lemma zero_norm_finite_spec (a k : list xreal) :
  zero_norm a = Ok k -> Forall finite k ->
  exists rs,
    k = map Fin rs /\ Forall (fun r => -2 <= r <= 2) rs /\ Rsum rs = 0.
Proof.
  intros Hz Hk.
  destruct (zero_norm_finite_inv a k Hz Hk) as (ra & -> & Hne & Hd).
  rewrite zero_norm_Fin in Hz by assumption. injection Hz as <-.
  exists (zero_norm_R ra). split; [reflexivity|].
  now apply zero_norm_R_spec.
Qed.

(** ** The kernels *)

(** C1 (amended).  For every kernel function and [L >= 2], in either
    arithmetic and for all parameters, the call returns an array of exactly
    [L] values.  With [zn=True] the array returned is the result of a final
    [zero_norm]; in exact arithmetic, whenever its values are finite they lie
    within [[-2, 2]] (a value of [[-1, 1]] minus the mean of such values),
    not within [[-1, 1]], and their sum is exactly zero. *)
Theorem kernel_length_range_sum :
  forall (f : family) (L : nat),
    (2 <= L)%nat ->
    (forall (F : Type) (ops : FloatOps F) (libm : Libm F)
            (p : F) (zn : bool) (startpt endpt : F),
       exists k, kernel f L p zn startpt endpt = Ok k /\ length k = L) /\
    (forall (p startpt endpt : xreal) (k : list xreal),
       kernel f L p true startpt endpt = Ok k ->
       Forall finite k ->
       exists rs,
         k = map Fin rs /\
         Forall (fun r => -2 <= r <= 2) rs /\
         Rsum rs = 0).
Proof.
  intros f L HL. split.
  - intros F ops libm p zn s e. apply kernel_length. lia.
  - intros p s e k Hk Hfin.
    destruct (kernel_zn_is_zero_norm f L p s e k Hk) as (res & Hres).
    now apply (zero_norm_finite_spec res k).
Qed.

(** C1, witness: [haar] with [L = 2]. *)
Lemma kernel_length_range_sum_witness :
  exists k,
    kernel Haar 2 (Fin 0) true (Fin 1) (Fin 4) = Ok k /\
    length k = 2%nat /\
    (Forall finite k ->
     exists rs,
       k = map Fin rs /\ Forall (fun r => -2 <= r <= 2) rs /\ Rsum rs = 0).
Proof.
  destruct (kernel_length_range_sum Haar 2 (le_n 2)) as [Hlen Hsum].
  destruct (Hlen xreal xreal_ops xreal_libm (Fin 0) true (Fin 1) (Fin 4))
    as (k & Hk & Hl).
  exists k. split; [exact Hk|]. split; [exact Hl|].
  intros Hfin. exact (Hsum (Fin 0) (Fin 1) (Fin 4) k Hk Hfin).
Defined.


(** ** zero_norm of a constant array *)

Lemma fold_Rmin_repeat (c : R) (n : nat) : fold_left Rmin (repeat c n) c = c.
Proof.
  induction n as [|n IH]; simpl; [reflexivity|].
  rewrite Rmin_left by lra. exact IH.
Qed.

Lemma fold_Rmax_repeat (c : R) (n : nat) : fold_left Rmax (repeat c n) c = c.
Proof.
  induction n as [|n IH]; simpl; [reflexivity|].
  rewrite Rmax_left by lra. exact IH.
Qed.

Lemma fold_fadd_NaN (l : list xreal) : fold_left fadd l NaN = NaN.
Proof. induction l as [|x l IH]; simpl; [reflexivity|exact IH]. Qed.

Lemma np_sum_repeat_NaN (n : nat) : np_sum (repeat NaN (S n)) = NaN.
Proof. unfold np_sum. simpl. apply fold_fadd_NaN. Qed.

Lemma rescale_constant_is_NaN (c : R) :
  fsub (fdiv (fmul ftwo (fsub (Fin c) (Fin c))) (fsub (Fin c) (Fin c))) fone
  = NaN.
Proof.
  rewrite ftwo_Fin, fsub_Fin, fmul_Fin.
  replace (c - c) with 0 by lra. replace (2 * 0) with 0 by lra.
  simpl. destruct (Req_EM_T 0 0) as [_|H]; [reflexivity|now elim H].
Qed.

(** C2 (amended).  On a constant array of [n >= 1] finite values
    [zero_norm] raises no error: [max - min] is zero, every entry becomes
    [0/0], and the array returned holds [n] NaN. *)
Theorem zero_norm_constant_is_nan :
  forall (c : R) (n : nat),
    (1 <= n)%nat ->
    zero_norm (repeat (Fin c) n) = Ok (repeat NaN n).
Proof.
  intros c [|n] Hn; [lia|].
  rewrite <- (map_repeat c (S n) Fin).
  unfold zero_norm. simpl repeat. rewrite py_min_Fin, py_max_Fin.
  cbn [bind]. cbv zeta.
  unfold list_min, list_max. rewrite fold_Rmin_repeat, fold_Rmax_repeat.
  change (c :: repeat c n) with (repeat c (S n)).
  rewrite !map_repeat, rescale_constant_is_NaN.
  rewrite np_sum_repeat_NaN. reflexivity.
Qed.

(** C2, witness: the array [[1, 1, 1]]. *)
Lemma zero_norm_constant_is_nan_witness :
  zero_norm [Fin 1; Fin 1; Fin 1] = Ok [NaN; NaN; NaN].
Proof.
  exact (zero_norm_constant_is_nan 1 3 (le_S _ _ (le_S _ _ (le_n 1)))).
Defined.


(** ** haar *)

Lemma firstn_repeat_le {A : Type} (a : A) (n m : nat) :
  (n <= m)%nat -> firstn n (repeat a m) = repeat a n.
Proof.
  revert m; induction n as [|n IH]; intros [|m] H; simpl; try lia; auto.
  f_equal. apply IH. lia.
Qed.

Lemma map_const_repeat {A B : Type} (v : B) (l : list A) :
  map (fun _ => v) l = repeat v (length l).
Proof. induction l; simpl; congruence. Qed.

(** [haar] before the normalisation, in every arithmetic: [L // 2] copies
    of [-1 * 1.0], then [L - L // 2] ones. *)
Lemma haar_res_repeat (F : Type) (ops : FloatOps F) (L : nat) :
  haar_res L
  = repeat (fmul (of_Z (-1)) fone) (L / 2) ++ repeat fone (L - L / 2).
Proof.
  unfold haar_res, np_ones, assign_from.
  rewrite map_repeat, repeat_length.
  assert (H : (L / 2 <= L)%nat) by (apply Nat.Div0.div_le_upper_bound; lia).
  rewrite firstn_repeat_le by exact H.
  now rewrite map_const_repeat, length_skipn, repeat_length.
Qed.

Lemma half_bounds (L : nat) : (2 <= L)%nat -> (1 <= L / 2 < L)%nat.
Proof.
  intros H. split.
  - apply Nat.div_le_lower_bound; lia.
  - apply Nat.div_lt; lia.
Qed.

(** The normalised step: the two plateaus are the images of [-1] and [1]
    under one increasing map. *)
Lemma zero_norm_step (h t : nat) :
  (1 <= h)%nat -> (1 <= t)%nat ->
  exists lo hi : R,
    zero_norm (repeat (Fin (-1)) h ++ repeat (Fin 1) t)
    = Ok (repeat (Fin lo) h ++ repeat (Fin hi) t) /\
    lo < hi.
Proof.
  intros Hh Ht.
  set (ra := repeat (-1) h ++ repeat 1 t).
  assert (Hra : repeat (Fin (-1)) h ++ repeat (Fin 1) t = map Fin ra)
    by (unfold ra; now rewrite map_app, !map_repeat).
  assert (Hne : ra <> []) by (unfold ra; destruct h; [lia|discriminate]).
  assert (Hlo : In (-1) ra)
    by (unfold ra; apply in_or_app; left; destruct h; [lia|now left]).
  assert (Hhi : In 1 ra)
    by (unfold ra; apply in_or_app; right; destruct t; [lia|now left]).
  pose proof (list_min_le ra) as Hmin. pose proof (list_max_ge ra) as Hmax.
  rewrite Forall_forall in Hmin, Hmax.
  pose proof (Hmin _ Hlo). pose proof (Hmax _ Hhi).
  rewrite Hra, zero_norm_Fin by (auto; lra).
  unfold zero_norm_R. rewrite map_map.
  set (mn := list_min ra) in *. set (mx := list_max ra) in *.
  set (m := Rsum _ / _).
  exists (rescale mn mx (-1) - m), (rescale mn mx 1 - m). split.
  - unfold ra. now rewrite !map_app, !map_repeat.
  - apply Rplus_lt_compat_r, rescale_lt; lra.
Qed.

(** C8.  For [L >= 2], [haar] without normalisation is [L // 2] entries
    [-1] followed by [L - L // 2] entries [+1] (so an odd [L] has its extra
    entry in the positive half), in double precision and in exact
    arithmetic alike.  After the zero-normalisation the first [L // 2]
    entries are one value [lo] and the remaining [L - L // 2] entries one
    value [hi], with [lo < hi]: in exact arithmetic, and in double
    precision for every length an array can have ([L < 2^63], the range of
    numpy's index type and of the conversion of [len(arr)] to a double). *)
Theorem haar_is_a_step :
  forall L : nat,
    (2 <= L)%nat ->
    let h := (L / 2)%nat in
    @haar float Binary64.binary64 L false
    = Ok (repeat (-1)%float h ++ repeat 1%float (L - h)) /\
    (exists lo hi : float,
       @haar float Binary64.binary64 L true
       = Ok (repeat lo h ++ repeat hi (L - h)) /\
       ((Z.of_nat L < 2 ^ 63)%Z -> (lo <? hi)%float = true)) /\
    @haar xreal xreal_ops L false
    = Ok (repeat (Fin (-1)) h ++ repeat (Fin 1) (L - h)) /\
    exists lo hi : R,
      @haar xreal xreal_ops L true
      = Ok (repeat (Fin lo) h ++ repeat (Fin hi) (L - h)) /\
      lo < hi.
Proof.
  intros L HL h. pose proof (half_bounds L HL) as Hh. fold h in Hh.
  assert (Hx : @haar_res xreal xreal_ops L
               = repeat (Fin (-1)) h ++ repeat (Fin 1) (L - h)).
  { rewrite haar_res_repeat. fold h. do 2 f_equal.
    rewrite fone_Fin. simpl. f_equal. lra. }
  split; [|split; [|split]].
  - unfold haar, finish. rewrite haar_res_repeat. reflexivity.
  - unfold haar, finish.
    destruct (Z.lt_ge_cases (Z.of_nat L) (2 ^ 63)) as [Hsmall|Hlarge].
    + rewrite haar_res_repeat. fold h.
      change (@fmul float Binary64.binary64 (of_Z (-1)) fone)
        with (-1)%float.
      change (@fone float Binary64.binary64) with 1%float.
      assert (Hhalf : (h <= L - h <= h + 1)%nat).
      { pose proof (Nat.div_mod_eq L 2) as Hdm. fold h in Hdm.
        pose proof (Nat.mod_upper_bound L 2). lia. }
      destruct (Rounding.zero_norm_binary64_step h (L - h))
        as (lo & hi & Hz & Hlt); [lia|exact Hhalf| |].
      * replace (h + (L - h))%nat with L by lia. exact Hsmall.
      * exists lo, hi. split; [exact Hz|]. intros _. exact Hlt.
    + destruct (zero_norm_length (@haar_res float Binary64.binary64 L))
        as (k & Hk & _); [rewrite haar_res_length; lia|].
      destruct (zero_norm_is_map _ _ Hk) as (g & ->).
      rewrite Hk, haar_res_repeat, map_app, !map_repeat. fold h.
      eexists _, _. split; [reflexivity|]. intros Hsmall. lia.
  - unfold haar, finish. now rewrite Hx.
  - unfold haar, finish. rewrite Hx. apply zero_norm_step; lia.
Qed.

(** C8, witness: [L = 3], whose extra entry is in the positive half. *)
Lemma haar_is_a_step_witness :
  (exists lo hi : float,
     @haar float Binary64.binary64 3 true = Ok [lo; hi; hi] /\
     (lo <? hi)%float = true) /\
  @haar xreal xreal_ops 3 false = Ok [Fin (-1); Fin 1; Fin 1] /\
  exists lo hi : R,
    @haar xreal xreal_ops 3 true = Ok [Fin lo; Fin hi; Fin hi] /\ lo < hi.
Proof.
  destruct (haar_is_a_step 3 (le_S _ _ (le_n 2)))
    as (_ & (flo & fhi & Hfn & Hflt) & Hplain & lo & hi & Hnormed & Hlt).
  split; [|split; [exact Hplain|]].
  - exists flo, fhi. split; [exact Hfn|]. apply Hflt. reflexivity.
  - exists lo, hi. split; [exact Hnormed|exact Hlt].
Defined.


(** The finiteness premise of the kernel theorem holds of [haar]. *)
Lemma haar_finite (L : nat) (k : list xreal) :
  (2 <= L)%nat -> @haar xreal xreal_ops L true = Ok k -> Forall finite k.
Proof.
  intros HL Hk. pose proof (half_bounds L HL) as Hh.
  unfold haar, finish in Hk. rewrite haar_res_repeat in Hk.
  replace (fmul (of_Z (-1)) fone) with (Fin (-1)) in Hk
    by (simpl; f_equal; lra).
  destruct (zero_norm_step (L / 2) (L - L / 2)) as (lo & hi & Hz & _);
    try lia.
  rewrite fone_Fin in Hk.
  rewrite Hz in Hk. injection Hk as <-.
  apply Forall_app. split; apply Forall_forall; intros v Hv;
    apply repeat_spec in Hv; subst; reflexivity.
Qed.

(** ** The round trip of row_normalize and row_unnormalize *)

Lemma nonempty_INR (row : list R) : row <> [] -> 0 < INR (length row).
Proof.
  intros H. apply lt_0_INR. destruct row; [congruence|simpl; lia].
Qed.

Lemma np_mean_Fin (row : list R) :
  row <> [] -> np_mean (map Fin row) = Fin (Rmean row).
Proof.
  intros H. pose proof (nonempty_INR row H).
  unfold np_mean. rewrite np_sum_Fin, flen_Fin, fdiv_Fin by lra.
  reflexivity.
Qed.

Lemma squares_nonneg (row : list R) (m : R) :
  Forall (fun r => 0 <= r) (map (fun v => (v - m) * (v - m)) row).
Proof.
  rewrite Forall_map. apply Forall_forall. intros v _. exact (Rle_0_sqr (v - m)).
Qed.

Lemma Rvar_nonneg (row : list R) : row <> [] -> 0 <= Rvar row.
Proof.
  intros H. pose proof (nonempty_INR row H) as Hn.
  pose proof (Rsum_nonneg _ (squares_nonneg row (Rmean row))) as Hs.
  unfold Rvar, Rdiv.
  apply Rmult_le_pos; [exact Hs|].
  apply Rlt_le, Rinv_0_lt_compat, Hn.
Qed.

Lemma Rvar_pos (row : list R) : ~ constant row -> 0 < Rvar row.
Proof.
  intros Hc.
  assert (Hne : row <> []) by (intros ->; apply Hc; intros x y []).
  pose proof (nonempty_INR row Hne) as Hn.
  pose proof (squares_nonneg row (Rmean row)) as Hsq.
  pose proof (Rsum_nonneg _ Hsq) as Hs.
  destruct (Rle_lt_dec (Rsum (map (fun v => (v - Rmean row) * (v - Rmean row)) row)) 0)
    as [Hle|Hlt].
  - exfalso. apply Hc.
    assert (H0 : Forall (fun v => v = Rmean row) row).
    { assert (Hz : Rsum (map (fun v => (v - Rmean row) * (v - Rmean row)) row) = 0)
        by lra.
      apply (Rsum_zero_all_zero _ Hsq) in Hz.
      rewrite Forall_map in Hz. revert Hz. apply Forall_impl.
      intros v Hv. nra. }
    rewrite Forall_forall in H0.
    intros x y Hx Hy. rewrite (H0 x Hx), (H0 y Hy). reflexivity.
  - unfold Rvar, Rdiv. apply Rmult_lt_0_compat; [exact Hlt|].
    apply Rinv_0_lt_compat, Hn.
Qed.

Lemma np_std_Fin (row : list R) :
  row <> [] -> np_std (map Fin row) = Fin (R_sqrt.sqrt (Rvar row)).
Proof.
  intros H. pose proof (nonempty_INR row H).
  unfold np_std. cbv zeta. rewrite np_mean_Fin by exact H.
  assert (Hsq :
    map (fun v => fmul v v) (map (fun v => fsub v (Fin (Rmean row))) (map Fin row))
    = map Fin (map (fun v => (v - Rmean row) * (v - Rmean row)) row)).
  { rewrite !map_map. apply map_ext. intros v.
    now rewrite fsub_Fin, fmul_Fin. }
  rewrite Hsq, np_sum_Fin, flen_Fin, fdiv_Fin by lra.
  apply fsqrt_Fin. now apply Rvar_nonneg.
Qed.






(** ** max_rel_change *)

Lemma np_diff_Fin (l : list R) : np_diff (map Fin l) = map Fin (Rdiff l).
Proof.
  induction l as [|x [|y l] IH]; try reflexivity.
  change (np_diff (map Fin (x :: y :: l)))
    with (fsub (Fin y) (Fin x) :: np_diff (map Fin (y :: l))).
  rewrite IH. reflexivity.
Qed.

Lemma flog10_Fin (y : R) : 0 < y -> flog10 (Fin y) = Fin (ln y / ln 10).
Proof.
  intros Hy. simpl. destruct (Rlt_dec 0 y); [reflexivity|contradiction].
Qed.

Lemma shifted_Fin (ra : list R) :
  ra <> [] ->
  shifted (map Fin ra)
  = Ok (map Fin (map (fun v => v - list_min ra + 1) ra)).
Proof.
  destruct ra as [|x l]; [congruence|]. intros _.
  unfold shifted. rewrite np_min_Fin. cbn [bind].
  f_equal. rewrite !map_map. apply map_ext. intros v.
  now rewrite fone_Fin, fsub_Fin, fadd_Fin.
Qed.




(** ** The composition of power_law_cusp, at an instance *)

(** C5, witness: [L = 2] and [b = 1] on the default interval. *)
Lemma power_law_cusp_composition_witness :
  exists h res : list xreal,
    power_law_zero_cusp 2 (Fin 1) true (Fin 1) (Fin 4) = Ok h /\
    power_law_cusp_res 2 (Fin 1) true (Fin 1) (Fin 4) = Ok res /\
    res = np_add h (rev h) /\
    length res = 2%nat.
Proof.
  destruct (@power_law_cusp_composition xreal xreal_ops xreal_libm
              2 (Fin 1) true (Fin 1) (Fin 4) (le_n 2))
    as (h & res & Hh & _ & Hres & Heq & Hl & _).
  exists h, res. repeat split; assumption.
Defined.

End Exact.

(** * Moving windows over a sequence *)

Section TensorProofs.

Context {A : Type}.

Lemma nth_error_map_seq {B : Type} (f : nat -> B) (len n : nat) :
  n < len -> nth_error (map f (seq 0 len)) n = Some (f n).
Proof.
  intros Hn. rewrite nth_error_map, nth_error_seq.
  destruct (Nat.ltb_spec n len); [reflexivity|lia].
Qed.

Lemma map_const_seq {B : Type} (v : B) (start len : nat) :
  map (fun _ => v) (seq start len) = repeat v len.
Proof.
  revert start; induction len as [|len IH]; intros start; simpl;
    [reflexivity|now rewrite IH].
Qed.

Lemma tensor_slice_length (tensor : list A) (n lag : nat) :
  n + lag <= length tensor -> length (tensor_slice tensor n lag) = lag.
Proof.
  intros H. unfold tensor_slice. rewrite length_firstn, length_skipn. lia.
Qed.

Lemma tensor_slice_nth_error (tensor : list A) (n lag j : nat) :
  j < lag ->
  nth_error (tensor_slice tensor n lag) j = nth_error tensor (n + j).
Proof.
  intros Hj. unfold tensor_slice.
  rewrite nth_error_firstn, nth_error_skipn.
  destruct (Nat.ltb_spec j lag); [reflexivity|lia].
Qed.

Lemma firstn_add_split (a b : nat) (l : list A) :
  firstn (a + b) l = firstn a l ++ firstn b (skipn a l).
Proof.
  revert l; induction a as [|a IH]; intros [|x l]; simpl;
    rewrite ?firstn_nil; auto.
  now rewrite IH.
Qed.

(** X1.  [make_moving_tensor(tensor, lag)] has [len(tensor) - lag] rows
    (none when [lag >= len(tensor)]), each of [lag] entries, and entry [j]
    of row [n] is [tensor[n + j]].  The window that starts at
    [len(tensor) - lag], the last one that would fit, is not produced. *)
Theorem make_moving_tensor_rows :
  forall (tensor : list A) (lag : nat),
    length (make_moving_tensor tensor lag) = length tensor - lag /\
    (forall n, n < length tensor - lag ->
       exists row,
         nth_error (make_moving_tensor tensor lag) n = Some row /\
         length row = lag /\
         forall j, j < lag -> nth_error row j = nth_error tensor (n + j)) /\
    (forall n, length tensor - lag <= n ->
       nth_error (make_moving_tensor tensor lag) n = None).
Proof.
  intros tensor lag. unfold make_moving_tensor.
  split; [now rewrite length_map, length_seq|]. split.
  - intros n Hn. exists (tensor_slice tensor n lag).
    split; [now apply (nth_error_map_seq (fun k => tensor_slice tensor k lag))|].
    split; [apply tensor_slice_length; lia|].
    intros j Hj. now apply tensor_slice_nth_error.
  - intros n Hn. apply nth_error_None.
    now rewrite length_map, length_seq.
Qed.

Lemma all_but_last_length (sequence : list A) (y_lag : nat) :
  1 <= y_lag ->
  length (all_but_last sequence y_lag) = length sequence - y_lag.
Proof.
  intros H. destruct y_lag as [|k]; [lia|]. unfold all_but_last.
  rewrite length_firstn. lia.
Qed.

(** X2.  For [y_lag >= 1], [make_seq_prediction_data] returns [X] and [y]
    with the same number of rows, [len(sequence) - X_lag - y_lag]; row [n]
    of [X] has [X_lag] entries, row [n] of [y] has [y_lag], and the two put
    end to end are the [X_lag + y_lag] consecutive entries of the sequence
    that start at [n]: each target row is what follows its input row. *)
Theorem make_seq_prediction_data_aligned :
  forall (sequence : list A) (X_lag y_lag : nat),
    1 <= y_lag ->
    let '(X, y) := make_seq_prediction_data sequence X_lag y_lag in
    let rows := length sequence - X_lag - y_lag in
    length X = rows /\
    length y = rows /\
    forall n, n < rows ->
      exists xrow yrow,
        nth_error X n = Some xrow /\
        nth_error y n = Some yrow /\
        length xrow = X_lag /\
        length yrow = y_lag /\
        xrow ++ yrow = firstn (X_lag + y_lag) (skipn n sequence).
Proof.
  intros sequence X_lag y_lag Hy. unfold make_seq_prediction_data.
  cbv zeta. unfold make_moving_tensor.
  rewrite !length_map, !length_seq, all_but_last_length, length_skipn by exact Hy.
  split; [lia|]. split; [lia|].
  intros n Hn.
  exists (tensor_slice (all_but_last sequence y_lag) n X_lag),
         (tensor_slice (skipn X_lag sequence) n y_lag).
  split;
    [apply (nth_error_map_seq
              (fun k => tensor_slice (all_but_last sequence y_lag) k X_lag)); lia|].
  split;
    [apply (nth_error_map_seq
              (fun k => tensor_slice (skipn X_lag sequence) k y_lag)); lia|].
  split; [apply tensor_slice_length; rewrite all_but_last_length; lia|].
  split; [apply tensor_slice_length; rewrite length_skipn; lia|].
  unfold tensor_slice, all_but_last. destruct y_lag as [|k]; [lia|].
  rewrite skipn_firstn_comm, firstn_firstn, Nat.min_l by lia.
  rewrite skipn_skipn, firstn_add_split, skipn_skipn.
  do 3 f_equal. lia.
Qed.

(** X3.  With [y_lag = 0] the slice [sequence[:-0]] is empty, so [X] has no
    row at all, while [y] has [len(sequence) - X_lag] rows, all empty. *)
Theorem make_seq_prediction_data_zero_y_lag :
  forall (sequence : list A) (X_lag : nat),
    make_seq_prediction_data sequence X_lag 0
    = ([], repeat [] (length sequence - X_lag)).
Proof.
  intros sequence X_lag. unfold make_seq_prediction_data, make_moving_tensor.
  simpl all_but_last. simpl length. simpl seq. simpl map.
  rewrite length_skipn, Nat.sub_0_r. f_equal.
  unfold tensor_slice. simpl firstn.
  now rewrite map_const_seq.
Qed.

End TensorProofs.

(** * window_argmaxes *)

Section WindowProofs.

Context {F : Type} {ops : FloatOps F}.

Lemma argmax_scan_bound (rest : list F) (i : nat) (mp : F) (max_ind : nat) :
  max_ind < i -> argmax_scan rest i mp max_ind < i + length rest.
Proof.
  revert i mp max_ind; induction rest as [|ip rest IH]; intros i mp b Hb; simpl.
  - lia.
  - destruct (fisnan mp); [lia|].
    destruct (fltb mp ip || fisnan ip).
    + specialize (IH (S i) ip i). lia.
    + specialize (IH (S i) mp b). lia.
Qed.

Lemma np_argmax_bound (a : list F) (j : nat) :
  np_argmax a = Ok j -> j < length a.
Proof.
  destruct a as [|x rest]; [discriminate|]. simpl. intros H.
  injection H as <-. pose proof (argmax_scan_bound rest 1 x 0). simpl. lia.
Qed.

Lemma np_index_in_bounds {A : Type} (arr : list A) (i : Z) :
  in_bounds (length arr) i -> exists v, np_index arr i = Ok v.
Proof.
  unfold in_bounds, np_index. intros H.
  destruct (Z.ltb_spec i (- Z.of_nat (length arr)));
    destruct (Z.leb_spec (Z.of_nat (length arr)) i); try lia. simpl.
  destruct (nth_error arr _) as [v|] eqn:E; [eauto|].
  apply nth_error_None in E. destruct (Z.ltb_spec i 0); lia.
Qed.

Lemma np_index_out_of_bounds {A : Type} (arr : list A) (i : Z) :
  ~ in_bounds (length arr) i -> np_index arr i = Raise IndexError.
Proof.
  unfold in_bounds, np_index. intros H.
  destruct (Z.ltb_spec i (- Z.of_nat (length arr)));
    destruct (Z.leb_spec (Z.of_nat (length arr)) i); simpl; auto; lia.
Qed.

Lemma np_index_ok_in_bounds {A : Type} (arr : list A) (i : Z) (v : A) :
  np_index arr i = Ok v -> in_bounds (length arr) i.
Proof.
  intros H.
  destruct (Z_lt_dec i (- Z.of_nat (length arr))) as [Hl|Hl];
    [rewrite np_index_out_of_bounds in H by (unfold in_bounds; lia);
     discriminate|].
  destruct (Z_le_dec (Z.of_nat (length arr)) i) as [Hu|Hu];
    [rewrite np_index_out_of_bounds in H by (unfold in_bounds; lia);
     discriminate|].
  unfold in_bounds. lia.
Qed.

Lemma np_take_signed_returns {A : Type} (arr : list A) (inds : list Z) :
  Forall (in_bounds (length arr)) inds ->
  exists vs, np_take_signed arr inds = Ok vs.
Proof.
  induction 1 as [|i inds Hi _ (vs & Hvs)]; simpl; [eauto|].
  destruct (np_index_in_bounds arr i Hi) as (v & ->). rewrite Hvs.
  simpl. eauto.
Qed.

Lemma np_take_signed_spec {A : Type} (arr : list A) (inds : list Z)
  (vs : list A) :
  np_take_signed arr inds = Ok vs ->
  Forall2 (fun i v => np_index arr i = Ok v) inds vs.
Proof.
  revert vs; induction inds as [|i inds IH]; intros vs; simpl.
  - intros H. injection H as <-. constructor.
  - destruct (np_index arr i) as [v|] eqn:Ei; [|discriminate]. cbn [bind].
    destruct (np_take_signed arr inds) as [vs'|]; [|discriminate]. cbn [bind].
    intros H. injection H as <-. constructor; auto.
Qed.

Lemma np_take_signed_raises {A : Type} (arr : list A) (inds : list Z) :
  ~ Forall (in_bounds (length arr)) inds ->
  np_take_signed arr inds = Raise IndexError.
Proof.
  induction inds as [|i inds IH]; intros H; [elim H; constructor|]. simpl.
  destruct (np_index arr i) as [v|e] eqn:Ei.
  - cbn [bind]. rewrite IH; [reflexivity|].
    intros Hall. apply H. constructor; [|exact Hall].
    now apply np_index_ok_in_bounds in Ei.
  - unfold np_index in Ei. cbn [bind].
    destruct ((_ <? _)%Z || (_ <=? _)%Z); [congruence|].
    destruct (nth_error _ _); [discriminate|congruence].
Qed.

(** One window: the index appended is an element of the window. *)
Lemma window_step (window : list Z) (data : list F) :
  usable_window (length data) window ->
  exists seg j w,
    np_take_signed data window = Ok seg /\
    np_argmax seg = Ok j /\
    nth_error window j = Some w.
Proof.
  intros [Hne Hall].
  destruct (np_take_signed_returns data window Hall) as (seg & Hseg).
  pose proof (Forall2_length (np_take_signed_spec _ _ _ Hseg)) as Hlen.
  destruct seg as [|x seg'];
    [destruct window; [congruence|discriminate]|].
  exists (x :: seg'), (argmax_scan seg' 1 x 0).
  destruct (nth_error window (argmax_scan seg' 1 x 0)) as [w|] eqn:Ew.
  - exists w. auto.
  - apply nth_error_None in Ew.
    pose proof (np_argmax_bound (x :: seg') _ eq_refl). lia.
Qed.

(** X4.  [window_argmaxes] returns exactly when every window is non-empty
    and holds only indices [i] with [-len(data) <= i < len(data)].  It then
    returns one index per window, in the order of the windows, and each is
    an element of its window as the window spells it (an index of [data],
    not a position inside the window). *)
Theorem window_argmaxes_returns :
  forall (windows : list (list Z)) (data : list F),
    ((exists argmaxes, window_argmaxes windows data = Ok argmaxes) <->
     Forall (usable_window (length data)) windows) /\
    (forall argmaxes,
       window_argmaxes windows data = Ok argmaxes ->
       Forall2 (fun window w => In w window) windows argmaxes).
Proof.
  intros windows data. split; [split|].
  - induction windows as [|window windows IH]; intros (out & H);
      [constructor|].
    simpl in H.
    destruct (np_take_signed data window) as [seg|] eqn:Eseg; [|discriminate].
    cbn [bind] in H.
    destruct (np_argmax seg) as [j|] eqn:Ej; [|discriminate]. cbn [bind] in H.
    destruct (nth_error window j) as [w|] eqn:Ew; [|discriminate].
    cbn [bind] in H.
    destruct (window_argmaxes windows data) as [rest|] eqn:Er; [|discriminate].
    constructor; [|apply IH; eauto].
    split.
    + intros ->. destruct j; discriminate.
    + apply np_take_signed_spec in Eseg.
      clear -Eseg. induction Eseg; constructor; auto.
      eapply np_index_ok_in_bounds; eauto.
  - induction 1 as [|window windows Hw _ (rest & Hrest)]; [now exists []|].
    destruct (window_step window data Hw) as (seg & j & w & Hs & Hj & Hn).
    simpl. rewrite Hs. cbn [bind]. rewrite Hj. cbn [bind].
    rewrite Hn. cbn [bind]. rewrite Hrest. cbn [bind]. eauto.
  - induction windows as [|window windows IH]; intros out H.
    + injection H as <-. constructor.
    + simpl in H.
      destruct (np_take_signed data window) as [seg|]; [|discriminate].
      cbn [bind] in H.
      destruct (np_argmax seg) as [j|]; [|discriminate]. cbn [bind] in H.
      destruct (nth_error window j) as [w|] eqn:Ew; [|discriminate].
      cbn [bind] in H.
      destruct (window_argmaxes windows data) as [rest|]; [|discriminate].
      cbn [bind] in H. injection H as <-.
      constructor; [eapply nth_error_In; eauto|auto].
Qed.

(** X5.  The exception of the first window the loop cannot get through:
    [IndexError] when it holds an index outside the bounds of [data], and
    [ValueError], from [np.argmax] of an empty selection, when it is
    empty. *)
Theorem window_argmaxes_raises :
  forall (good : list (list Z)) (bad : list Z) (later : list (list Z))
         (data : list F),
    Forall (usable_window (length data)) good ->
    (bad = [] ->
     window_argmaxes (good ++ bad :: later) data = Raise ValueError) /\
    (~ Forall (in_bounds (length data)) bad ->
     window_argmaxes (good ++ bad :: later) data = Raise IndexError).
Proof.
  intros good bad later data Hgood.
  induction Hgood as [|window good Hw _ [IHe IHi]].
  - split.
    + intros ->. reflexivity.
    + intros Hbad. simpl. now rewrite np_take_signed_raises.
  - destruct (window_step window data Hw) as (seg & j & w & Hs & Hj & Hn).
    split; intros Hbad; simpl; rewrite Hs; cbn [bind]; rewrite Hj;
      cbn [bind]; rewrite Hn; cbn [bind].
    + now rewrite IHe.
    + now rewrite IHi.
Qed.

End WindowProofs.

(** * Further properties that hold in every arithmetic *)

Section MoreShapes.

Context {F : Type} {ops : FloatOps F}.

(** ** diff *)

Lemma backward_differences_cons (a b : F) (l : list F) :
  backward_differences (a :: b :: l)
  = fsub b a :: backward_differences (b :: l).
Proof.
  unfold backward_differences.
  change (length (a :: b :: l) - 1) with (S (length l)).
  change (length (b :: l) - 1) with (length l - 0).
  rewrite Nat.sub_0_r. cbn [seq map nth Nat.sub]. f_equal.
  rewrite <- seq_shift, map_map. apply map_ext_in.
  intros k Hk. apply in_seq in Hk.
  destruct k as [|k]; [lia|]. cbn [nth Nat.sub]. now rewrite Nat.sub_0_r.
Qed.

Lemma backward_differences_np_diff (x : list F) :
  backward_differences x = np_diff x.
Proof.
  induction x as [|a [|b l] IH]; try reflexivity.
  rewrite backward_differences_cons, IH. reflexivity.
Qed.

(** X6.  [diff(seq, ghost=False)] is numpy's [np.diff(seq)], and for a
    non-empty sequence [diff(seq, ghost=True)] is that same array with
    [seq[0] - seq[0]] put in front: the ghost changes nothing but the first
    entry. *)
Theorem diff_ghost_prepends :
  forall seq : list F,
    diff seq false = Ok (np_diff seq) /\
    forall s0 rest,
      seq = s0 :: rest ->
      diff seq true = Ok (fsub s0 s0 :: np_diff seq).
Proof.
  intros seq. split.
  - unfold diff. simpl. now rewrite backward_differences_np_diff.
  - intros s0 rest ->. unfold diff. simpl negb. cbv iota.
    now rewrite backward_differences_cons, backward_differences_np_diff.
Qed.

(** ** top_k *)

Lemma insert_sorted_In {A : Type} (p : A -> A -> bool) (x y : A) (l : list A) :
  In y (insert_sorted p x l) <-> y = x \/ In y l.
Proof.
  induction l as [|z l IH]; simpl.
  - intuition.
  - destruct (p x z); simpl; [intuition|]. rewrite IH. intuition.
Qed.

Lemma stable_sort_In {A : Type} (p : A -> A -> bool) (y : A) (l : list A) :
  In y l -> In y (stable_sort p l).
Proof.
  induction l as [|x l IH]; simpl; [auto|].
  intros [->|H]; apply insert_sorted_In; auto.
Qed.

Lemma nth_error_Some_lt {A : Type} (l : list A) (i : nat) (v : A) :
  nth_error l i = Some v -> i < length l.
Proof. intros H. apply nth_error_Some. congruence. Qed.

Lemma np_take_spec {A : Type} (arr : list A) (inds : list nat) (vs : list A) :
  np_take arr inds = Ok vs ->
  Forall2 (fun i v => nth_error arr i = Some v) inds vs.
Proof.
  revert vs; induction inds as [|i inds IH]; intros vs; simpl.
  - intros H. injection H as <-. constructor.
  - destruct (nth_error arr i) as [v|] eqn:Ei; [|discriminate].
    destruct (np_take arr inds) as [vs'|]; [|discriminate]. cbn [bind].
    intros H. injection H as <-. constructor; auto.
Qed.

Lemma np_take_raises {A : Type} (arr : list A) (inds : list nat) (i : nat) :
  In i inds -> length arr <= i -> np_take arr inds = Raise IndexError.
Proof.
  intros Hin Hi. induction inds as [|j inds IH]; [contradiction|]. simpl.
  destruct (nth_error arr j) as [v|] eqn:Ej; [|reflexivity].
  destruct Hin as [->|Hin].
  - apply nth_error_Some_lt in Ej. lia.
  - now rewrite IH.
Qed.

Lemma combine_taken {A B : Type} (a : list A) (b : list B) (inds : list nat)
  (va : list A) (vb : list B) :
  Forall2 (fun i v => nth_error a i = Some v) inds va ->
  Forall2 (fun i v => nth_error b i = Some v) inds vb ->
  Forall (fun p => exists i,
            In i inds /\
            nth_error a i = Some (fst p) /\ nth_error b i = Some (snd p))
         (combine va vb).
Proof.
  intros Ha. revert vb. induction Ha as [|i v inds va Hi Ha IH];
    intros vb Hb; inversion Hb; subst; simpl; constructor.
  - exists i. simpl. auto.
  - eapply Forall_impl; [|apply IH; eassumption].
    intros p (j & Hj & Hja & Hjb). exists j. simpl. auto.
Qed.

(** X7.  Whatever [top_k] returns, every pair of the result is
    [(words[i], indices[i])] for one and the same position [i]: a label
    never gets the value of another label.  This holds also when there are
    more labels than values. *)
Theorem top_k_pairs_are_aligned :
  forall (W : Type) (indices : list F) (words : list W) (k : Z)
         (top : list (W * F)),
    top_k indices words k = Ok top ->
    Forall (fun p => exists i,
              nth_error words i = Some (fst p) /\
              nth_error indices i = Some (snd p)) top.
Proof.
  intros W indices words k top. unfold top_k.
  destruct (np_argpartition indices (- k)) as [p|]; [|discriminate].
  cbn [bind].
  destruct (np_take words _) as [ws|] eqn:Ews; [|discriminate]. cbn [bind].
  destruct (np_take indices _) as [vs|] eqn:Evs; [|discriminate]. cbn [bind].
  intros H. injection H as <-.
  unfold sorted_by_value_desc. apply stable_sort_Forall.
  eapply Forall_impl;
    [|exact (combine_taken _ _ _ _ _ (np_take_spec _ _ _ Ews)
                                      (np_take_spec _ _ _ Evs))].
  intros pr (i & _ & H1 & H2). eauto.
Qed.

(** X8.  With fewer labels than values, [top_k] raises [IndexError]
    whenever all the values are selected ([k = len(indices)] or [k = 0]):
    the position of a value without a label is among those looked up in
    [words]. *)
Theorem top_k_missing_label :
  forall (W : Type) (indices : list F) (words : list W) (k : Z),
    length words < length indices ->
    (k = 0 \/ k = Z.of_nat (length indices))%Z ->
    top_k indices words k = Raise IndexError.
Proof.
  intros W indices words k Hlen Hk. unfold top_k.
  destruct (np_argpartition_returns indices (- k)) as (p & Hp & Hpl & Hpi);
    [lia|].
  rewrite Hp. cbn [bind].
  assert (Hs : slice_from (- k) p = p).
  { unfold slice_from. rewrite Hpl.
    destruct Hk as [->| ->]; simpl.
    - reflexivity.
    - destruct (Z.ltb_spec (- Z.of_nat (length indices)) 0).
      + replace (Z.max _ 0) with 0%Z by lia. reflexivity.
      + replace (Z.to_nat _) with 0%nat by lia. reflexivity. }
  rewrite Hs.
  assert (Hperm : In (length words) p).
  { rewrite (np_argpartition_Ok _ _ _ Hp).
    apply stable_sort_In. apply in_seq. lia. }
  rewrite (np_take_raises words p (length words)) by auto. reflexivity.
Qed.

End MoreShapes.

Section MoreRows.

Context {F : Type} {ops : FloatOps F}.

(** ** row_normalize and row_unnormalize *)

(** [row_normalize(X)] returns one mean and one standard deviation per row,
    those of the row as it was before the call, and leaves in row [r] the
    entries [(X[r][c] - means[r]) / stds[r]]. *)
Lemma row_normalize_by_row :
  forall X : list (list F),
    row_normalize X
    = ((map np_mean X, map np_std X), map normalized_row X).
Proof.
  intros X. unfold row_normalize.
  assert (H : row_normalize_rows X
              = (map normalized_row X, map np_mean X, map np_std X)).
  { induction X as [|row X IH]; [reflexivity|].
    cbn [row_normalize_rows map]. rewrite IH. reflexivity. }
  now rewrite H.
Qed.

Lemma row_unnormalize_full (X : list (list F)) (means stds : list F) :
  length means = length X -> length stds = length X ->
  row_unnormalize X means stds
  = (Ok tt,
     map (fun t => unnormalized_row (fst t) (fst (snd t)) (snd (snd t)))
         (combine X (combine means stds))).
Proof.
  revert means stds; induction X as [|row X IH]; intros [|m means] [|s stds];
    simpl; intros Hm Hs; try lia; [reflexivity|].
  rewrite IH by lia. reflexivity.
Qed.

Lemma row_unnormalize_short (X : list (list F)) (means stds : list F) :
  length means = length stds ->
  length stds < length X ->
  row_unnormalize X means stds
  = (Raise IndexError,
     map (fun t => unnormalized_row (fst t) (fst (snd t)) (snd (snd t)))
         (combine (firstn (length stds) X) (combine means stds))
     ++ skipn (length stds) X).
Proof.
  revert means stds. induction X as [|row X IH]; intros [|m means] [|s stds];
    simpl; intros Hm Hs; try lia; [reflexivity|].
  rewrite IH by lia. reflexivity.
Qed.

(** X9.  Given [j] means and [j] standard deviations, [row_unnormalize]
    overwrites the first [j] rows of [X] with [X[r][c] * stds[r] + means[r]].
    When [j] is the number of rows it raises nothing.  When [j] is smaller
    it raises [IndexError] at row [j], and the [j] rows already overwritten
    stay overwritten while the others are untouched: a failed call is not
    undone. *)
Theorem row_unnormalize_by_row :
  forall (X : list (list F)) (means stds : list F),
    length means = length stds ->
    length stds <= length X ->
    let j := length stds in
    let X' :=
      map (fun t => unnormalized_row (fst t) (fst (snd t)) (snd (snd t)))
          (combine (firstn j X) (combine means stds))
      ++ skipn j X in
    row_unnormalize X means stds
    = (if j =? length X then Ok tt else Raise IndexError, X').
Proof.
  intros X means stds Hm Hs j X'. subst j X'.
  destruct (Nat.eqb_spec (length stds) (length X)) as [E|E].
  - rewrite row_unnormalize_full by lia.
    rewrite E, firstn_all, skipn_all, app_nil_r. reflexivity.
  - apply row_unnormalize_short; lia.
Qed.

End MoreRows.

Section MoreKernelShapes.

Context {F : Type} {ops : FloatOps F} {libm : Libm F}.

(** ** Sizes below two *)

(** X10.  For [L = 0] every kernel function raises [ValueError] ([min] of an
    empty array) when [zn] is true and returns the empty array when it is
    false, whatever the parameters. *)
Theorem kernel_of_length_zero :
  forall (f : family) (p startpt endpt : F),
    kernel f 0 p true startpt endpt = Raise ValueError /\
    kernel f 0 p false startpt endpt = Ok [].
Proof.
  intros f p s e. destruct f; split; reflexivity.
Qed.

(** ** max_rel_change on short arrays *)

(** X11.  [max_rel_change] raises [ValueError] on every array of fewer than
    two elements, with or without the shift: there is no log return to take
    the maximum of (and no minimum of an empty array). *)
Theorem max_rel_change_needs_two :
  forall (arr : list F) (neg : bool),
    length arr <= 1 ->
    max_rel_change arr neg = Raise ValueError.
Proof.
  intros [|x [|y arr]] neg H; simpl in H; try lia;
    destruct neg; reflexivity.
Qed.

Lemma max_change_empty : max_change (@nil F) = Raise ValueError.
Proof. reflexivity. Qed.

(** ** The double-sided cusps are palindromes *)

Lemma np_add_snoc (a b : list F) (x y : F) :
  length a = length b ->
  np_add (a ++ [x]) (b ++ [y]) = np_add a b ++ [fadd x y].
Proof.
  revert b; induction a as [|u a IH]; intros [|v b] H; simpl in *;
    try lia; [reflexivity|].
  now rewrite IH by lia.
Qed.

Lemma rev_np_add (a b : list F) :
  length a = length b -> rev (np_add a b) = np_add (rev a) (rev b).
Proof.
  revert b; induction a as [|u a IH]; intros [|v b] H; simpl in *;
    try lia; [reflexivity|].
  rewrite IH, np_add_snoc by (rewrite ?length_rev; lia). reflexivity.
Qed.

Lemma np_add_comm {law : AddComm F} (a b : list F) :
  np_add a b = np_add b a.
Proof.
  revert b; induction a as [|u a IH]; intros [|v b]; simpl; auto.
  now rewrite IH, add_comm.
Qed.

Lemma add_rev_palindrome {law : AddComm F} (h : list F) :
  rev (np_add h (rev h)) = np_add h (rev h).
Proof.
  rewrite rev_np_add by now rewrite length_rev.
  rewrite rev_involutive. apply np_add_comm.
Qed.

Lemma finish_palindrome (zn : bool) (res k : list F) :
  rev res = res -> finish zn res = Ok k -> rev k = k.
Proof.
  intros Hres. destruct zn; simpl.
  - intros Hk. destruct (zero_norm_is_map _ _ Hk) as (g & ->).
    now rewrite <- map_rev, Hres.
  - intros H. now injection H as <-.
Qed.

(** X12.  In an arithmetic where addition is commutative (double precision
    and exact arithmetic both are), [power_law_cusp], [power_cusp] and
    [exp_cusp] return, for [L >= 1] and with or without normalisation, an
    array that reads the same from both ends: [k[i] = k[L-1-i]]. *)
Theorem double_sided_cusps_are_palindromes :
  forall (law : AddComm F) (L : nat) (p : F) (zn : bool) (startpt endpt : F),
    1 <= L ->
    (exists k, power_law_cusp L p zn startpt endpt = Ok k /\ rev k = k) /\
    (exists k, power_cusp L p zn startpt endpt = Ok k /\ rev k = k) /\
    (exists k, exp_cusp L p zn startpt endpt = Ok k /\ rev k = k).
Proof.
  intros law L p zn s e HL. split; [|split].
  - destruct (power_law_cusp_length L p zn s e HL) as (k & Hk & _).
    exists k. split; [exact Hk|].
    unfold power_law_cusp, power_law_cusp_res in Hk.
    destruct (power_law_zero_cusp L p zn s e) as [h|]; [|discriminate].
    cbn [bind] in Hk.
    exact (finish_palindrome zn _ k (add_rev_palindrome h) Hk).
  - destruct (power_cusp_length L p zn s e HL) as (k & Hk & _).
    exists k. split; [exact Hk|].
    unfold power_cusp in Hk.
    destruct (power_zero_cusp L p zn s e) as [h|]; [|discriminate].
    cbn [bind] in Hk.
    exact (finish_palindrome zn _ k (add_rev_palindrome h) Hk).
  - destruct (exp_cusp_length L p zn s e HL) as (k & Hk & _).
    exists k. split; [exact Hk|].
    unfold exp_cusp in Hk.
    destruct (exp_zero_cusp L p zn s e) as [h|]; [|discriminate].
    cbn [bind] in Hk.
    exact (finish_palindrome zn _ k (add_rev_palindrome h) Hk).
Qed.

End MoreKernelShapes.

(** * Further laws in exact arithmetic *)

Module MoreExact.

Import Binary64 XReal Exact.
Local Open Scope R_scope.

#[export] Instance xreal_add_comm : AddComm xreal.
Proof.
  intros [x| | |] [y| | |]; simpl; try reflexivity. f_equal. lra.
Qed.

(** ** window_argmaxes picks a maximum *)

Lemma argmax_scan_Fin (rr : list R) :
  forall (i : nat) (m : R) (b : nat),
    (b < i)%nat ->
    let j := argmax_scan (map Fin rr) i (Fin m) b in
    (j = b /\ Forall (fun r => r <= m) rr) \/
    ((i <= j < i + length rr)%nat /\
     m < nth (j - i) rr 0 /\
     Forall (fun r => r <= nth (j - i) rr 0) rr).
Proof.
  induction rr as [|r rr IH]; intros i m b Hb; cbn [map argmax_scan].
  - left. split; [reflexivity|constructor].
  - rewrite fisnan_Fin. cbn [orb]. rewrite fltb_Fin, fisnan_Fin.
    destruct (Rlt_dec m r) as [Hlt|Hge]; cbn [orb].
    + right. destruct (IH (S i) r i (Nat.lt_succ_diag_r i))
        as [[Hj Hall]|(Hj & Hv & Hall)].
      * rewrite Hj, Nat.sub_diag. cbn [nth length].
        split; [lia|]. split; [exact Hlt|]. constructor; [lra|exact Hall].
      * set (j := argmax_scan (map Fin rr) (S i) (Fin r) i) in *.
        replace (j - i)%nat with (S (j - S i)) by lia. cbn [nth length].
        split; [lia|]. split; [lra|]. constructor; [lra|exact Hall].
    + destruct (IH (S i) m b (Nat.lt_lt_succ_r _ _ Hb))
        as [[Hj Hall]|(Hj & Hv & Hall)].
      * left. split; [exact Hj|]. constructor; [lra|exact Hall].
      * right.
        set (j := argmax_scan (map Fin rr) (S i) (Fin m) b) in *.
        replace (j - i)%nat with (S (j - S i)) by lia. cbn [nth length].
        split; [lia|]. split; [exact Hv|]. constructor; [lra|exact Hall].
Qed.

Lemma np_argmax_Fin (rs : list R) (j : nat) :
  np_argmax (map Fin rs) = Ok j ->
  Forall (fun r => r <= nth j rs 0) rs.
Proof.
  destruct rs as [|x rr]; [discriminate|]. cbn [map np_argmax].
  intros H. injection H as <-.
  destruct (argmax_scan_Fin rr 1 x 0 Nat.lt_0_1) as [[Hj Hall]|(Hj & Hv & Hall)].
  - rewrite Hj. cbn [nth]. constructor; [lra|exact Hall].
  - set (j := argmax_scan (map Fin rr) 1 (Fin x) 0) in *.
    replace j with (S (j - 1)) by lia. cbn [nth].
    constructor; [lra|exact Hall].
Qed.

Lemma np_index_Fin (rd : list R) (i : Z) (v : xreal) :
  np_index (map Fin rd) i = Ok v -> exists r, v = Fin r.
Proof.
  unfold np_index. destruct ((_ <? _)%Z || (_ <=? _)%Z); [discriminate|].
  destruct (nth_error _ _) as [u|] eqn:E; [|discriminate].
  intros H. injection H as <-.
  apply nth_error_In, in_map_iff in E. destruct E as (r & <- & _). eauto.
Qed.

Lemma taken_values_Fin (rd : list R) (window : list Z) (seg : list xreal) :
  Forall2 (fun i v => np_index (map Fin rd) i = Ok v) window seg ->
  exists rs,
    seg = map Fin rs /\
    Forall2 (fun i r => np_index (map Fin rd) i = Ok (Fin r)) window rs.
Proof.
  induction 1 as [|i v window seg Hi _ (rs & -> & Hrs)].
  - exists []. split; [reflexivity|constructor].
  - destruct (np_index_Fin rd i v Hi) as (r & ->).
    exists (r :: rs). split; [reflexivity|]. now constructor.
Qed.

Lemma Forall2_nth_error_l {A B : Type} (P : A -> B -> Prop)
  (l : list A) (l' : list B) (n : nat) (x : A) :
  Forall2 P l l' -> nth_error l n = Some x ->
  exists y, nth_error l' n = Some y /\ P x y.
Proof.
  intros H. revert n. induction H as [|a b l l' Hab _ IH]; intros [|n] Hn;
    simpl in *; try discriminate.
  - injection Hn as <-. eauto.
  - now apply IH.
Qed.

(** X13.  In exact arithmetic, over finite data, the index returned for a
    window points at a largest of the values the window selects: no index
    of the window selects a larger value. *)
Theorem window_argmaxes_are_maximal :
  forall (windows : list (list Z)) (rd : list R) (argmaxes : list Z),
    window_argmaxes windows (map Fin rd) = Ok argmaxes ->
    Forall2
      (fun window w =>
         exists vw,
           np_index (map Fin rd) w = Ok (Fin vw) /\
           forall i vi,
             In i window -> np_index (map Fin rd) i = Ok (Fin vi) -> vi <= vw)
      windows argmaxes.
Proof.
  induction windows as [|window windows IH]; intros rd out H.
  - injection H as <-. constructor.
  - cbn [window_argmaxes] in H.
    destruct (np_take_signed (map Fin rd) window) as [seg|] eqn:Eseg;
      [|discriminate].
    cbn [bind] in H.
    destruct (np_argmax seg) as [j|] eqn:Ej; [|discriminate]. cbn [bind] in H.
    destruct (nth_error window j) as [w|] eqn:Ew; [|discriminate].
    cbn [bind] in H.
    destruct (window_argmaxes windows (map Fin rd)) as [rest|] eqn:Er;
      [|discriminate].
    cbn [bind] in H. injection H as <-.
    constructor; [|now apply IH].
    apply np_take_signed_spec in Eseg.
    destruct (taken_values_Fin rd window seg Eseg) as (rs & -> & Hrs).
    pose proof (np_argmax_Fin rs j Ej) as Hmax.
    destruct (Forall2_nth_error_l _ _ _ j w Hrs Ew) as (vw & Hvw & Hw).
    exists vw. split; [exact Hw|].
    intros i vi Hin Hi.
    apply In_nth_error in Hin. destruct Hin as (n & Hn).
    destruct (Forall2_nth_error_l _ _ _ n i Hrs Hn) as (vi' & Hvi' & Hi').
    rewrite Hi in Hi'. injection Hi' as ->.
    rewrite Forall_forall in Hmax.
    rewrite (nth_error_nth _ _ 0 Hvw) in Hmax.
    apply Hmax. eapply nth_error_In; eauto.
Qed.

(** ** top_k returns the largest values, largest first *)

Lemma insert_sorted_perm {A : Type} (p : A -> A -> bool) (x : A) (l : list A) :
  Permutation (x :: l) (insert_sorted p x l).
Proof.
  induction l as [|y l IH]; simpl; [reflexivity|].
  destruct (p x y); [reflexivity|].
  rewrite perm_swap. now constructor.
Qed.

Lemma stable_sort_perm {A : Type} (p : A -> A -> bool) (l : list A) :
  Permutation l (stable_sort p l).
Proof.
  induction l as [|x l IH]; simpl; [reflexivity|].
  rewrite <- insert_sorted_perm. now constructor.
Qed.

(** Insertion keeps a list sorted for a relation the test decides. *)
Lemma insert_sorted_sorted {A : Type} (p : A -> A -> bool)
  (Rel : A -> A -> Prop) (D : A -> Prop) :
  (forall x y, D x -> D y -> p x y = true -> Rel x y) ->
  (forall x y, D x -> D y -> p x y = false -> Rel y x) ->
  (forall x y z, Rel x y -> Rel y z -> Rel x z) ->
  forall x l, D x -> Forall D l ->
    StronglySorted Rel l -> StronglySorted Rel (insert_sorted p x l).
Proof.
  intros Ht Hf Htrans x l Hx Hl Hs.
  induction Hs as [|y l Hs IH Hy]; simpl.
  - repeat constructor.
  - inversion Hl as [|? ? Dy Dl]; subst.
    destruct (p x y) eqn:E.
    + constructor; [now constructor|].
      constructor; [now apply Ht|].
      eapply Forall_impl; [|exact Hy]. intros z Hz.
      eapply Htrans; [apply Ht|]; eauto.
    + constructor; [now apply IH|].
      apply Forall_forall. intros z Hz.
      apply insert_sorted_In in Hz. destruct Hz as [->|Hz].
      * now apply Hf.
      * rewrite Forall_forall in Hy. now apply Hy.
Qed.

Lemma stable_sort_sorted {A : Type} (p : A -> A -> bool)
  (Rel : A -> A -> Prop) (D : A -> Prop) :
  (forall x y, D x -> D y -> p x y = true -> Rel x y) ->
  (forall x y, D x -> D y -> p x y = false -> Rel y x) ->
  (forall x y z, Rel x y -> Rel y z -> Rel x z) ->
  forall l, Forall D l -> StronglySorted Rel (stable_sort p l).
Proof.
  intros Ht Hf Htrans l Hl. induction Hl as [|x l Hx Hl IH]; simpl.
  - constructor.
  - apply (insert_sorted_sorted p Rel D); auto.
    now apply stable_sort_Forall.
Qed.

Lemma StronglySorted_app_cross {A : Type} (Rel : A -> A -> Prop)
  (l1 l2 : list A) :
  StronglySorted Rel (l1 ++ l2) ->
  forall x y, In x l1 -> In y l2 -> Rel x y.
Proof.
  induction l1 as [|a l1 IH]; intros Hs x y Hx Hy; [contradiction|].
  simpl in Hs. apply StronglySorted_inv in Hs. destruct Hs as [Hs Ha].
  destruct Hx as [->|Hx].
  - rewrite Forall_forall in Ha. apply Ha, in_or_app. now right.
  - now apply IH.
Qed.

Lemma StronglySorted_map {A B : Type} (f : A -> B) (Rel : B -> B -> Prop)
  (l : list A) :
  StronglySorted (fun x y => Rel (f x) (f y)) l ->
  StronglySorted Rel (map f l).
Proof.
  induction 1 as [|x l _ IH Hx]; simpl; constructor; auto.
  now rewrite Forall_map.
Qed.

Lemma taken_Fin (rv : list R) (inds : list nat) (vs : list xreal) :
  Forall2 (fun i v => nth_error (map Fin rv) i = Some v) inds vs ->
  vs = map (fun i => Fin (nth i rv 0)) inds.
Proof.
  induction 1 as [|i v inds vs Hi _ IH]; [reflexivity|]. simpl.
  rewrite <- IH. f_equal.
  rewrite nth_error_map in Hi.
  destruct (nth_error rv i) as [r|] eqn:E; [|discriminate].
  injection Hi as <-. now rewrite (nth_error_nth _ _ 0 E).
Qed.

Lemma map_snd_combine {A B : Type} (a : list A) (b : list B) :
  length a = length b -> map snd (combine a b) = b.
Proof.
  revert b; induction a as [|x a IH]; intros [|y b] H; simpl in *;
    try lia; [reflexivity|].
  now rewrite IH by lia.
Qed.

(** What [top_k] computes on finite values: the positions in increasing
    order of their values, cut in two, and the pairs of the second part. *)
Lemma top_k_unfold (W : Type) (rv : list R) (words : list W) (k : Z)
  (top : list (W * xreal)) :
  top_k (map Fin rv) words k = Ok top ->
  exists (others selected : list nat) (ws : list W),
    Permutation (seq 0 (length rv)) (others ++ selected) /\
    StronglySorted (fun i j => nth i rv 0 <= nth j rv 0) (others ++ selected) /\
    length ws = length selected /\
    top = sorted_by_value_desc
            (combine ws (map (fun i => Fin (nth i rv 0)) selected)).
Proof.
  unfold top_k, np_argpartition. rewrite length_map.
  destruct (negb _ && _); [discriminate|]. cbn [bind].
  set (p := stable_sort _ _).
  assert (Hperm : Permutation (seq 0 (length rv)) p) by apply stable_sort_perm.
  assert (Hs : StronglySorted (fun i j => nth i rv 0 <= nth j rv 0) p).
  { apply (stable_sort_sorted _ _ (fun _ => True)).
    - intros i j _ _ H. apply negb_true_iff in H.
      change (@fzero xreal xreal_ops) with (Fin 0) in H.
      rewrite !map_nth, fltb_Fin in H.
      destruct (Rlt_dec _ _); [discriminate|lra].
    - intros i j _ _ H. apply negb_false_iff in H.
      change (@fzero xreal xreal_ops) with (Fin 0) in H.
      rewrite !map_nth, fltb_Fin in H.
      destruct (Rlt_dec _ _); [lra|discriminate].
    - intros x y z; lra.
    - apply Forall_forall. auto. }
  assert (Hcut : exists m, slice_from (- k) p = skipn m p).
  { unfold slice_from. destruct (- k <? 0)%Z; eauto. }
  destruct Hcut as (m & ->).
  destruct (np_take words (skipn m p)) as [ws|] eqn:Ews; [|discriminate].
  cbn [bind].
  destruct (np_take (map Fin rv) (skipn m p)) as [vs|] eqn:Evs; [|discriminate].
  cbn [bind]. intros H. injection H as <-.
  exists (firstn m p), (skipn m p), ws.
  rewrite firstn_skipn. split; [exact Hperm|]. split; [exact Hs|].
  split.
  - symmetry. exact (Forall2_length (np_take_spec _ _ _ Ews)).
  - now rewrite (taken_Fin rv _ vs (np_take_spec _ _ _ Evs)).
Qed.

(** X14.  In exact arithmetic, over finite indicator values, the pairs
    [top_k] returns are in descending order of their values. *)
Theorem top_k_is_sorted_descending :
  forall (W : Type) (rv : list R) (words : list W) (k : Z)
         (top : list (W * xreal)),
    top_k (map Fin rv) words k = Ok top ->
    exists vals : list R,
      map snd top = map Fin vals /\
      StronglySorted (fun a b => b <= a) vals.
Proof.
  intros W rv words k top H.
  destruct (top_k_unfold W rv words k top H)
    as (others & selected & ws & _ & _ & Hlen & ->).
  set (pairs := combine ws (map (fun i => Fin (nth i rv 0)) selected)).
  assert (HD : Forall (fun p : W * xreal => snd p = Fin (value_of p)) pairs).
  { apply Forall_forall. intros [w v] Hin. apply in_combine_r in Hin.
    apply in_map_iff in Hin. destruct Hin as (i & <- & _). reflexivity. }
  exists (map value_of (sorted_by_value_desc pairs)). split.
  - rewrite map_map. apply map_ext_in. intros p Hp.
    assert (Hall : Forall (fun p : W * xreal => snd p = Fin (value_of p))
                     (sorted_by_value_desc pairs))
      by now apply stable_sort_Forall.
    rewrite Forall_forall in Hall. now apply Hall.
  - apply StronglySorted_map.
    apply (stable_sort_sorted _ _ (fun p : W * xreal => snd p = Fin (value_of p)));
      [| | |exact HD].
    + intros x y Hx Hy Hp. apply negb_true_iff in Hp.
      rewrite Hx, Hy, fltb_Fin in Hp. destruct (Rlt_dec _ _); [discriminate|lra].
    + intros x y Hx Hy Hp. apply negb_false_iff in Hp.
      rewrite Hx, Hy, fltb_Fin in Hp. destruct (Rlt_dec _ _); [lra|discriminate].
    + intros x y z; lra.
Qed.

(** X15.  In exact arithmetic, over finite indicator values, [top_k]
    returns the largest ones: the positions split into the [selected] ones,
    whose values are the values returned, and the others, and no value at
    another position exceeds a value at a selected one. *)
Theorem top_k_selects_the_largest :
  forall (W : Type) (rv : list R) (words : list W) (k : Z)
         (top : list (W * xreal)),
    top_k (map Fin rv) words k = Ok top ->
    exists others selected : list nat,
      Permutation (seq 0 (length rv)) (others ++ selected) /\
      Permutation (map snd top) (map (fun i => Fin (nth i rv 0)) selected) /\
      forall i j, In i others -> In j selected -> nth i rv 0 <= nth j rv 0.
Proof.
  intros W rv words k top H.
  destruct (top_k_unfold W rv words k top H)
    as (others & selected & ws & Hperm & Hs & Hlen & ->).
  exists others, selected. split; [exact Hperm|]. split.
  - unfold sorted_by_value_desc. rewrite <- stable_sort_perm.
    rewrite map_snd_combine by now rewrite length_map. reflexivity.
  - now apply StronglySorted_app_cross.
Qed.

(** ** normalize gives zero mean and unit variance *)

Lemma Rsum_map_ext (f g : R -> R) (l : list R) :
  (forall v, In v l -> f v = g v) -> Rsum (map f l) = Rsum (map g l).
Proof.
  intros H. now rewrite (map_ext_in f g l H).
Qed.

Lemma Rsum_map_scale (c : R) (f : R -> R) (l : list R) :
  Rsum (map (fun v => c * f v) l) = c * Rsum (map f l).
Proof. induction l as [|x l IH]; simpl; [lra|rewrite IH; lra]. Qed.

Lemma Rsum_map_centered (l : list R) (m s : R) :
  s <> 0 ->
  Rsum (map (fun v => (v - m) / s) l) = (Rsum l - INR (length l) * m) / s.
Proof.
  intros Hs. induction l as [|x l IH].
  - simpl. field. exact Hs.
  - change (length (x :: l)) with (S (length l)). rewrite S_INR.
    simpl. rewrite IH. field. exact Hs.
Qed.

Lemma std_nonzero (row : list R) :
  ~ constant row -> R_sqrt.sqrt (Rvar row) <> 0.
Proof.
  intros H. pose proof (sqrt_lt_R0 _ (Rvar_pos row H)). lra.
Qed.

Lemma not_constant_nonempty (row : list R) : ~ constant row -> row <> [].
Proof. intros H ->. apply H. intros x y []. Qed.

Lemma zscores_mean (row : list R) : ~ constant row -> Rmean (zscores row) = 0.
Proof.
  intros H. pose proof (std_nonzero row H) as Hs.
  pose proof (nonempty_INR row (not_constant_nonempty row H)) as Hn.
  unfold Rmean at 1, zscores. rewrite length_map, Rsum_map_centered by exact Hs.
  unfold Rmean. field. split; lra.
Qed.

Lemma zscores_var (row : list R) : ~ constant row -> Rvar (zscores row) = 1.
Proof.
  intros H. pose proof (std_nonzero row H) as Hs.
  pose proof (nonempty_INR row (not_constant_nonempty row H)) as Hn.
  pose proof (Rvar_pos row H) as Hv.
  unfold Rvar at 1. rewrite (zscores_mean row H).
  unfold zscores at 1 2. rewrite length_map, map_map.
  set (s := R_sqrt.sqrt (Rvar row)) in *.
  rewrite (Rsum_map_ext _
             (fun v => / (s * s) * ((v - Rmean row) * (v - Rmean row)))).
  - rewrite Rsum_map_scale.
    assert (Hss : s * s = Rvar row) by (apply sqrt_sqrt; lra).
    rewrite Hss. unfold Rvar. field. split; [lra|].
    intros H0. unfold Rvar in Hv. rewrite H0 in Hv.
    unfold Rdiv in Hv. lra.
  - intros v _. field. exact Hs.
Qed.

Lemma normalized_row_Fin (row : list R) :
  ~ constant row -> normalized_row (map Fin row) = map Fin (zscores row).
Proof.
  intros H. pose proof (std_nonzero row H) as Hs.
  pose proof (not_constant_nonempty row H) as Hne.
  unfold normalized_row. rewrite np_mean_Fin, np_std_Fin by exact Hne.
  unfold zscores. rewrite !map_map. apply map_ext. intros v.
  now rewrite fsub_Fin, fdiv_Fin.
Qed.

(** X16.  In exact arithmetic, for a finite array that is not constant,
    [normalize(arr, stats=True)] returns the mean and the (population)
    standard deviation of [arr] together with an array whose mean is [0]
    and whose variance is [1]. *)
Theorem normalize_standardizes :
  forall arr : list R,
    ~ constant arr ->
    exists z : list R,
      normalize (map Fin arr) true
      = NormedStats (map Fin z) (Fin (Rmean arr))
                    (Fin (R_sqrt.sqrt (Rvar arr))) /\
      length z = length arr /\
      Rmean z = 0 /\
      Rvar z = 1.
Proof.
  intros arr H. exists (zscores arr).
  pose proof (std_nonzero arr H) as Hs.
  pose proof (not_constant_nonempty arr H) as Hne.
  split; [|split; [|split]].
  - unfold normalize. cbv zeta. simpl negb. cbv iota.
    rewrite np_mean_Fin, np_std_Fin by exact Hne. f_equal.
    unfold zscores. rewrite !map_map. apply map_ext. intros v.
    now rewrite fsub_Fin, fdiv_Fin.
  - unfold zscores. now rewrite length_map.
  - now apply zscores_mean.
  - now apply zscores_var.
Qed.

(** X17.  In exact arithmetic, for a finite matrix without a constant row,
    [row_normalize] returns the mean and the standard deviation of every
    row and leaves in [X] rows of mean [0] and variance [1], of the lengths
    they had. *)
Theorem row_normalize_standardizes :
  forall X : list (list R),
    (forall row, In row X -> ~ constant row) ->
    exists Z : list (list R),
      row_normalize (map (map Fin) X)
      = ((map Fin (map Rmean X),
          map Fin (map (fun row => R_sqrt.sqrt (Rvar row)) X)),
         map (map Fin) Z) /\
      Forall2 (fun row z => length z = length row /\ Rmean z = 0 /\ Rvar z = 1)
              X Z.
Proof.
  intros X HX. exists (map zscores X). split.
  - rewrite row_normalize_by_row. rewrite !map_map.
    f_equal; [f_equal|]; apply map_ext_in; intros row Hrow;
      pose proof (not_constant_nonempty row (HX row Hrow)).
    + now apply np_mean_Fin.
    + now apply np_std_Fin.
    + apply normalized_row_Fin. now apply HX.
  - induction X as [|row X IH]; simpl; constructor.
    + assert (Hrow : ~ constant row) by (apply HX; now left).
      split; [unfold zscores; now rewrite length_map|].
      split; [now apply zscores_mean|now apply zscores_var].
    + apply IH. intros r Hr. apply HX. now right.
Qed.

(** ** diff telescopes *)

Lemma last_cons (y x : R) (l : list R) : last (y :: l) x = last l y.
Proof.
  revert y x; induction l as [|z l IH]; intros y x; [reflexivity|].
  change (last (y :: z :: l) x) with (last (z :: l) x).
  now rewrite !IH.
Qed.

Lemma Rsum_Rdiff (x : R) (l : list R) : Rsum (Rdiff (x :: l)) = last l x - x.
Proof.
  revert x; induction l as [|y l IH]; intros x.
  - simpl. lra.
  - change (Rsum (Rdiff (x :: y :: l)))
      with ((y - x) + Rsum (Rdiff (y :: l))).
    rewrite IH, last_cons. lra.
Qed.

(** X18.  In exact arithmetic, the differences of a finite sequence add up
    to its last entry minus its first, with and without the ghost element
    (whose difference is [0]). *)
Theorem diff_telescopes :
  forall (x : R) (l : list R),
    exists ds : list R,
      diff (map Fin (x :: l)) false = Ok (map Fin ds) /\
      diff (map Fin (x :: l)) true = Ok (map Fin (0 :: ds)) /\
      Rsum ds = last l x - x.
Proof.
  intros x l. exists (Rdiff (x :: l)). split; [|split].
  - unfold diff. simpl negb. cbv iota.
    now rewrite backward_differences_np_diff, np_diff_Fin.
  - unfold diff. simpl negb. cbv iota. cbn [map].
    rewrite backward_differences_cons, backward_differences_np_diff.
    change (Fin x :: map Fin l) with (map Fin (x :: l)).
    rewrite np_diff_Fin, fsub_Fin. cbn [map]. do 2 f_equal. f_equal. lra.
  - apply Rsum_Rdiff.
Qed.

(** ** max_change *)

Lemma fold_Rmin_In (l : list R) (x : R) : In (fold_left Rmin l x) (x :: l).
Proof.
  revert x; induction l as [|y l IH]; intros x; simpl; [auto|].
  destruct (IH (Rmin x y)) as [H|H]; [|auto].
  rewrite <- H. unfold Rmin. destruct (Rle_dec x y); auto.
Qed.

Lemma fold_Rmax_In (l : list R) (x : R) : In (fold_left Rmax l x) (x :: l).
Proof.
  revert x; induction l as [|y l IH]; intros x; simpl; [auto|].
  destruct (IH (Rmax x y)) as [H|H]; [|auto].
  rewrite <- H. unfold Rmax. destruct (Rle_dec x y); auto.
Qed.

Lemma list_min_In (l : list R) : l <> [] -> In (list_min l) l.
Proof. destruct l as [|x l]; [congruence|]. intros _. apply fold_Rmin_In. Qed.

Lemma list_max_In (l : list R) : l <> [] -> In (list_max l) l.
Proof. destruct l as [|x l]; [congruence|]. intros _. apply fold_Rmax_In. Qed.

(** X19.  In exact arithmetic, [max_change] of a non-empty finite array is
    a finite value, never negative, and it is zero exactly when all the
    entries are equal. *)
Theorem max_change_is_a_range :
  forall arr : list R,
    arr <> [] ->
    exists r : R,
      max_change (map Fin arr) = Ok (Fin r) /\
      0 <= r /\
      (r = 0 <-> constant arr).
Proof.
  intros arr Hne. exists (list_max arr - list_min arr).
  pose proof (list_min_le arr) as Hmin. pose proof (list_max_ge arr) as Hmax.
  rewrite Forall_forall in Hmin, Hmax.
  pose proof (list_min_In arr Hne) as Himin.
  pose proof (list_max_In arr Hne) as Himax.
  split; [|split].
  - destruct arr as [|x l]; [congruence|].
    unfold max_change. rewrite np_max_Fin, np_min_Fin. cbn [bind].
    now rewrite fsub_Fin.
  - specialize (Hmin _ Himax). lra.
  - split.
    + intros H0 x y Hx Hy.
      pose proof (Hmin x Hx). pose proof (Hmax x Hx).
      pose proof (Hmin y Hy). pose proof (Hmax y Hy). lra.
    + intros Hc. rewrite (Hc _ _ Himax Himin). lra.
Qed.

(** ** zero_norm does not see an increasing affine change *)

Lemma fold_Rmin_increasing (f : R -> R) (l : list R) (x : R) :
  (forall u v, u <= v -> f u <= f v) ->
  fold_left Rmin (map f l) (f x) = f (fold_left Rmin l x).
Proof.
  intros Hf. revert x; induction l as [|y l IH]; intros x; simpl;
    [reflexivity|].
  rewrite <- IH. f_equal.
  unfold Rmin. destruct (Rle_dec x y) as [H|H], (Rle_dec (f x) (f y)) as [H'|H'];
    try reflexivity.
  - elim H'. now apply Hf.
  - assert (f y <= f x) by (apply Hf; lra). lra.
Qed.

Lemma fold_Rmax_increasing (f : R -> R) (l : list R) (x : R) :
  (forall u v, u <= v -> f u <= f v) ->
  fold_left Rmax (map f l) (f x) = f (fold_left Rmax l x).
Proof.
  intros Hf. revert x; induction l as [|y l IH]; intros x; simpl;
    [reflexivity|].
  rewrite <- IH. f_equal.
  unfold Rmax. destruct (Rle_dec x y) as [H|H], (Rle_dec (f x) (f y)) as [H'|H'];
    try reflexivity.
  - elim H'. now apply Hf.
  - assert (f y <= f x) by (apply Hf; lra). lra.
Qed.

Lemma list_min_increasing (f : R -> R) (l : list R) :
  l <> [] -> (forall u v, u <= v -> f u <= f v) ->
  list_min (map f l) = f (list_min l).
Proof.
  destruct l as [|x l]; [congruence|]. intros _ Hf.
  now apply fold_Rmin_increasing.
Qed.

Lemma list_max_increasing (f : R -> R) (l : list R) :
  l <> [] -> (forall u v, u <= v -> f u <= f v) ->
  list_max (map f l) = f (list_max l).
Proof.
  destruct l as [|x l]; [congruence|]. intros _ Hf.
  now apply fold_Rmax_increasing.
Qed.

Lemma affine_increasing (a b : R) :
  0 < a -> forall u v, u <= v -> a * u + b <= a * v + b.
Proof. intros Ha u v Huv. nra. Qed.

Lemma zero_norm_R_affine (ra : list R) (a b : R) :
  0 < a -> ra <> [] -> list_max ra - list_min ra <> 0 ->
  let ra' := map (fun v => a * v + b) ra in
  ra' <> [] /\
  list_max ra' - list_min ra' <> 0 /\
  zero_norm_R ra' = zero_norm_R ra.
Proof.
  intros Ha Hne Hd ra'.
  assert (Hmin : list_min ra' = a * list_min ra + b)
    by (apply list_min_increasing; auto using affine_increasing).
  assert (Hmax : list_max ra' = a * list_max ra + b)
    by (apply list_max_increasing; auto using affine_increasing).
  split; [unfold ra'; destruct ra; [congruence|discriminate]|].
  split.
  - rewrite Hmin, Hmax. intros H. apply Hd. nra.
  - unfold zero_norm_R. rewrite Hmin, Hmax. unfold ra'.
    assert (Hss : map (rescale (a * list_min ra + b) (a * list_max ra + b))
                      (map (fun v => a * v + b) ra)
                  = map (rescale (list_min ra) (list_max ra)) ra).
    { rewrite map_map. apply map_ext. intros v. unfold rescale. field.
      split; [lra|nra]. }
    now rewrite Hss.
Qed.

(** X20.  In exact arithmetic [zero_norm] does not see an increasing affine
    change of a finite array that is not constant:
    [zero_norm(a * arr + b) = zero_norm(arr)] for [a > 0]. *)
Theorem zero_norm_affine_invariant :
  forall (ra : list R) (a b : R),
    0 < a ->
    ra <> [] ->
    list_max ra - list_min ra <> 0 ->
    zero_norm (map Fin (map (fun v => a * v + b) ra)) = zero_norm (map Fin ra).
Proof.
  intros ra a b Ha Hne Hd.
  destruct (zero_norm_R_affine ra a b Ha Hne Hd) as (Hne' & Hd' & Heq).
  rewrite !zero_norm_Fin by assumption. now rewrite Heq.
Qed.

Lemma zero_norm_R_is_affine (ra : list R) :
  ra <> [] -> list_max ra - list_min ra <> 0 ->
  exists a b, 0 < a /\ zero_norm_R ra = map (fun v => a * v + b) ra.
Proof.
  intros Hne Hd. pose proof (list_min_lt_max ra Hne Hd) as Hlt.
  unfold zero_norm_R.
  set (mn := list_min ra) in *. set (mx := list_max ra) in *.
  set (m := Rsum _ / _).
  exists (2 / (mx - mn)), (- 2 * mn / (mx - mn) - 1 - m). split.
  - apply Rdiv_lt_0_compat; lra.
  - rewrite map_map. apply map_ext. intros v. unfold rescale. field. lra.
Qed.

(** X21.  In exact arithmetic [zero_norm] is idempotent where it returns
    finite values: normalising a normalised array gives it back.  (So the
    inner [zn] of the kernel functions matters only through the sums it
    feeds.) *)
Theorem zero_norm_idempotent :
  forall a k : list xreal,
    zero_norm a = Ok k ->
    Forall finite k ->
    zero_norm k = Ok k.
Proof.
  intros a k Hz Hk.
  destruct (zero_norm_finite_inv a k Hz Hk) as (ra & -> & Hne & Hd).
  rewrite zero_norm_Fin in Hz by assumption. injection Hz as <-.
  destruct (zero_norm_R_is_affine ra Hne Hd) as (al & be & Hal & Haff).
  destruct (zero_norm_R_affine ra al be Hal Hne Hd) as (Hne' & Hd' & Heq).
  cbv zeta in *. rewrite <- Haff in *.
  rewrite zero_norm_Fin by assumption. now rewrite Heq.
Qed.

(** ** max_rel_change is a relative measure *)

Lemma Rdiff_shift (k : R) (l : list R) :
  Rdiff (map (fun t => k + t) l) = Rdiff l.
Proof.
  induction l as [|x [|y l] IH]; try reflexivity.
  change (Rdiff (map (fun t => k + t) (x :: y :: l)))
    with ((k + y - (k + x)) :: Rdiff (map (fun t => k + t) (y :: l))).
  rewrite IH. change (Rdiff (x :: y :: l)) with ((y - x) :: Rdiff (y :: l)).
  f_equal. lra.
Qed.

(** X22.  In exact arithmetic, with [neg=True], adding one constant to
    every entry of a finite array does not change [max_rel_change]: only
    the distances to the minimum enter. *)
Theorem max_rel_change_shift_invariant :
  forall (ra : list R) (c : R),
    max_rel_change (map Fin (map (fun v => v + c) ra)) true
    = max_rel_change (map Fin ra) true.
Proof.
  intros ra c. destruct ra as [|x l]; [reflexivity|].
  unfold max_rel_change.
  rewrite !shifted_Fin by discriminate.
  rewrite list_min_increasing by (try discriminate; intros; lra).
  assert (H : map (fun v => v - (list_min (x :: l) + c) + 1)
                  (map (fun v => v + c) (x :: l))
              = map (fun v => v - list_min (x :: l) + 1) (x :: l))
    by (rewrite map_map; apply map_ext; intros v; lra).
  now rewrite H.
Qed.

(** X23.  In exact arithmetic, without the shift ([neg=False]), multiplying
    every entry of a positive finite array by one positive factor does not
    change [max_rel_change]: the log returns are the same. *)
Theorem max_rel_change_scale_invariant :
  forall (ra : list R) (c : R),
    0 < c ->
    Forall (fun v => 0 < v) ra ->
    max_rel_change (map Fin (map (fun v => c * v) ra)) false
    = max_rel_change (map Fin ra) false.
Proof.
  intros ra c Hc Hpos. unfold max_rel_change. cbn [bind].
  assert (H1 : map flog10 (map Fin ra)
               = map Fin (map (fun v => ln v / ln 10) ra)).
  { rewrite !map_map. apply map_ext_in. intros v Hv.
    rewrite Forall_forall in Hpos. now apply flog10_Fin, Hpos. }
  assert (H2 : map flog10 (map Fin (map (fun v => c * v) ra))
               = map Fin (map (fun t => ln c / ln 10 + t)
                              (map (fun v => ln v / ln 10) ra))).
  { rewrite !map_map. apply map_ext_in. intros v Hv.
    rewrite Forall_forall in Hpos. specialize (Hpos v Hv).
    rewrite flog10_Fin by (apply Rmult_lt_0_compat; assumption).
    f_equal. rewrite ln_mult by assumption. unfold Rdiv. lra. }
  now rewrite H1, H2, !np_diff_Fin, Rdiff_shift.
Qed.

(** ** Kernels of length one and two *)

Lemma zero_norm_singleton (v : xreal) : zero_norm [v] = Ok [NaN].
Proof.
  destruct v as [r| | |]; try reflexivity.
  unfold zero_norm, py_min, py_max. cbn [fold_left bind map]. cbv zeta.
  rewrite rescale_constant_is_NaN. reflexivity.
Qed.

Lemma linspace_one (s e : xreal) : exists v, np_linspace s e 1 = [v].
Proof. unfold np_linspace. cbn. eauto. Qed.

(** X24.  For [L = 1] and [zn=True] every kernel function returns the one
    value NaN, in exact arithmetic and whatever the parameters (finite or
    not): the single sample is a constant array for [zero_norm]. *)
Theorem kernel_of_length_one_is_nan :
  forall (f : family) (p startpt endpt : xreal),
    kernel f 1 p true startpt endpt = Ok [NaN].
Proof.
  intros f p s e.
  destruct (linspace_one s e) as (v & Hv).
  destruct f; unfold kernel, haar, power_law_cusp, power_law_cusp_res,
    power_cusp, pitchfork, exp_cusp, power_law_zero_cusp, power_zero_cusp,
    exp_zero_cusp, haar_res, np_ones; cbv zeta; rewrite ?Hv;
    cbn [map length Nat.div Nat.divmod fst assign_from assign_upto firstn
         skipn app repeat finish];
    rewrite ?zero_norm_singleton; cbn [bind np_add rev app];
    rewrite ?zero_norm_singleton; cbn [bind np_add rev app];
    rewrite ?zero_norm_singleton; reflexivity.
Qed.

Lemma linspace_two (s e : R) :
  exists s', np_linspace (Fin s) (Fin e) 2 = [Fin s'; Fin e] /\ s' = s.
Proof.
  unfold np_linspace.
  cbn [Nat.sub Nat.ltb Nat.leb seq map Z.of_nat Pos.of_succ_nat Pos.succ].
  change (of_Z 0) with (Fin 0). change (of_Z 1) with (Fin 1).
  rewrite fzero_Fin, fsub_Fin, (fdiv_Fin (e - s) 1) by lra.
  destruct (feqb (Fin ((e - s) / 1)) (Fin 0)).
  - rewrite !fdiv_Fin, !fmul_Fin by lra. cbn [map]. rewrite !fadd_Fin.
    cbn [removelast app]. eexists. split; [reflexivity|]. lra.
  - rewrite !fmul_Fin. cbn [map]. rewrite !fadd_Fin.
    cbn [removelast app]. eexists. split; [reflexivity|]. lra.
Qed.

Lemma zero_norm_pair_high_low (u : R) :
  0 < u -> zero_norm [Fin u; Fin 0] = Ok [Fin 1; Fin (-1)].
Proof.
  intros Hu. change [Fin u; Fin 0] with (map Fin [u; 0]).
  assert (Hmin : list_min [u; 0] = 0) by (simpl; apply Rmin_right; lra).
  assert (Hmax : list_max [u; 0] = u) by (simpl; apply Rmax_left; lra).
  rewrite zero_norm_Fin by (try discriminate; rewrite Hmin, Hmax; lra).
  unfold zero_norm_R. rewrite Hmin, Hmax. unfold rescale.
  cbn [map Rsum fold_right length INR]. do 2 f_equal; [|f_equal]; f_equal;
    field; lra.
Qed.

Lemma zero_norm_pair_low_high (u : R) :
  0 < u -> zero_norm [Fin 0; Fin u] = Ok [Fin (-1); Fin 1].
Proof.
  intros Hu. change [Fin 0; Fin u] with (map Fin [0; u]).
  assert (Hmin : list_min [0; u] = 0) by (simpl; apply Rmin_left; lra).
  assert (Hmax : list_max [0; u] = u) by (simpl; apply Rmax_right; lra).
  rewrite zero_norm_Fin by (try discriminate; rewrite Hmin, Hmax; lra).
  unfold zero_norm_R. rewrite Hmin, Hmax. unfold rescale.
  cbn [map Rsum fold_right length INR]. do 2 f_equal; [|f_equal]; f_equal;
    field; lra.
Qed.

Lemma zero_norm_pair_equal (c d : R) :
  c = d -> zero_norm [Fin c; Fin d] = Ok [NaN; NaN].
Proof.
  intros <-. unfold zero_norm, py_min, py_max. cbn [fold_left].
  rewrite fltb_Fin. destruct (Rlt_dec c c); [lra|].
  cbn [bind map]. cbv zeta. rewrite rescale_constant_is_NaN. reflexivity.
Qed.

Lemma fpow_positive (s b : R) :
  0 < s -> exists u, 0 < u /\ fpow (Fin s) (Fin b) = Fin u.
Proof.
  intros Hs. simpl. destruct (Req_EM_T b 0).
  - exists 1. split; [lra|reflexivity].
  - destruct (Rlt_dec 0 s); [|contradiction].
    exists (Rpower s b). split; [apply exp_pos|reflexivity].
Qed.

(** X25.  For [L = 2] and [zn=True], in exact arithmetic, the double-sided
    kernels return two NaN for all finite parameters: [exp_cusp] always,
    [power_cusp] and [pitchfork] when [startpt > 0], [power_law_cusp] when
    [endpt > 0].  Each normalised half is [[1, -1]] or [[-1, 1]], the half
    and its mirror image cancel, and the outer [zero_norm] divides zero by
    zero. *)
Theorem cusps_of_length_two_are_nan :
  forall p s e : R,
    exp_cusp 2 (Fin p) true (Fin s) (Fin e) = Ok [NaN; NaN] /\
    (0 < s -> power_cusp 2 (Fin p) true (Fin s) (Fin e) = Ok [NaN; NaN]) /\
    (0 < s -> pitchfork 2 (Fin p) true (Fin s) (Fin e) = Ok [NaN; NaN]) /\
    (0 < e -> power_law_cusp 2 (Fin p) true (Fin s) (Fin e) = Ok [NaN; NaN]).
Proof.
  intros p s e. destruct (linspace_two s e) as (s' & Hx & ->).
  assert (Hpower : forall b, 0 < s ->
            power_zero_cusp 2 (Fin b) true (Fin s) (Fin e)
            = Ok [Fin 1; Fin (-1)]).
  { intros b Hs. unfold power_zero_cusp. cbv zeta. rewrite Hx.
    cbn [map length Nat.div Nat.divmod fst assign_from firstn skipn app finish].
    destruct (fpow_positive s b Hs) as (u & Hu & ->).
    rewrite fzero_Fin. now apply zero_norm_pair_high_low. }
  assert (Hcusp : 0 < s ->
            power_cusp 2 (Fin p) true (Fin s) (Fin e) = Ok [NaN; NaN]).
  { intros Hs. unfold power_cusp. rewrite Hpower by exact Hs.
    cbn [bind rev app np_add finish]. rewrite !fadd_Fin.
    apply zero_norm_pair_equal. lra. }
  split; [|split; [|split]].
  - unfold exp_cusp, exp_zero_cusp. cbv zeta. rewrite Hx.
    cbn [map length Nat.div Nat.divmod fst assign_from firstn skipn app finish].
    rewrite fmul_Fin, fzero_Fin.
    change (fexp (Fin (p * s))) with (Fin (Rtrigo_def.exp (p * s))).
    rewrite zero_norm_pair_high_low by apply exp_pos.
    cbn [bind rev app np_add finish]. rewrite !fadd_Fin.
    apply zero_norm_pair_equal. lra.
  - exact Hcusp.
  - intros Hs. unfold pitchfork.
    rewrite ftwo_Fin, fmul_Fin, Hpower, Hcusp by exact Hs. reflexivity.
  - intros He. unfold power_law_cusp, power_law_cusp_res, power_law_zero_cusp.
    cbv zeta. rewrite Hx.
    cbn [map length Nat.div Nat.divmod fst assign_upto firstn skipn app finish].
    change (fopp (Fin p)) with (Fin (- p)).
    destruct (fpow_positive e (- p) He) as (u & Hu & ->).
    rewrite fzero_Fin, zero_norm_pair_low_high by exact Hu.
    cbn [bind rev app np_add finish]. rewrite !fadd_Fin.
    apply zero_norm_pair_equal. lra.
Qed.

(** ** The normalised haar kernel, in closed form *)

Lemma list_min_exact (l : list R) (c : R) :
  In c l -> Forall (fun r => c <= r) l -> list_min l = c.
Proof.
  intros Hin Hall.
  assert (Hne : l <> []) by (intros ->; contradiction).
  pose proof (list_min_In l Hne) as Hm.
  pose proof (list_min_le l) as Hle.
  rewrite Forall_forall in Hall, Hle.
  specialize (Hall _ Hm). specialize (Hle _ Hin). lra.
Qed.

Lemma list_max_exact (l : list R) (c : R) :
  In c l -> Forall (fun r => r <= c) l -> list_max l = c.
Proof.
  intros Hin Hall.
  assert (Hne : l <> []) by (intros ->; contradiction).
  pose proof (list_max_In l Hne) as Hm.
  pose proof (list_max_ge l) as Hge.
  rewrite Forall_forall in Hall, Hge.
  specialize (Hall _ Hm). specialize (Hge _ Hin). lra.
Qed.

(** X26.  In exact arithmetic, for [L >= 2], the normalised [haar(L)] is
    [-1 - m] on its first [L // 2] entries and [1 - m] on the others, where
    [m = ((L - L // 2) - L // 2) / L] is the mean of the step: [0] for an
    even [L], so that the kernel is the step itself, and [1 / L] for an odd
    [L], so that the negative half goes below [-1]. *)
Theorem haar_closed_form :
  forall L : nat,
    (2 <= L)%nat ->
    let h := (L / 2)%nat in
    let m := (INR (L - h) - INR h) / INR L in
    @haar xreal xreal_ops L true
    = Ok (repeat (Fin (-1 - m)) h ++ repeat (Fin (1 - m)) (L - h)) /\
    (Nat.Even L -> m = 0) /\
    (Nat.Odd L -> m = 1 / INR L).
Proof.
  intros L HL h m. pose proof (half_bounds L HL) as Hh. fold h in Hh.
  assert (HLpos : 0 < INR L) by (apply lt_0_INR; lia).
  split; [|split].
  - unfold haar, finish. rewrite haar_res_repeat. fold h.
    replace (fmul (of_Z (-1)) fone) with (Fin (-1)) by (simpl; f_equal; lra).
    rewrite fone_Fin.
    set (ra := repeat (-1) h ++ repeat 1 (L - h)).
    assert (Hra : repeat (Fin (-1)) h ++ repeat (Fin 1) (L - h) = map Fin ra)
      by (unfold ra; now rewrite map_app, !map_repeat).
    assert (Hall : Forall (fun r => -1 <= r <= 1) ra).
    { unfold ra. apply Forall_app. split; apply Forall_forall; intros r Hr;
        apply repeat_spec in Hr; subst; lra. }
    assert (Hmin : list_min ra = -1).
    { apply list_min_exact.
      - unfold ra. apply in_or_app. left. destruct h; [lia|now left].
      - revert Hall. apply Forall_impl. intros; lra. }
    assert (Hmax : list_max ra = 1).
    { apply list_max_exact.
      - unfold ra. apply in_or_app. right.
        destruct (L - h)%nat eqn:E; [lia|now left].
      - revert Hall. apply Forall_impl. intros; lra. }
    assert (Hne : ra <> []) by (unfold ra; destruct h; [lia|discriminate]).
    rewrite Hra, zero_norm_Fin by (auto; rewrite Hmin, Hmax; lra).
    unfold zero_norm_R. rewrite Hmin, Hmax.
    assert (Hss : map (rescale (-1) 1) ra = ra).
    { rewrite <- (map_id ra) at 2. apply map_ext. intros r.
      unfold rescale. field. }
    rewrite Hss.
    assert (Hm : Rsum ra / INR (length ra) = m).
    { unfold ra at 1. rewrite Rsum_app, !Rsum_repeat.
      unfold ra. rewrite length_app, !repeat_length.
      replace (h + (L - h))%nat with L by lia. unfold m. field. lra. }
    rewrite Hm. unfold ra. now rewrite !map_app, !map_repeat.
  - intros [k Hk]. unfold m.
    assert (Hhk : h = k) by (unfold h; subst L; now rewrite Nat.mul_comm, Nat.div_mul).
    replace (L - h)%nat with h by lia. field. lra.
  - intros [k Hk]. unfold m.
    assert (Hhk : h = k).
    { unfold h. subst L. rewrite Nat.mul_comm, Nat.div_add_l by lia.
      now rewrite Nat.add_0_r. }
    replace (L - h)%nat with (S h) by lia. rewrite S_INR. field. lra.
Qed.


(** ** The theorems above at instances *)

Lemma not_constant_1_3 : ~ constant [1; 3].
Proof.
  intros Hc.
  specialize (Hc 1 3 (or_introl eq_refl) (or_intror (or_introl eq_refl))).
  lra.
Qed.

(** [top_k] returns when [k] is in range and every value has a label. *)
Lemma top_k_returns (F : Type) (ops : FloatOps F) (W : Type)
  (indices : list F) (words : list W) (k : Z) :
  length words = length indices ->
  (- Z.of_nat (length indices) < k <= Z.of_nat (length indices))%Z ->
  exists top, top_k indices words k = Ok top.
Proof.
  intros Hw Hk. unfold top_k.
  destruct (np_argpartition_returns indices (- k)) as (p & Hp & _ & Hpi);
    [lia|].
  rewrite Hp. cbn [bind].
  pose proof (slice_from_Forall _ (- k) p Hpi) as Hs.
  destruct (np_take_returns indices _ Hs) as (vals & Hvals & _).
  rewrite <- Hw in Hs.
  destruct (np_take_returns words _ Hs) as (ws & Hws & _).
  rewrite Hws, Hvals. cbn [bind]. eauto.
Qed.

(** X11, witness: an array of one element. *)
Lemma max_rel_change_needs_two_witness :
  max_rel_change [Fin 1] true = Raise ValueError.
Proof.
  exact (@max_rel_change_needs_two xreal xreal_ops xreal_libm
           [Fin 1] true (le_n 1)).
Defined.

(** X12, witness: [exp_cusp] of length three. *)
Lemma double_sided_cusps_are_palindromes_witness :
  exists k, exp_cusp 3 (Fin 1) true (Fin 1) (Fin 4) = Ok k /\ rev k = k.
Proof.
  destruct (@double_sided_cusps_are_palindromes xreal xreal_ops xreal_libm
              xreal_add_comm 3 (Fin 1) true (Fin 1) (Fin 4)
              (le_S _ _ (le_S _ _ (le_n 1))))
    as (_ & _ & H).
  exact H.
Defined.

(** X13, witness: one window over two values. *)
Lemma window_argmaxes_are_maximal_witness :
  exists argmaxes,
    window_argmaxes [[0; 1]]%Z (map Fin [1; 5]) = Ok argmaxes /\
    Forall2
      (fun window w =>
         exists vw,
           np_index (map Fin [1; 5]) w = Ok (Fin vw) /\
           forall i vi,
             In i window ->
             np_index (map Fin [1; 5]) i = Ok (Fin vi) -> vi <= vw)
      [[0; 1]]%Z argmaxes.
Proof.
  assert (Hu : usable_window (length (map Fin [1; 5])) [0; 1]%Z).
  { split; [discriminate|]. repeat constructor; unfold in_bounds; simpl; lia. }
  destruct (window_step [0; 1]%Z (map Fin [1; 5]) Hu)
    as (seg & j & w & Hs & Hj & Hn).
  assert (Hout : window_argmaxes [[0; 1]]%Z (map Fin [1; 5]) = Ok [w]).
  { cbn [window_argmaxes]. rewrite Hs. cbn [bind]. rewrite Hj. cbn [bind].
    rewrite Hn. reflexivity. }
  exists [w]. split; [exact Hout|].
  exact (window_argmaxes_are_maximal _ _ _ Hout).
Defined.

(** X14, witness: three values, the two largest. *)
Lemma top_k_is_sorted_descending_witness :
  exists (top : list (nat * xreal)) (vals : list R),
    top_k (map Fin [5; 1; 9]) [1; 2; 3]%nat 2 = Ok top /\
    map snd top = map Fin vals /\
    StronglySorted (fun a b => b <= a) vals.
Proof.
  destruct (top_k_returns xreal xreal_ops nat
              (map Fin [5; 1; 9]) [1; 2; 3]%nat 2 eq_refl)
    as (top & Htop); [simpl; lia|].
  destruct (top_k_is_sorted_descending nat _ _ _ top Htop) as (vals & Hv & Hs).
  exists top, vals. auto.
Defined.

(** X15, witness: three values, the two largest. *)
Lemma top_k_selects_the_largest_witness :
  exists (top : list (nat * xreal)) (others selected : list nat),
    top_k (map Fin [5; 1; 9]) [1; 2; 3]%nat 2 = Ok top /\
    Permutation (seq 0 3) (others ++ selected) /\
    forall i j,
      In i others -> In j selected -> nth i [5; 1; 9] 0 <= nth j [5; 1; 9] 0.
Proof.
  destruct (top_k_returns xreal xreal_ops nat
              (map Fin [5; 1; 9]) [1; 2; 3]%nat 2 eq_refl)
    as (top & Htop); [simpl; lia|].
  destruct (top_k_selects_the_largest nat _ _ _ top Htop)
    as (others & selected & Hp & _ & Hle).
  exists top, others, selected. auto.
Defined.

(** X16, witness: the array [[1, 3]]. *)
Lemma normalize_standardizes_witness :
  exists z : list R,
    normalize (map Fin [1; 3]) true
    = NormedStats (map Fin z) (Fin (Rmean [1; 3]))
                  (Fin (R_sqrt.sqrt (Rvar [1; 3]))) /\
    Rmean z = 0 /\ Rvar z = 1.
Proof.
  destruct (normalize_standardizes [1; 3] not_constant_1_3)
    as (z & Hz & _ & Hm & Hv).
  exists z. auto.
Defined.

(** X17, witness: the one-row matrix [[[1, 3]]]. *)
Lemma row_normalize_standardizes_witness :
  exists Z : list (list R),
    snd (row_normalize (map (map Fin) [[1; 3]])) = map (map Fin) Z /\
    Forall2 (fun row z => length z = length row /\ Rmean z = 0 /\ Rvar z = 1)
            [[1; 3]] Z.
Proof.
  assert (H : forall row, In row [[1; 3]] -> ~ constant row)
    by (intros row [<-|[]]; exact not_constant_1_3).
  destruct (row_normalize_standardizes [[1; 3]] H) as (Z & HZ & Hstd).
  exists Z. split; [now rewrite HZ|exact Hstd].
Defined.

(** X19, witness: the array [[2, 9, -1, 4]]. *)
Lemma max_change_is_a_range_witness :
  exists r : R,
    max_change (map Fin [2; 9; -1; 4]) = Ok (Fin r) /\ 0 <= r.
Proof.
  assert (Hne : [2; 9; -1; 4] <> []) by discriminate.
  destruct (max_change_is_a_range [2; 9; -1; 4] Hne) as (r & Hr & H0 & _).
  exists r. auto.
Defined.

Lemma range_0_1 : list_max [0; 1] - list_min [0; 1] <> 0.
Proof.
  simpl. rewrite Rmax_right, Rmin_left by lra. lra.
Qed.

(** X20, witness: the array [[0, 1]] and the map [v -> 2 v + 3]. *)
Lemma zero_norm_affine_invariant_witness :
  zero_norm (map Fin (map (fun v => 2 * v + 3) [0; 1]))
  = zero_norm (map Fin [0; 1]).
Proof.
  apply zero_norm_affine_invariant;
    [lra|discriminate|exact range_0_1].
Defined.

(** X21, witness: the array [[0, 1]]. *)
Lemma zero_norm_idempotent_witness :
  zero_norm (map Fin (zero_norm_R [0; 1])) = Ok (map Fin (zero_norm_R [0; 1])).
Proof.
  apply (zero_norm_idempotent (map Fin [0; 1])).
  - apply zero_norm_Fin; [discriminate|exact range_0_1].
  - apply Forall_finite_Fin.
Defined.

(** X23, witness: the array [[1, 10, 100]] and the factor [2]. *)
Lemma max_rel_change_scale_invariant_witness :
  max_rel_change (map Fin (map (fun v => 2 * v) [1; 10; 100])) false
  = max_rel_change (map Fin [1; 10; 100]) false.
Proof.
  apply max_rel_change_scale_invariant; [lra|].
  repeat constructor; lra.
Defined.

(** X26, witness: [L = 3]. *)
Lemma haar_closed_form_witness :
  exists m : R,
    m = 1 / INR 3 /\
    @haar xreal xreal_ops 3 true
    = Ok [Fin (-1 - m); Fin (1 - m); Fin (1 - m)].
Proof.
  destruct (haar_closed_form 3 (le_S _ _ (le_n 2))) as (H & _ & Hodd).
  eexists. split; [|exact H].
  apply Hodd. exists 1%nat. reflexivity.
Defined.

End MoreExact.

(** * Further runs in double precision *)

Module MoreRuns.

Import Binary64.
Local Open Scope float_scope.

(** Addition of doubles is commutative. *)
#[export] Instance binary64_add_comm : AddComm float.
Proof.
  intros x y. simpl. apply Prim2SF_inj. rewrite !add_spec.
  unfold SF64add.
  destruct (Prim2SF x) as [sx | sx | | sx mx ex],
           (Prim2SF y) as [sy | sy | | sy my ey];
    try reflexivity; try (destruct sx, sy; reflexivity).
  unfold SFadd. rewrite (Z.min_comm ey ex), Z.add_comm. reflexivity.
Qed.

Example window_argmaxes_run :
  window_argmaxes [[0; 1; 2]; [3; 4]]%Z [1; 5; 2; 9; 0] = Ok [1; 3]%Z.
Proof. vm_compute. reflexivity. Qed.

Example window_argmaxes_negative_index_run :
  window_argmaxes [[-1; -2; 0]]%Z [1; 5; 2; 9; 0] = Ok [-2]%Z.
Proof. vm_compute. reflexivity. Qed.

Example make_seq_prediction_data_run :
  make_seq_prediction_data [1; 2; 3; 4; 5; 6]%nat 2 1
  = ([[1; 2]; [2; 3]; [3; 4]], [[3]; [4]; [5]])%nat.
Proof. reflexivity. Qed.

(** X2, witness: six entries, [X_lag = 2], [y_lag = 1]. *)
Lemma make_seq_prediction_data_aligned_witness :
  length (fst (make_seq_prediction_data [1; 2; 3; 4; 5; 6]%nat 2 1)) = 3%nat /\
  length (snd (make_seq_prediction_data [1; 2; 3; 4; 5; 6]%nat 2 1)) = 3%nat.
Proof.
  pose proof (@make_seq_prediction_data_aligned nat
                [1; 2; 3; 4; 5; 6]%nat 2 1 (le_n 1)) as H.
  destruct (make_seq_prediction_data [1; 2; 3; 4; 5; 6]%nat 2 1) as [X y].
  destruct H as (HX & Hy & _). split; [exact HX|exact Hy].
Defined.

(** X5, witness: an empty window, and an index past the end, after a good
    window. *)
Lemma window_argmaxes_raises_witness :
  window_argmaxes [[0; 1; 2]; []; [3; 4]]%Z [1; 5; 2; 9; 0]
  = Raise ValueError /\
  window_argmaxes [[0; 1; 2]; [7]]%Z [1; 5; 2; 9; 0] = Raise IndexError.
Proof.
  assert (Hgood : Forall (usable_window (length [1; 5; 2; 9; 0]))
                         [[0; 1; 2]]%Z).
  { repeat constructor; try discriminate; unfold in_bounds; simpl; lia. }
  split.
  - exact (proj1 (@window_argmaxes_raises float binary64
                    [[0; 1; 2]]%Z [] [[3; 4]]%Z [1; 5; 2; 9; 0] Hgood)
                 eq_refl).
  - apply (proj2 (@window_argmaxes_raises float binary64
                    [[0; 1; 2]]%Z [7]%Z [] [1; 5; 2; 9; 0] Hgood)).
    intros H. inversion H as [|i l Hi _]. unfold in_bounds in Hi.
    simpl in Hi. lia.
Defined.

(** X7, witness: the run of [top_k] above. *)
Lemma top_k_pairs_are_aligned_witness :
  Forall (fun p : nat * float =>
            exists i,
              nth_error [1; 2; 3; 4; 5]%nat i = Some (fst p) /\
              nth_error [5; 1; 9; 3; 7] i = Some (snd p))
         [(3%nat, 9); (5%nat, 7)].
Proof.
  exact (@top_k_pairs_are_aligned float binary64 nat
           [5; 1; 9; 3; 7] [1; 2; 3; 4; 5]%nat 2 _ Runs.top_k_run).
Defined.

(** X8, witness: three values, two labels, [k = 0]. *)
Lemma top_k_missing_label_witness :
  top_k [5; 1; 9] [1; 2]%nat 0 = Raise IndexError.
Proof.
  apply (@top_k_missing_label float binary64 nat [5; 1; 9] [1; 2]%nat 0).
  - simpl. lia.
  - left. reflexivity.
Defined.

(** X9, witness: two rows, one mean and one standard deviation. *)
Lemma row_unnormalize_by_row_witness :
  row_unnormalize [[1; 2]; [3; 4]] [1] [2]
  = (Raise IndexError, [[3; 5]; [3; 4]]).
Proof.
  exact (@row_unnormalize_by_row float binary64
           [[1; 2]; [3; 4]] [1] [2] eq_refl (le_S _ _ (le_n 1))).
Defined.

End MoreRuns.
